(** * ConfigMerger: the configuration merge and conflict resolution engine

    A shallow embedding of [src/core/ConfigMerger.ts] (with the part of
    [src/core/ConfigurationManager.ts] it calls) and the properties of the
    merge engine proved on it.

    Conventions of the embedding.
    - An optional property ([args?], [env?], ...) is an [option]; a property
      that is absent and one that holds [undefined] are the same [None].
    - [Record<string, MCPServiceConfig>] is iterated by the merger, so it is
      an association list in enumeration order with the own keys of the
      object ([JSObject]); [env] and the metadata objects are only read by
      key, spread and counted, and are finite maps ([gmap]).
    - The records are plain objects, as [JSON.parse] and an object literal
      make them: their prototype is [Object.prototype].  Reading
      [services[name]] finds the own property of that name and, when there
      is none, the member of that name that the object inherits from
      [Object.prototype] ([JSObject.lookup]); [Object.keys],
      [Object.entries] and the spread see own properties only, and the
      spread defines own properties, whatever their name.
    - An assignment [services[name] = v] adds or replaces an own property,
      except for the name [__proto__] when it is not an own property: the
      assignment then calls the setter of [Object.prototype], which adds
      no property and makes [v] the prototype of the object
      ([JSObject.assign]).  An object with another prototype than
      [Object.prototype] is not represented: the lookups that follow such
      an assignment are modelled as before it, whereas in JavaScript they
      would also find the properties of [v].  This happens only under
      [OVERWRITE] and [MERGE], for a source with a service named
      [__proto__] that the target does not have, and changes the lookups
      of the services that come after it.  [plainNames] states that a
      record has no service named [__proto__]; the statements on the
      counters, the warnings and the new services of a whole merge are
      made for such a source.
    - A new key goes last in the list.  JavaScript enumerates the keys that
      are array indices first, in ascending order: what is stated of a
      merged record is stated by name.
    - [Date.now()] reads a clock: the [n]-th call of a run returns
      [clock n]; every function that reaches it threads the number of calls
      made so far ([Clocked]).
    - [Number] (a builtin of the runtime) is a parameter; what the proofs
      need of it is stated where it is used. *)

From Stdlib Require Import ZArith QArith List String Ascii Bool Lia.
From stdpp Require Import gmap strings list fin_maps pretty.

Set Default Proof Using "Type".
Open Scope string_scope.
Open Scope nat_scope.
Open Scope list_scope.

(** ** JavaScript objects iterated in key order *)

Module JSObject.

(** The names of the properties of [Object.prototype]
    ([Object.getOwnPropertyNames(Object.prototype)]): every plain object
    inherits them.  They hold functions, and [__proto__] reads as
    [Object.prototype] itself. *)
Definition prototypeKeys : list string :=
  ["constructor"; "__defineGetter__"; "__defineSetter__"; "hasOwnProperty";
   "__lookupGetter__"; "__lookupSetter__"; "isPrototypeOf";
   "propertyIsEnumerable"; "toString"; "valueOf"; "__proto__";
   "toLocaleString"].

Section Obj.
Context {V : Type}.

(** The value of the own property [k] of [o]. *)
Fixpoint get (k : string) (o : list (string * V)) : option V :=
  match o with
  | [] => None
  | (k', v) :: o' => if decide (k = k') then Some v else get k o'
  end.

(** What [o[k]] evaluates to when it is not [undefined]: the value of the
    own property [k], or the member [k] of [Object.prototype]. *)
Inductive member :=
| Own (v : V)
| Inherited (k : string).

(** [o[k]] *)
Definition lookup (k : string) (o : list (string * V)) : option member :=
  match get k o with
  | Some v => Some (Own v)
  | None =>
      if bool_decide (k ∈ prototypeKeys) then Some (Inherited k) else None
  end.

(** [m.p] for a property [p] of the values: a member of [Object.prototype]
    (a function, or [Object.prototype]) has no property of a value. *)
Definition field {A} (p : V → option A) (m : member) : option A :=
  match m with
  | Own v => p v
  | Inherited _ => None
  end.

(** The value itself, when the member is one. *)
Definition own (m : member) : option V := field Some m.

(** Defining the own property [k] as [v], as the spread and an
    assignment to an ordinary name do: an existing key keeps its place, a
    new key goes last. *)
Fixpoint set (k : string) (v : V) (o : list (string * V)) : list (string * V) :=
  match o with
  | [] => [(k, v)]
  | (k', v') :: o' =>
      if decide (k = k') then (k, v) :: o' else (k', v') :: set k v o'
  end.

(** [o[k] = v].  When [k] is [__proto__] and no own property, the
    assignment reaches the accessor of [Object.prototype], whose setter
    replaces the prototype of [o]: no property is added. *)
Definition assign (k : string) (v : V) (o : list (string * V))
  : list (string * V) :=
  match get k o with
  | Some _ => set k v o
  | None => if decide (k = "__proto__") then o else set k v o
  end.

(** The own property [k] after [o[k] = v], when [m] is what [o[k]]
    evaluated to before. *)
Definition assigned (m : member) (v : V) : option V :=
  match m with
  | Own _ => Some v
  | Inherited k => if decide (k = "__proto__") then None else Some v
  end.

(** [Object.keys(o)] *)
Definition keys (o : list (string * V)) : list string := map fst o.

(** [Object.entries(o)] *)
Definition entries (o : list (string * V)) : list (string * V) := o.

(** [{ ...base, ...extra }] *)
Definition spread (base extra : list (string * V)) : list (string * V) :=
  fold_left (fun acc kv => set (fst kv) (snd kv) acc) extra base.

(** [{ ...o }] *)
Definition copy (o : list (string * V)) : list (string * V) := spread [] o.

(** [arr.includes(k)] on the array of keys *)
Definition includes (k : string) (ks : list string) : bool :=
  bool_decide (k ∈ ks).
End Obj.

Arguments member V : clear implicits.
End JSObject.

Abbreviation Own := JSObject.Own.
Abbreviation Inherited := JSObject.Inherited.

(** ** Data model ([src/types]) *)

(** A value stored in a metadata object. *)
Inductive metaval :=
| MStr (s : string)
| MNum (n : Z)
| MList (l : list string).

Record MCPServiceConfig := mkService {
  command : string;
  args : option (list string);
  env : option (gmap string string);
  disabled : option bool;
  cwd : option string;
  timeout : option Z;
  svc_metadata : option (gmap string metaval)
}.

Record MCPConfig := mkConfig {
  mcpServers : list (string * MCPServiceConfig);
  version : option string;
  metadata : option (gmap string metaval);
  schema : option string
}.

Record ConfigConflict := mkConflict {
  id : string;
  serviceName : string;
  type : string;
  sourceConfig : MCPServiceConfig;
  targetConfig : JSObject.member MCPServiceConfig;
  description : string;
  path : string;
  values : MCPServiceConfig * JSObject.member MCPServiceConfig
}.

Inductive MergeStrategy := OVERWRITE | SKIP | MERGE | PROMPT.

Inductive Resolution := UseSource | UseTarget | UseMerge.

Record MergeOptions := mkOptions {
  strategy : MergeStrategy;
  preserveMetadata : bool;
  createBackup : bool;
  validateResult : bool;
  conflictResolution : option (ConfigConflict -> Resolution)
}.

Record MergeStats := mkStats {
  totalServices : nat;
  addedServices : nat;
  updatedServices : nat;
  skippedServices : nat;
  conflictServices : nat
}.

Record MergeResult := mkResult {
  success : bool;
  config : option MCPConfig;
  conflicts : list ConfigConflict;
  errors : list string;
  warnings : list string;
  stats : MergeStats
}.

(** A well-formed record: an object has each key once. *)
Definition wfConfig (c : MCPConfig) : Prop :=
  NoDup (JSObject.keys (mcpServers c)).

(** A record without a service named [__proto__]. *)
Definition plainNames (c : MCPConfig) : Prop :=
  "__proto__" ∉ JSObject.keys (mcpServers c).

(** ** Equality utilities *)

(** [arr1.every((item, index) => item === arr2[index])] *)
Fixpoint everyAt (arr1 arr2 : list string) (index : nat) : bool :=
  match arr1 with
  | [] => true
  | item :: rest =>
      match arr2 !! index with
      | Some other => bool_decide (item = other) && everyAt rest arr2 (S index)
      | None => false
      end
  end.

Definition areArraysEqual (arr1 arr2 : option (list string)) : bool :=
  match arr1, arr2 with
  | None, None => true
  | None, Some _ | Some _, None => false
  | Some a1, Some a2 =>
      if negb (length a1 =? length a2)%nat then false
      else everyAt a1 a2 0
  end.

(** [keys1.every(key => obj1[key] === obj2[key])]: [obj1[key]] is a string
    for a key of [obj1], [obj2[key]] is [undefined] when [obj2] lacks it. *)
Definition areObjectsEqual (obj1 obj2 : option (gmap string string)) : bool :=
  match obj1, obj2 with
  | None, None => true
  | None, Some _ | Some _, None => false
  | Some o1, Some o2 =>
      if negb (size o1 =? size o2)%nat then false
      else forallb (fun key => bool_decide (o1 !! key = o2 !! key))
                   (map fst (map_to_list o1))
  end.

Definition areServicesEqual (service1 service2 : MCPServiceConfig) : bool :=
  bool_decide (command service1 = command service2)
  && areArraysEqual (args service1) (args service2)
  && areObjectsEqual (env service1) (env service2)
  && bool_decide (disabled service1 = disabled service2).

(** ** Numbers of the runtime, as [compareVersions] uses them *)

(** A JavaScript number: every double is [NaN], an infinity or a rational. *)
Inductive jsnum :=
| JNaN
| JPosInf
| JNegInf
| JFin (q : Q).

(** [a < b] *)
Definition js_lt (a b : jsnum) : bool :=
  match a, b with
  | JNaN, _ | _, JNaN => false
  | JFin x, JFin y => negb (Qle_bool y x)
  | JNegInf, JNegInf => false
  | JNegInf, _ => true
  | JFin _, JPosInf => true
  | JFin _, JNegInf => false
  | JPosInf, _ => false
  end.

(** [a > b] *)
Definition js_gt (a b : jsnum) : bool := js_lt b a.

(** [x || 0] on a number that may be missing: [undefined], [NaN] and [0]
    are falsy. *)
Definition orZero (x : option jsnum) : jsnum :=
  match x with
  | None => JFin 0
  | Some JNaN => JFin 0
  | Some (JFin q) => if Qeq_bool q 0 then JFin 0 else JFin q
  | Some y => y
  end.

(** [s.split('.')] for a separator of one character *)
Fixpoint split (sep : ascii) (s : string) : list string :=
  match s with
  | EmptyString => [EmptyString]
  | String c rest =>
      if decide (c = sep) then EmptyString :: split sep rest
      else match split sep rest with
           | seg :: segs => String c seg :: segs
           | [] => [String c EmptyString]
           end
  end.

(** A string is truthy when it is not empty. *)
Definition truthyString (s : option string) : bool :=
  match s with
  | Some (String _ _) => true
  | _ => false
  end.

(** ** The clock *)

(** A computation that may call [Date.now()]: from the number of calls made
    so far to its result and the number of calls made after it. *)
Definition Clocked (A : Type) : Type := nat -> A * nat.

Definition cret {A} (a : A) : Clocked A := fun n => (a, n).

Definition cbind {A B} (m : Clocked A) (f : A -> Clocked B) : Clocked B :=
  fun n => let (a, n') := m n in f a n'.

Notation "'let*' x ':=' m 'in' k" := (cbind m (fun x => k))
  (at level 10, x name, m at level 100, k at level 200, only parsing).

(** The message strings hold double quotes around the service name. *)
Definition dq : string := String (ascii_of_nat 34) EmptyString.

(** The quote-delimited name, as in [`"${serviceName}"`]. *)
Definition quoted (name : string) : string := dq +:+ name +:+ dq.

Inductive Action := add | update | skip.

(** What [mergeService] returns. *)
Record ServiceMergeResult := mkServiceMerge {
  sm_action : Action;
  sm_config : option MCPServiceConfig;
  sm_conflict : option ConfigConflict;
  sm_warnings : option (list string)
}.

(** [{ ...target, ...source }] on one optional property: the source's value
    when the source has the property. *)
Definition spreadOver {A} (target source : option A) : option A :=
  match source with
  | Some v => Some v
  | None => target
  end.

(** An optional property that holds an object or an array is truthy when it
    is present. *)
Definition present {A} (o : option A) : bool :=
  match o with
  | Some _ => true
  | None => false
  end.

(** [{ ...o }] of an object that may be [undefined]. *)
Definition spreadOpt {K A} `{Countable K} (o : option (gmap K A)) : gmap K A :=
  default ∅ o.

Section Merger.
Variable clock : nat -> Z.
Variable Number : string -> jsnum.

Definition Date_now : Clocked Z := fun n => (clock n, S n).

(** *** compareVersions *)

(** The loop [for (let i = 0; i < maxLength; i++)], with [remaining] the
    number of iterations left. *)
Fixpoint compareLoop (v1Parts v2Parts : list jsnum) (i remaining : nat) : Z :=
  match remaining with
  | O => 0
  | S remaining' =>
      let v1Part := orZero (v1Parts !! i) in
      let v2Part := orZero (v2Parts !! i) in
      if js_gt v1Part v2Part then 1
      else if js_lt v1Part v2Part then -1
      else compareLoop v1Parts v2Parts (S i) remaining'
  end%Z.

Definition compareVersions (version1 version2 : string) : Z :=
  let v1Parts := map Number (split "." version1) in
  let v2Parts := map Number (split "." version2) in
  let maxLength := Nat.max (length v1Parts) (length v2Parts) in
  compareLoop v1Parts v2Parts 0 maxLength.

(** *** detectServiceConflict *)

(** [targetService] is what [services[serviceName]] returned: the four
    properties read as [undefined] on a member of [Object.prototype]. *)
Definition conflictingFields (sourceService : MCPServiceConfig)
    (targetService : JSObject.member MCPServiceConfig) : list string :=
  ((if bool_decide (Some (command sourceService)
                    ≠ JSObject.field (λ t, Some (command t)) targetService)
    then ["command"] else [])
   ++ (if negb (areArraysEqual (args sourceService)
                  (JSObject.field args targetService))
       then ["args"] else [])
   ++ (if negb (areObjectsEqual (env sourceService)
                  (JSObject.field env targetService))
       then ["env"] else [])
   ++ (if bool_decide (disabled sourceService
                       ≠ JSObject.field disabled targetService)
       then ["disabled"] else []))%list.

Definition detectServiceConflict (serviceName : string)
    (sourceService : MCPServiceConfig)
    (targetService : JSObject.member MCPServiceConfig)
  : Clocked (option ConfigConflict) :=
  let conflicts := conflictingFields sourceService targetService in
  if (length conflicts =? 0)%nat then cret None
  else
    let* now := Date_now in
    cret (Some {|
      id := "conflict_" +:+ serviceName +:+ "_" +:+ pretty now;
      serviceName := serviceName;
      type := "different-config";
      sourceConfig := sourceService;
      targetConfig := targetService;
      description :=
        "服务 " +:+ quoted serviceName +:+ " 在以下字段存在冲突: "
        +:+ String.concat ", " conflicts;
      path := EmptyString;
      values := (sourceService, targetService)
    |}).

(** *** mergeMetadata *)

Definition mergeMetadata (sourceMeta targetMeta : option (gmap string metaval))
  : Clocked (option (gmap string metaval)) :=
  match sourceMeta, targetMeta with
  | None, None => cret None
  | _, _ =>
      let* now := Date_now in
      cret (Some (<["lastModified" := MNum now]>
                    (spreadOpt sourceMeta ∪ spreadOpt targetMeta)))
  end.

(** *** mergeServiceConfigs *)

(** [{ ...targetService, ...sourceService }] copies the own enumerable
    properties: all those of a descriptor, none of a member of
    [Object.prototype]. *)
Definition mergeServiceConfigs (sourceService : MCPServiceConfig)
    (targetService : JSObject.member MCPServiceConfig)
    (preserveMetadata : bool) : Clocked MCPServiceConfig :=
  let merged := {|
    command := command sourceService;
    args := spreadOver (JSObject.field args targetService) (args sourceService);
    env := spreadOver (JSObject.field env targetService) (env sourceService);
    disabled := spreadOver (JSObject.field disabled targetService)
                  (disabled sourceService);
    cwd := spreadOver (JSObject.field cwd targetService) (cwd sourceService);
    timeout := spreadOver (JSObject.field timeout targetService)
                 (timeout sourceService);
    svc_metadata :=
      spreadOver (JSObject.field svc_metadata targetService)
        (svc_metadata sourceService)
  |} in
  let merged :=
    if present (env sourceService)
       || present (JSObject.field env targetService)
    then {|
      command := command merged; args := args merged;
      env := Some (spreadOpt (env sourceService)
                   ∪ spreadOpt (JSObject.field env targetService));
      disabled := disabled merged; cwd := cwd merged;
      timeout := timeout merged; svc_metadata := svc_metadata merged
    |}
    else merged in
  if preserveMetadata then
    let* m := mergeMetadata (svc_metadata sourceService)
                            (JSObject.field svc_metadata targetService) in
    cret {|
      command := command merged; args := args merged; env := env merged;
      disabled := disabled merged; cwd := cwd merged;
      timeout := timeout merged; svc_metadata := m
    |}
  else cret merged.

(** *** mergeService *)

Definition mergeService (serviceName : string) (sourceService : MCPServiceConfig)
    (targetService : option (JSObject.member MCPServiceConfig))
    (options : MergeOptions)
  : Clocked ServiceMergeResult :=
  match targetService with
  | None =>
      cret {| sm_action := add; sm_config := Some sourceService;
              sm_conflict := None; sm_warnings := None |}
  | Some targetService =>
      let* conflict :=
        detectServiceConflict serviceName sourceService targetService in
      match conflict with
      | None =>
          let* merged := mergeServiceConfigs sourceService targetService
                           (preserveMetadata options) in
          cret {| sm_action := update; sm_config := Some merged;
                  sm_conflict := None; sm_warnings := None |}
      | Some conflict =>
          match strategy options with
          | OVERWRITE =>
              cret {| sm_action := update; sm_config := Some sourceService;
                      sm_conflict := None;
                      sm_warnings :=
                        Some ["服务 " +:+ quoted serviceName +:+ " 已被覆盖"] |}
          | SKIP =>
              cret {| sm_action := skip; sm_config := None;
                      sm_conflict := None;
                      sm_warnings :=
                        Some ["跳过冲突的服务 " +:+ quoted serviceName] |}
          | MERGE =>
              let* merged := mergeServiceConfigs sourceService targetService
                               (preserveMetadata options) in
              cret {| sm_action := update; sm_config := Some merged;
                      sm_conflict := None;
                      sm_warnings :=
                        Some ["强制合并服务 " +:+ quoted serviceName
                              +:+ "，可能存在配置冲突"] |}
          | PROMPT =>
              cret {| sm_action := skip; sm_config := None;
                      sm_conflict := Some conflict; sm_warnings := None |}
          end
      end
  end.

(** *** ConfigurationManager.validateConfig *)

(** A [ValidationError] or [ValidationWarning], as far as the merger reads
    it. *)
Record ValidationMessage := mkMessage {
  field : string;
  message : string
}.

Record ValidationResult := mkValidation {
  isValid : bool;
  v_errors : list ValidationMessage;
  v_warnings : list ValidationMessage
}.

(** Truthiness of a value of a metadata object. *)
Definition truthyMeta (v : option metaval) : bool :=
  match v with
  | Some (MStr s) => truthyString (Some s)
  | Some (MNum n) => negb (n =? 0)%Z
  | Some (MList _) => true
  | None => false
  end.

(** The checks on the types of [args], [env] and [disabled] cannot fail on
    a value of type [MCPServiceConfig] and push nothing. *)
Definition validateServiceConfig (serviceName : string) (config : MCPServiceConfig)
    (errors warnings : list ValidationMessage)
  : list ValidationMessage * list ValidationMessage :=
  let fieldPrefix := "mcpServers." +:+ serviceName in
  let errors :=
    if negb (truthyString (Some (command config)))
    then (errors ++ [{| field := fieldPrefix +:+ ".command";
                        message := "每个服务必须指定command字段" |}])%list
    else errors in
  let warnings :=
    if negb (truthyMeta (svc_metadata config ≫= (.!! "description")))
    then (warnings ++ [{| field := fieldPrefix +:+ ".metadata.description";
                          message := "建议为服务添加描述信息" |}])%list
    else warnings in
  (errors, warnings).

Definition isDigit (c : ascii) : bool :=
  let n := nat_of_ascii c in (48 <=? n)%nat && (n <=? 57)%nat.

Fixpoint allDigits (s : string) : bool :=
  match s with
  | EmptyString => true
  | String c rest => isDigit c && allDigits rest
  end.

(** A segment matched by [\d+]. *)
Definition isDigits (s : string) : bool :=
  match s with
  | EmptyString => false
  | String _ _ => allDigits s
  end.

(** [/^\d+\.\d+(\.\d+)?$/.test(version)] *)
Definition versionFormat (version : string) : bool :=
  match split "." version with
  | [a; b] => isDigits a && isDigits b
  | [a; b; c] => isDigits a && isDigits b && isDigits c
  | _ => false
  end.

Definition validateConfigSync (config : MCPConfig) : ValidationResult :=
  let '(errors, warnings) :=
    fold_left
      (fun acc entry =>
         validateServiceConfig (fst entry) (snd entry) (fst acc) (snd acc))
      (JSObject.entries (mcpServers config)) ([], []) in
  let warnings :=
    match version config with
    | Some v =>
        if truthyString (Some v) && negb (versionFormat v)
        then (warnings ++ [{| field := "version";
                              message := "版本号格式建议使用语义化版本（如1.0.0）" |}])%list
        else warnings
    | None => warnings
    end in
  {| isValid := (length errors =? 0)%nat;
     v_errors := errors; v_warnings := warnings |}.

(** [validateConfig(config)] with a configuration given. *)
Definition validateConfig (config : MCPConfig) : ValidationResult :=
  validateConfigSync config.

(** *** mergeConfigs *)

(** Updates of the two objects the loop of [mergeConfigs] writes to. *)
Definition withServers (servers : list (string * MCPServiceConfig))
    (c : MCPConfig) : MCPConfig :=
  {| mcpServers := servers; version := version c;
     metadata := metadata c; schema := schema c |}.

Definition withVersion (v : option string) (c : MCPConfig) : MCPConfig :=
  {| mcpServers := mcpServers c; version := v;
     metadata := metadata c; schema := schema c |}.

Definition withMetadata (m : option (gmap string metaval)) (c : MCPConfig)
  : MCPConfig :=
  {| mcpServers := mcpServers c; version := version c;
     metadata := m; schema := schema c |}.

Definition withStats (s : MergeStats) (r : MergeResult) : MergeResult :=
  {| success := success r; config := config r; conflicts := conflicts r;
     errors := errors r; warnings := warnings r; stats := s |}.

Definition pushConflict (c : ConfigConflict) (r : MergeResult) : MergeResult :=
  {| success := success r; config := config r;
     conflicts := (conflicts r ++ [c])%list;
     errors := errors r; warnings := warnings r; stats := stats r |}.

Definition pushWarnings (ws : list string) (r : MergeResult) : MergeResult :=
  {| success := success r; config := config r; conflicts := conflicts r;
     errors := errors r; warnings := (warnings r ++ ws)%list;
     stats := stats r |}.

Definition pushErrors (es : list string) (r : MergeResult) : MergeResult :=
  {| success := success r; config := config r; conflicts := conflicts r;
     errors := (errors r ++ es)%list; warnings := warnings r;
     stats := stats r |}.

Definition setTotal (n : nat) (s : MergeStats) : MergeStats :=
  {| totalServices := n; addedServices := addedServices s;
     updatedServices := updatedServices s;
     skippedServices := skippedServices s;
     conflictServices := conflictServices s |}.

Definition incAdded (s : MergeStats) : MergeStats :=
  {| totalServices := totalServices s; addedServices := S (addedServices s);
     updatedServices := updatedServices s;
     skippedServices := skippedServices s;
     conflictServices := conflictServices s |}.

Definition incUpdated (s : MergeStats) : MergeStats :=
  {| totalServices := totalServices s; addedServices := addedServices s;
     updatedServices := S (updatedServices s);
     skippedServices := skippedServices s;
     conflictServices := conflictServices s |}.

Definition incSkipped (s : MergeStats) : MergeStats :=
  {| totalServices := totalServices s; addedServices := addedServices s;
     updatedServices := updatedServices s;
     skippedServices := S (skippedServices s);
     conflictServices := conflictServices s |}.

Definition incConflict (s : MergeStats) : MergeStats :=
  {| totalServices := totalServices s; addedServices := addedServices s;
     updatedServices := updatedServices s;
     skippedServices := skippedServices s;
     conflictServices := S (conflictServices s) |}.

Definition zeroStats : MergeStats :=
  {| totalServices := 0; addedServices := 0; updatedServices := 0;
     skippedServices := 0; conflictServices := 0 |}.

(** [mergedConfig.mcpServers[serviceName] = mergeServiceResult.config!]:
    the result of an [add] or an [update] always carries a configuration
    ([mergeService_config]), so the second case is never taken. *)
Definition assignService (serviceName : string)
    (c : option MCPServiceConfig) (mergedConfig : MCPConfig) : MCPConfig :=
  match c with
  | Some c =>
      withServers (JSObject.assign serviceName c (mcpServers mergedConfig))
                  mergedConfig
  | None => mergedConfig
  end.

(** One iteration of the loop over [Object.entries(sourceServices)]. *)
Definition mergeStep (options : MergeOptions)
    (st : MCPConfig * MergeResult) (entry : string * MCPServiceConfig)
  : Clocked (MCPConfig * MergeResult) :=
  let '(mergedConfig, result) := st in
  let '(serviceName, serviceConfig) := entry in
  let* mergeServiceResult :=
    mergeService serviceName serviceConfig
      (JSObject.lookup serviceName (mcpServers mergedConfig)) options in
  let '(mergedConfig, result) :=
    match sm_conflict mergeServiceResult with
    | Some conflict =>
        (mergedConfig,
         withStats (incConflict (stats result)) (pushConflict conflict result))
    | None =>
        match sm_action mergeServiceResult with
        | add =>
            (assignService serviceName (sm_config mergeServiceResult) mergedConfig,
             withStats (incAdded (stats result)) result)
        | update =>
            (assignService serviceName (sm_config mergeServiceResult) mergedConfig,
             withStats (incUpdated (stats result)) result)
        | skip =>
            (mergedConfig, withStats (incSkipped (stats result)) result)
        end
    end in
  let result :=
    match sm_warnings mergeServiceResult with
    | Some ws => pushWarnings ws result
    | None => result
    end in
  cret (mergedConfig, result).

Fixpoint mergeLoop (options : MergeOptions)
    (entries : list (string * MCPServiceConfig))
    (st : MCPConfig * MergeResult) : Clocked (MCPConfig * MergeResult) :=
  match entries with
  | [] => cret st
  | entry :: rest =>
      let* st' := mergeStep options st entry in
      mergeLoop options rest st'
  end.

(** [sourceConfig.version && (!targetConfig.version ||
    this.compareVersions(sourceConfig.version, targetConfig.version) > 0)] *)
Definition adoptsSourceVersion (sourceVersion targetVersion : option string)
  : bool :=
  truthyString sourceVersion
  && (negb (truthyString targetVersion)
      || match sourceVersion, targetVersion with
         | Some v1, Some v2 => (0 <? compareVersions v1 v2)%Z
         | _, _ => false
         end).

(** The result object before the [try] block. *)
Definition emptyResult : MergeResult :=
  {| success := false; config := None; conflicts := []; errors := [];
     warnings := []; stats := zeroStats |}.

(** The body of [mergeConfigs] is its [try] block; no statement of the
    block throws on inputs of the declared types, so the [catch] branch is
    not part of the model.  The block is cut in three: what runs before
    the loop, the loop, and what runs after it. *)

(** From [const mergedConfig = ...] to [result.stats.totalServices = ...]:
    the state in which the loop starts. *)
Definition mergeStart (sourceConfig targetConfig : MCPConfig)
    (options : MergeOptions) : Clocked (MCPConfig * MergeResult) :=
  let result := emptyResult in
  let mergedConfig :=
    withServers (JSObject.copy (mcpServers targetConfig)) targetConfig in
  let mergedConfig :=
    if adoptsSourceVersion (version sourceConfig) (version targetConfig)
    then withVersion (version sourceConfig) mergedConfig
    else mergedConfig in
  let* mergedConfig :=
    if preserveMetadata options then
      let* m := mergeMetadata (metadata sourceConfig) (metadata targetConfig) in
      cret (withMetadata m mergedConfig)
    else cret mergedConfig in
  let sourceServices := mcpServers sourceConfig in
  let result :=
    withStats (setTotal (length (JSObject.keys sourceServices)) (stats result))
              result in
  cret (mergedConfig, result).

(** From [if (options.validateResult)] to [result.success = ...]. *)
Definition mergeFinish (options : MergeOptions) (st : MCPConfig * MergeResult)
  : MergeResult :=
  let '(mergedConfig, result) := st in
  let result :=
    if validateResult options then
      let validation := validateConfig mergedConfig in
      let result :=
        if negb (isValid validation)
        then pushErrors (map message (v_errors validation)) result
        else result in
      pushWarnings (map message (v_warnings validation)) result
    else result in
  {| success := (length (errors result) =? 0)%nat;
     config := Some mergedConfig;
     conflicts := conflicts result; errors := errors result;
     warnings := warnings result; stats := stats result |}.

Definition mergeConfigs (sourceConfig targetConfig : MCPConfig)
    (options : MergeOptions) : Clocked MergeResult :=
  let* st0 := mergeStart sourceConfig targetConfig options in
  let* st := mergeLoop options (JSObject.entries (mcpServers sourceConfig)) st0 in
  cret (mergeFinish options st).

(** *** mergeMultipleConfigs *)

Definition addStats (a b : MergeStats) : MergeStats :=
  {| totalServices := totalServices a + totalServices b;
     addedServices := addedServices a + addedServices b;
     updatedServices := updatedServices a + updatedServices b;
     skippedServices := skippedServices a + skippedServices b;
     conflictServices := conflictServices a + conflictServices b |}.

(** One iteration of [for (let i = 1; i < configs.length; i++)]; the state
    is [result] and [finalResult]. *)
Definition multiStep (options : MergeOptions)
    (st : MCPConfig * MergeResult) (next : MCPConfig)
  : Clocked (MCPConfig * MergeResult) :=
  let '(result, finalResult) := st in
  let* mergeResult := mergeConfigs next result options in
  let finalResult :=
    if negb (success mergeResult) then
      {| success := false; config := config finalResult;
         conflicts := conflicts finalResult;
         errors := (errors finalResult ++ errors mergeResult)%list;
         warnings := warnings finalResult; stats := stats finalResult |}
    else finalResult in
  let finalResult :=
    {| success := success finalResult; config := config finalResult;
       conflicts := (conflicts finalResult ++ conflicts mergeResult)%list;
       errors := errors finalResult;
       warnings := (warnings finalResult ++ warnings mergeResult)%list;
       stats := addStats (stats finalResult) (stats mergeResult) |} in
  let result :=
    match config mergeResult with
    | Some c => c
    | None => result
    end in
  cret (result, finalResult).

Fixpoint multiLoop (options : MergeOptions) (rest : list MCPConfig)
    (st : MCPConfig * MergeResult) : Clocked (MCPConfig * MergeResult) :=
  match rest with
  | [] => cret st
  | next :: rest' =>
      let* st' := multiStep options st next in
      multiLoop options rest' st'
  end.

(** [inl] is the [Error] thrown for an empty array. *)
Definition mergeMultipleConfigs (configs : list MCPConfig)
    (options : MergeOptions) : Clocked (string + MergeResult) :=
  match configs with
  | [] => cret (inl "至少需要一个配置文件")
  | [only] =>
      cret (inr {| success := true; config := Some only; conflicts := [];
                   errors := []; warnings := [];
                   stats := setTotal (length (JSObject.keys (mcpServers only)))
                                     zeroStats |})
  | first :: rest =>
      let finalResult :=
        {| success := true; config := Some first; conflicts := [];
           errors := []; warnings := []; stats := zeroStats |} in
      let* st := multiLoop options rest (first, finalResult) in
      let '(result, finalResult) := st in
      cret (inr {| success := success finalResult; config := Some result;
                   conflicts := conflicts finalResult;
                   errors := errors finalResult;
                   warnings := warnings finalResult;
                   stats := stats finalResult |})
  end.

(** *** detectConflicts *)

Fixpoint detectLoop (entries : list (string * MCPServiceConfig))
    (targetServices : list (string * MCPServiceConfig))
    (conflicts : list ConfigConflict) : Clocked (list ConfigConflict) :=
  match entries with
  | [] => cret conflicts
  | (serviceName, sourceService) :: rest =>
      match JSObject.lookup serviceName targetServices with
      | Some targetService =>
          let* conflict :=
            detectServiceConflict serviceName sourceService targetService in
          match conflict with
          | Some c => detectLoop rest targetServices (conflicts ++ [c])%list
          | None => detectLoop rest targetServices conflicts
          end
      | None => detectLoop rest targetServices conflicts
      end
  end.

Definition detectConflicts (sourceConfig targetConfig : MCPConfig)
  : Clocked (list ConfigConflict) :=
  detectLoop (JSObject.entries (mcpServers sourceConfig))
             (mcpServers targetConfig) [].
End Merger.

(** *** analyzeDifferences *)

Record Differences := mkDifferences {
  onlyInFirst : list string;
  onlyInSecond : list string;
  different : list string;
  identical : list string
}.

(** The loop over [common].  A name of [common] is an own key of both
    objects, and [config.mcpServers![serviceName]] reads the own property;
    [None] stands for the other names, which [analyzeDifferences] never
    passes. *)
Fixpoint classifyCommon (common : list string)
    (servers1 servers2 : list (string * MCPServiceConfig))
    (different identical : list string) : option (list string * list string) :=
  match common with
  | [] => Some (different, identical)
  | serviceName :: rest =>
      match JSObject.get serviceName servers1, JSObject.get serviceName servers2 with
      | Some service1, Some service2 =>
          if areServicesEqual service1 service2
          then classifyCommon rest servers1 servers2
                 different (identical ++ [serviceName])
          else classifyCommon rest servers1 servers2
                 (different ++ [serviceName]) identical
      | _, _ => None
      end
  end.

Definition analyzeDifferences (config1 config2 : MCPConfig) : option Differences :=
  let services1 := JSObject.keys (mcpServers config1) in
  let services2 := JSObject.keys (mcpServers config2) in
  let onlyInFirst :=
    List.filter (fun name => negb (JSObject.includes name services2)) services1 in
  let onlyInSecond :=
    List.filter (fun name => negb (JSObject.includes name services1)) services2 in
  let common :=
    List.filter (fun name => JSObject.includes name services2) services1 in
  match classifyCommon common (mcpServers config1) (mcpServers config2) [] [] with
  | Some (different, identical) =>
      Some {| onlyInFirst := onlyInFirst; onlyInSecond := onlyInSecond;
              different := different; identical := identical |}
  | None => None
  end.

(** ** Notions the statements use *)

(** Two descriptors agree when the four compared properties are the same
    (an absent property is the same as an absent one only). *)
Definition agree (service1 service2 : MCPServiceConfig) : Prop :=
  command service1 = command service2
  ∧ args service1 = args service2
  ∧ env service1 = env service2
  ∧ disabled service1 = disabled service2.

(** The equality of argument lists as the specification words it: both
    absent or empty, or both present with the same length and the same
    element at every position. *)
Definition argsEqualSpec (a b : option (list string)) : Prop :=
  (default [] a = [] ∧ default [] b = [])
  ∨ (∃ l1 l2, a = Some l1 ∧ b = Some l2 ∧ length l1 = length l2
              ∧ ∀ i, l1 !! i = l2 !! i).

(** *** Version strings on the dotted-numeric convention *)

Fixpoint digitsValue (s : string) (acc : N) : N :=
  match s with
  | EmptyString => acc
  | String c rest => digitsValue rest (10 * acc + (N_of_ascii c - 48))%N
  end.

(** The non-negative integer a string of decimal digits denotes. *)
Definition decimalValue (s : string) : N := digitsValue s 0.

(** A finite number of integral value. *)
Definition numOfN (n : N) : jsnum := JFin (inject_Z (Z.of_N n)).

(** What the proofs assume of the runtime's [Number]: a non-empty string of
    decimal digits whose value a double holds exactly converts to that
    value. *)
Definition NumberOnDecimals (Number : string → jsnum) : Prop :=
  ∀ s, isDigits s = true → (decimalValue s < 2 ^ 53)%N →
       Number s = numOfN (decimalValue s).

(** An instance of [Number] on decimal strings; the empty string converts to
    [0], and any other string is taken to convert to [NaN]. *)
Definition decimalNumber (s : string) : jsnum :=
  match s with
  | EmptyString => JFin 0
  | String _ _ => if allDigits s then numOfN (decimalValue s) else JNaN
  end.

(** A version string all of whose segments are decimal integers. *)
Definition dottedNumeric (v : string) : Prop :=
  Forall (λ s, isDigits s = true ∧ (decimalValue s < 2 ^ 53)%N) (split "." v).

(** The segments of a version string as integers. *)
Definition segments (v : string) : list N := map decimalValue (split "." v).

(** Segment [i], a missing trailing segment being [0]. *)
Definition seg (l : list N) (i : nat) : N := nth i l 0%N.

(** *** The iteration that handles one service *)

(** The state of the loop of [mergeConfigs] once the entries [pre] of the
    source have been handled, with the number of clock readings made. *)
Definition loopStateAfter (clock : nat → Z) (Number : string → jsnum)
    (source target : MCPConfig) (options : MergeOptions)
    (pre : list (string * MCPServiceConfig)) : Clocked (MCPConfig * MergeResult) :=
  fun n =>
    let (st0, n0) := mergeStart clock Number source target options n in
    mergeLoop clock options pre st0 n0.

(** What the iterations for the services [names] do, whatever the cases
    they take: they write at most the entries of those services, append to
    the conflicts only conflicts of those services, each counted, and
    increment one counter for each service. *)
Record loopFrame (options : MergeOptions) (names : list string)
    (st st' : MCPConfig * MergeResult) : Prop := {
  frame_servers : ∀ k, k ∉ names →
    JSObject.get k (mcpServers (fst st')) = JSObject.get k (mcpServers (fst st));
  frame_version : version (fst st') = version (fst st);
  frame_metadata : metadata (fst st') = metadata (fst st);
  frame_schema : schema (fst st') = schema (fst st);
  frame_errors : errors (snd st') = errors (snd st);
  frame_total : totalServices (stats (snd st')) = totalServices (stats (snd st));
  frame_count :
    addedServices (stats (snd st')) + updatedServices (stats (snd st'))
    + skippedServices (stats (snd st')) + conflictServices (stats (snd st'))
    = length names
      + (addedServices (stats (snd st)) + updatedServices (stats (snd st))
         + skippedServices (stats (snd st)) + conflictServices (stats (snd st)));
  frame_conflicts : ∃ new,
    conflicts (snd st') = conflicts (snd st) ++ new
    ∧ Forall (λ c, serviceName c ∈ names) new
    ∧ conflictServices (stats (snd st'))
      = conflictServices (stats (snd st)) + length new
    ∧ (strategy options = PROMPT ∨ new = []);
  frame_warnings : ∃ new, warnings (snd st') = warnings (snd st) ++ new
}.

(** *** What a self-merge writes *)

(** A metadata object with [lastModified] set to a reading of the clock. *)
Definition touch (now : Z) (m : gmap string metaval) : gmap string metaval :=
  <["lastModified" := MNum now]> m.

Definition withSvcMetadata (m : option (gmap string metaval))
    (s : MCPServiceConfig) : MCPServiceConfig :=
  {| command := command s; args := args s; env := env s;
     disabled := disabled s; cwd := cwd s; timeout := timeout s;
     svc_metadata := m |}.

Section Touch.
Variable clock : nat → Z.

(** A descriptor whose metadata, when it has any, are touched with the
    next reading of the clock. *)
Definition touchService (s : MCPServiceConfig) : Clocked MCPServiceConfig :=
  fun n =>
    match svc_metadata s with
    | Some m => (withSvcMetadata (Some (touch (clock n) m)) s, S n)
    | None => (s, n)
    end.

Fixpoint touchServices (l : list (string * MCPServiceConfig))
  : Clocked (list (string * MCPServiceConfig)) :=
  fun n =>
    match l with
    | [] => ([], n)
    | (name, s) :: rest =>
        let (s', n') := touchService s n in
        let (rest', n'') := touchServices rest n' in
        ((name, s') :: rest', n'')
    end.

(** A record whose metadata objects, of the record and then of each
    service in order, are touched with successive readings of the
    clock. *)
Definition touchRecord (R : MCPConfig) (n : nat) : MCPConfig :=
  match metadata R with
  | Some m =>
      {| mcpServers := fst (touchServices (mcpServers R) (S n));
         version := version R;
         metadata := Some (touch (clock n) m);
         schema := schema R |}
  | None =>
      {| mcpServers := fst (touchServices (mcpServers R) n);
         version := version R; metadata := None; schema := schema R |}
  end.

(** The descriptors a self-merge writes, in order. *)
Definition selfServices (pm : bool) (l : list (string * MCPServiceConfig))
  : Clocked (list (string * MCPServiceConfig)) :=
  fun n => if pm then touchServices l n else (l, n).
End Touch.

(** *** Concrete records and a concrete clock *)

(** A clock that starts in November 2023 and advances by a millisecond at
    each reading. *)
Definition sampleClock (n : nat) : Z := (1700000000000 + Z.of_nat n)%Z.

Definition plainService (cmd : string) (arguments : list string)
  : MCPServiceConfig :=
  {| command := cmd; args := Some arguments; env := None; disabled := None;
     cwd := None; timeout := None; svc_metadata := None |}.

Definition plainOptions (s : MergeStrategy) : MergeOptions :=
  {| strategy := s; preserveMetadata := false; createBackup := false;
     validateResult := false; conflictResolution := None |}.

(** The target of scenarios B to D of the specification, and a source that
    disagrees on [fs] and brings a new service [git]. *)
Definition sampleTarget : MCPConfig :=
  {| mcpServers := [("fs", plainService "node" ["a"])];
     version := Some "1.2.0"; metadata := None; schema := None |}.

Definition sampleSource : MCPConfig :=
  {| mcpServers := [("fs", plainService "node" ["b"]);
                    ("git", plainService "uvx" ["mcp-server-git"])];
     version := Some "1.10.0"; metadata := None; schema := None |}.

(** A target without services, and a source whose one service has a name
    that every object inherits from [Object.prototype]. *)
Definition emptyTarget : MCPConfig :=
  {| mcpServers := []; version := None; metadata := None; schema := None |}.

Definition shadowedSource : MCPConfig :=
  {| mcpServers := [("constructor", plainService "node" ["a"])];
     version := None; metadata := None; schema := None |}.

(** A record with metadata last modified at the start of the epoch. *)
Definition stampedRecord : MCPConfig :=
  {| mcpServers := [("fs", plainService "node" ["a"])];
     version := Some "1.0.0";
     metadata := Some {[ "createdBy" := MStr "me"; "lastModified" := MNum 1 ]};
     schema := None |}.

Definition keepMetadata : MergeOptions :=
  {| strategy := MERGE; preserveMetadata := true; createBackup := false;
     validateResult := false; conflictResolution := None |}.

(** ** The merger on a store of objects

    The embedding above passes records by value.  To state what the
    operations do to the objects they are given, the same functions are
    written here on a store: a record, its services object, a descriptor
    and the array, the environment and the metadata objects a descriptor
    refers to are cells of a heap, and a property that holds an object
    holds its location.  [{ ...o }] allocates a cell and copies the
    properties of [o], locations included; an assignment to a property
    stores into the cell of the object.  The result object of a merge, its
    arrays and the conflict objects are created by the call and never
    escape before it returns; they are values that hold the locations of
    the descriptors and of the merged record. *)

(** A location is the index of a cell of the store. *)
Abbreviation loc := nat.

Record ServiceObj := mkServiceObj {
  o_command : string;
  o_args : option loc;
  o_env : option loc;
  o_disabled : option bool;
  o_cwd : option string;
  o_timeout : option Z;
  o_metadata : option loc
}.

Record ConfigObj := mkConfigObj {
  o_mcpServers : loc;
  o_version : option string;
  o_cfgMetadata : option loc;
  o_schema : option string
}.

Inductive cell :=
| CConfig (c : ConfigObj)
| CServers (entries : list (string * loc))
| CService (s : ServiceObj)
| CArray (items : list string)
| CEnv (vars : gmap string string)
| CMeta (m : gmap string metaval).

Record Conflict := mkHConflict {
  c_id : string;
  c_serviceName : string;
  c_type : string;
  c_sourceConfig : loc;
  c_targetConfig : JSObject.member loc;
  c_description : string;
  c_path : string;
  c_values : loc * JSObject.member loc
}.

Record ServiceMerge := mkHServiceMerge {
  r_action : Action;
  r_config : option loc;
  r_conflict : option Conflict;
  r_warnings : option (list string)
}.

Record Result := mkHResult {
  h_success : bool;
  h_config : option loc;
  h_conflicts : list Conflict;
  h_errors : list string;
  h_warnings : list string;
  h_stats : MergeStats
}.

(** *** Reading a value out of the store *)

Definition loadArray (h : list cell) (l : loc) : option (list string) :=
  match h !! l with
  | Some (CArray items) => Some items
  | _ => None
  end.

Definition loadEnv (h : list cell) (l : loc) : option (gmap string string) :=
  match h !! l with
  | Some (CEnv vars) => Some vars
  | _ => None
  end.

Definition loadMeta (h : list cell) (l : loc) : option (gmap string metaval) :=
  match h !! l with
  | Some (CMeta m) => Some m
  | _ => None
  end.

(** An optional property that holds an object: [Some None] when it is
    absent, [None] when its location does not hold such an object. *)
Definition loadOpt {K A} (load : list cell → K → option A)
    (h : list cell) (l : option K) : option (option A) :=
  match l with
  | None => Some None
  | Some l' =>
      match load h l' with
      | Some v => Some (Some v)
      | None => None
      end
  end.

Definition loadService (h : list cell) (l : loc) : option MCPServiceConfig :=
  match h !! l with
  | Some (CService s) =>
      match loadOpt loadArray h (o_args s), loadOpt loadEnv h (o_env s),
            loadOpt loadMeta h (o_metadata s) with
      | Some a, Some e, Some m =>
          Some {| command := o_command s; args := a; env := e;
                  disabled := o_disabled s; cwd := o_cwd s;
                  timeout := o_timeout s; svc_metadata := m |}
      | _, _, _ => None
      end
  | _ => None
  end.

Fixpoint loadEntries (h : list cell) (entries : list (string * loc))
  : option (list (string * MCPServiceConfig)) :=
  match entries with
  | [] => Some []
  | (name, l) :: rest =>
      match loadService h l, loadEntries h rest with
      | Some s, Some rest' => Some ((name, s) :: rest')
      | _, _ => None
      end
  end.

Definition loadServers (h : list cell) (l : loc)
  : option (list (string * MCPServiceConfig)) :=
  match h !! l with
  | Some (CServers entries) => loadEntries h entries
  | _ => None
  end.

Definition loadConfig (h : list cell) (l : loc) : option MCPConfig :=
  match h !! l with
  | Some (CConfig c) =>
      match loadServers h (o_mcpServers c),
            loadOpt loadMeta h (o_cfgMetadata c) with
      | Some servers, Some m =>
          Some {| mcpServers := servers; version := o_version c;
                  metadata := m; schema := o_schema c |}
      | _, _ => None
      end
  | _ => None
  end.

(** What a lookup in a services object returned: a descriptor of the
    store, or a member of [Object.prototype], which is no object of the
    store. *)
Definition loadMember (h : list cell) (m : JSObject.member loc)
  : option (JSObject.member MCPServiceConfig) :=
  match m with
  | Own l =>
      match loadService h l with
      | Some s => Some (Own s)
      | None => None
      end
  | Inherited k => Some (Inherited k)
  end.

Definition loadConflict (h : list cell) (c : Conflict) : option ConfigConflict :=
  match loadService h (c_sourceConfig c), loadMember h (c_targetConfig c),
        loadService h (fst (c_values c)), loadMember h (snd (c_values c)) with
  | Some s, Some t, Some vs, Some vt =>
      Some {| id := c_id c; serviceName := c_serviceName c; type := c_type c;
              sourceConfig := s; targetConfig := t;
              description := c_description c; path := c_path c;
              values := (vs, vt) |}
  | _, _, _, _ => None
  end.

Fixpoint loadConflicts (h : list cell) (cs : list Conflict)
  : option (list ConfigConflict) :=
  match cs with
  | [] => Some []
  | c :: rest =>
      match loadConflict h c, loadConflicts h rest with
      | Some c', Some rest' => Some (c' :: rest')
      | _, _ => None
      end
  end.

Definition loadServiceMerge (h : list cell) (r : ServiceMerge)
  : option ServiceMergeResult :=
  match loadOpt loadService h (r_config r),
        loadOpt loadConflict h (r_conflict r) with
  | Some c, Some k =>
      Some {| sm_action := r_action r; sm_config := c; sm_conflict := k;
              sm_warnings := r_warnings r |}
  | _, _ => None
  end.

Definition loadResult (h : list cell) (r : Result) : option MergeResult :=
  match loadOpt loadConfig h (h_config r), loadConflicts h (h_conflicts r) with
  | Some c, Some cs =>
      Some {| success := h_success r; config := c; conflicts := cs;
              errors := h_errors r; warnings := h_warnings r;
              stats := h_stats r |}
  | _, _ => None
  end.

(** The objects of a record: the record, its services object, its metadata
    object, its descriptors and the objects they refer to. *)
Definition serviceLocs (h : list cell) (l : loc) : list loc :=
  l :: match h !! l with
       | Some (CService s) =>
           option_list (o_args s) ++ option_list (o_env s)
           ++ option_list (o_metadata s)
       | _ => []
       end.

Definition configLocs (h : list cell) (l : loc) : list loc :=
  l :: match h !! l with
       | Some (CConfig c) =>
           o_mcpServers c :: option_list (o_cfgMetadata c)
           ++ match h !! o_mcpServers c with
              | Some (CServers entries) =>
                  concat (map (λ e, serviceLocs h (snd e)) entries)
              | _ => []
              end
       | _ => []
       end.

(** *** Computations on the store *)

(** From the store and the number of clock readings made to a result with
    the store and the number after it; [None] when a location does not
    hold an object of the kind that is read or written there. *)
Definition Run (A : Type) : Type :=
  list cell → nat → option (A * list cell * nat).

Definition ret {A} (a : A) : Run A := fun h n => Some (a, h, n).

Definition bind {A B} (m : Run A) (f : A → Run B) : Run B :=
  fun h n =>
    match m h n with
    | Some (a, h', n') => f a h' n'
    | None => None
    end.

Definition fail {A} : Run A := fun _ _ => None.

Notation "'let!' x ':=' m 'in' k" := (bind m (fun x => k))
  (at level 10, x name, m at level 100, k at level 200, only parsing).

Notation "m ';;;' k" := (bind m (fun _ => k))
  (at level 100, k at level 200, right associativity, only parsing).

(** A new object. *)
Definition alloc (c : cell) : Run loc :=
  fun h n => Some (length h, h ++ [c], n).

Definition read (l : loc) : Run cell :=
  fun h n =>
    match h !! l with
    | Some c => Some (c, h, n)
    | None => None
    end.

(** An assignment to properties of the object at [l]. *)
Definition store (l : loc) (c : cell) : Run unit :=
  fun h n => if decide (l < length h) then Some (tt, <[l := c]> h, n) else None.

Definition readConfig (l : loc) : Run ConfigObj :=
  let! c := read l in
  match c with CConfig o => ret o | _ => fail end.

Definition readServers (l : loc) : Run (list (string * loc)) :=
  let! c := read l in
  match c with CServers entries => ret entries | _ => fail end.

Definition readService (l : loc) : Run ServiceObj :=
  let! c := read l in
  match c with CService o => ret o | _ => fail end.

(** [{ ...o }] of an environment or a metadata object that may be
    [undefined]: its properties. *)
Definition readEnvOpt (l : option loc) : Run (gmap string string) :=
  match l with
  | None => ret ∅
  | Some l' =>
      let! c := read l' in
      match c with CEnv vars => ret vars | _ => fail end
  end.

Definition readMetaOpt (l : option loc) : Run (gmap string metaval) :=
  match l with
  | None => ret ∅
  | Some l' =>
      let! c := read l' in
      match c with CMeta m => ret m | _ => fail end
  end.

(** Reading a descriptor, or a record, with the objects it refers to. *)
Definition deepService (l : loc) : Run MCPServiceConfig :=
  fun h n =>
    match loadService h l with
    | Some s => Some (s, h, n)
    | None => None
    end.

Definition deepMember (m : JSObject.member loc)
  : Run (JSObject.member MCPServiceConfig) :=
  fun h n =>
    match loadMember h m with
    | Some t => Some (t, h, n)
    | None => None
    end.

(** The properties of what a lookup returned. *)
Definition readMember (m : JSObject.member loc)
  : Run (JSObject.member ServiceObj) :=
  match m with
  | Own l => let! o := readService l in ret (Own o)
  | Inherited k => ret (Inherited k)
  end.

Definition deepConfig (l : loc) : Run MCPConfig :=
  fun h n =>
    match loadConfig h l with
    | Some c => Some (c, h, n)
    | None => None
    end.

(** The functions of the merger on the store, under the names the source
    gives them. *)
Module Heap.

Section Merger.
Variable clock : nat → Z.
Variable Number : string → jsnum.

Definition Date_now : Run Z := fun h n => Some (clock n, h, S n).

(** The detector reads [command], [args], [env] and [disabled] of the two
    descriptors; the conflict holds the two descriptors themselves. *)
Definition detectServiceConflict (serviceName : string)
    (sourceService : loc) (targetService : JSObject.member loc)
  : Run (option Conflict) :=
  let! s := deepService sourceService in
  let! t := deepMember targetService in
  let conflicts := conflictingFields s t in
  if (length conflicts =? 0)%nat then ret None
  else
    let! now := Date_now in
    ret (Some {|
      c_id := "conflict_" +:+ serviceName +:+ "_" +:+ pretty now;
      c_serviceName := serviceName;
      c_type := "different-config";
      c_sourceConfig := sourceService;
      c_targetConfig := targetService;
      c_description :=
        "服务 " +:+ quoted serviceName +:+ " 在以下字段存在冲突: "
        +:+ String.concat ", " conflicts;
      c_path := EmptyString;
      c_values := (sourceService, targetService)
    |}).

Definition mergeMetadata (sourceMeta targetMeta : option loc)
  : Run (option loc) :=
  match sourceMeta, targetMeta with
  | None, None => ret None
  | _, _ =>
      let! t := readMetaOpt targetMeta in
      let! s := readMetaOpt sourceMeta in
      let! now := Date_now in
      let! l := alloc (CMeta (<["lastModified" := MNum now]> (s ∪ t))) in
      ret (Some l)
  end.

Definition withEnv (e : option loc) (s : ServiceObj) : ServiceObj :=
  {| o_command := o_command s; o_args := o_args s; o_env := e;
     o_disabled := o_disabled s; o_cwd := o_cwd s; o_timeout := o_timeout s;
     o_metadata := o_metadata s |}.

Definition withMeta (m : option loc) (s : ServiceObj) : ServiceObj :=
  {| o_command := o_command s; o_args := o_args s; o_env := o_env s;
     o_disabled := o_disabled s; o_cwd := o_cwd s; o_timeout := o_timeout s;
     o_metadata := m |}.

(** [if (sourceService.env || targetService.env) { merged.env = ... }] *)
Definition assignEnv (merged : loc) (s : ServiceObj)
    (t : JSObject.member ServiceObj) : Run unit :=
  if present (o_env s) || present (JSObject.field o_env t) then
    let! te := readEnvOpt (JSObject.field o_env t) in
    let! se := readEnvOpt (o_env s) in
    let! e := alloc (CEnv (se ∪ te)) in
    let! m := readService merged in
    store merged (CService (withEnv (Some e) m))
  else ret tt.

(** [if (preserveMetadata) { merged.metadata = ... }] *)
Definition assignMetadata (merged : loc) (s : ServiceObj)
    (t : JSObject.member ServiceObj) (preserveMetadata : bool) : Run unit :=
  if preserveMetadata then
    let! meta := mergeMetadata (o_metadata s) (JSObject.field o_metadata t) in
    let! m := readService merged in
    store merged (CService (withMeta meta m))
  else ret tt.

Definition mergeServiceConfigs (sourceService : loc)
    (targetService : JSObject.member loc) (preserveMetadata : bool) : Run loc :=
  let! t := readMember targetService in
  let! s := readService sourceService in
  let! merged := alloc (CService {|
    o_command := o_command s;
    o_args := spreadOver (JSObject.field o_args t) (o_args s);
    o_env := spreadOver (JSObject.field o_env t) (o_env s);
    o_disabled := spreadOver (JSObject.field o_disabled t) (o_disabled s);
    o_cwd := spreadOver (JSObject.field o_cwd t) (o_cwd s);
    o_timeout := spreadOver (JSObject.field o_timeout t) (o_timeout s);
    o_metadata := spreadOver (JSObject.field o_metadata t) (o_metadata s)
  |}) in
  assignEnv merged s t ;;;
  assignMetadata merged s t preserveMetadata ;;;
  ret merged.

(** [{ ...sourceService }] *)
Definition copyService (sourceService : loc) : Run loc :=
  let! s := readService sourceService in
  alloc (CService s).

Definition mergeService (serviceName : string) (sourceService : loc)
    (targetService : option (JSObject.member loc)) (options : MergeOptions)
  : Run ServiceMerge :=
  match targetService with
  | None =>
      let! c := copyService sourceService in
      ret {| r_action := add; r_config := Some c;
             r_conflict := None; r_warnings := None |}
  | Some targetService =>
      let! conflict :=
        detectServiceConflict serviceName sourceService targetService in
      match conflict with
      | None =>
          let! merged := mergeServiceConfigs sourceService targetService
                           (preserveMetadata options) in
          ret {| r_action := update; r_config := Some merged;
                 r_conflict := None; r_warnings := None |}
      | Some conflict =>
          match strategy options with
          | OVERWRITE =>
              let! c := copyService sourceService in
              ret {| r_action := update; r_config := Some c;
                     r_conflict := None;
                     r_warnings :=
                       Some ["服务 " +:+ quoted serviceName +:+ " 已被覆盖"] |}
          | SKIP =>
              ret {| r_action := skip; r_config := None;
                     r_conflict := None;
                     r_warnings :=
                       Some ["跳过冲突的服务 " +:+ quoted serviceName] |}
          | MERGE =>
              let! merged := mergeServiceConfigs sourceService targetService
                               (preserveMetadata options) in
              ret {| r_action := update; r_config := Some merged;
                     r_conflict := None;
                     r_warnings :=
                       Some ["强制合并服务 " +:+ quoted serviceName
                             +:+ "，可能存在配置冲突"] |}
          | PROMPT =>
              ret {| r_action := skip; r_config := None;
                     r_conflict := Some conflict; r_warnings := None |}
          end
      end
  end.

Definition withHStats (s : MergeStats) (r : Result) : Result :=
  {| h_success := h_success r; h_config := h_config r;
     h_conflicts := h_conflicts r; h_errors := h_errors r;
     h_warnings := h_warnings r; h_stats := s |}.

Definition pushHConflict (c : Conflict) (r : Result) : Result :=
  {| h_success := h_success r; h_config := h_config r;
     h_conflicts := h_conflicts r ++ [c]; h_errors := h_errors r;
     h_warnings := h_warnings r; h_stats := h_stats r |}.

Definition pushHWarnings (ws : list string) (r : Result) : Result :=
  {| h_success := h_success r; h_config := h_config r;
     h_conflicts := h_conflicts r; h_errors := h_errors r;
     h_warnings := h_warnings r ++ ws; h_stats := h_stats r |}.

Definition pushHErrors (es : list string) (r : Result) : Result :=
  {| h_success := h_success r; h_config := h_config r;
     h_conflicts := h_conflicts r; h_errors := h_errors r ++ es;
     h_warnings := h_warnings r; h_stats := h_stats r |}.

(** [mergedConfig.mcpServers[serviceName] = mergeServiceResult.config!] *)
Definition assignService (serviceName : string) (c : option loc)
    (mergedConfig : loc) : Run unit :=
  match c with
  | Some c' =>
      let! cfg := readConfig mergedConfig in
      let! entries := readServers (o_mcpServers cfg) in
      store (o_mcpServers cfg)
        (CServers (JSObject.assign serviceName c' entries))
  | None => ret tt
  end.

(** One iteration of the loop of [mergeConfigs]; [mergedConfig] is the
    location of the record under construction. *)
Definition mergeStep (options : MergeOptions) (mergedConfig : loc)
    (result : Result) (entry : string * loc) : Run Result :=
  let '(serviceName, serviceConfig) := entry in
  let! cfg := readConfig mergedConfig in
  let! entries := readServers (o_mcpServers cfg) in
  let! mergeServiceResult :=
    mergeService serviceName serviceConfig
      (JSObject.lookup serviceName entries) options in
  let! result :=
    match r_conflict mergeServiceResult with
    | Some conflict =>
        ret (withHStats (incConflict (h_stats result))
               (pushHConflict conflict result))
    | None =>
        match r_action mergeServiceResult with
        | add =>
            assignService serviceName (r_config mergeServiceResult)
              mergedConfig ;;;
            ret (withHStats (incAdded (h_stats result)) result)
        | update =>
            assignService serviceName (r_config mergeServiceResult)
              mergedConfig ;;;
            ret (withHStats (incUpdated (h_stats result)) result)
        | skip =>
            ret (withHStats (incSkipped (h_stats result)) result)
        end
    end in
  ret match r_warnings mergeServiceResult with
      | Some ws => pushHWarnings ws result
      | None => result
      end.

Fixpoint mergeLoop (options : MergeOptions) (mergedConfig : loc)
    (entries : list (string * loc)) (result : Result) : Run Result :=
  match entries with
  | [] => ret result
  | entry :: rest =>
      let! result' := mergeStep options mergedConfig result entry in
      mergeLoop options mergedConfig rest result'
  end.

Definition emptyHResult : Result :=
  {| h_success := false; h_config := None; h_conflicts := [];
     h_errors := []; h_warnings := []; h_stats := zeroStats |}.

(** [{ ...targetConfig, mcpServers: { ...targetConfig.mcpServers } }]: the
    new record first has the properties of the target, then its
    [mcpServers] is set to the new services object. *)
Definition mergeStart (sourceConfig targetConfig : loc)
    (options : MergeOptions) : Run (loc * Result) :=
  let! t := readConfig targetConfig in
  let! mergedConfig := alloc (CConfig t) in
  let! targetServers := readServers (o_mcpServers t) in
  let! servers := alloc (CServers (JSObject.copy targetServers)) in
  store mergedConfig (CConfig {|
    o_mcpServers := servers; o_version := o_version t;
    o_cfgMetadata := o_cfgMetadata t; o_schema := o_schema t |}) ;;;
  let! s := readConfig sourceConfig in
  (if adoptsSourceVersion Number (o_version s) (o_version t) then
     let! m := readConfig mergedConfig in
     store mergedConfig (CConfig {|
       o_mcpServers := o_mcpServers m; o_version := o_version s;
       o_cfgMetadata := o_cfgMetadata m; o_schema := o_schema m |})
   else ret tt) ;;;
  (if preserveMetadata options then
     let! meta := mergeMetadata (o_cfgMetadata s) (o_cfgMetadata t) in
     let! m := readConfig mergedConfig in
     store mergedConfig (CConfig {|
       o_mcpServers := o_mcpServers m; o_version := o_version m;
       o_cfgMetadata := meta; o_schema := o_schema m |})
   else ret tt) ;;;
  let! sourceServices := readServers (o_mcpServers s) in
  ret (mergedConfig,
       withHStats (setTotal (length (JSObject.keys sourceServices)) zeroStats)
         emptyHResult).

Definition mergeFinish (options : MergeOptions) (mergedConfig : loc)
    (result : Result) : Run Result :=
  let! result :=
    if validateResult options then
      let! c := deepConfig mergedConfig in
      let validation := validateConfig c in
      let result :=
        if negb (isValid validation)
        then pushHErrors (map message (v_errors validation)) result
        else result in
      ret (pushHWarnings (map message (v_warnings validation)) result)
    else ret result in
  ret {| h_success := (length (h_errors result) =? 0)%nat;
         h_config := Some mergedConfig;
         h_conflicts := h_conflicts result; h_errors := h_errors result;
         h_warnings := h_warnings result; h_stats := h_stats result |}.

Definition mergeConfigs (sourceConfig targetConfig : loc)
    (options : MergeOptions) : Run Result :=
  let! st0 := mergeStart sourceConfig targetConfig options in
  let! s := readConfig sourceConfig in
  let! sourceServices := readServers (o_mcpServers s) in
  let! result :=
    mergeLoop options (fst st0) (JSObject.entries sourceServices) (snd st0) in
  mergeFinish options (fst st0) result.

(** One iteration of the loop of [mergeMultipleConfigs]. *)
Definition multiStep (options : MergeOptions) (st : loc * Result) (next : loc)
  : Run (loc * Result) :=
  let '(result, finalResult) := st in
  let! mergeResult := mergeConfigs next result options in
  let finalResult :=
    if negb (h_success mergeResult) then
      {| h_success := false; h_config := h_config finalResult;
         h_conflicts := h_conflicts finalResult;
         h_errors := h_errors finalResult ++ h_errors mergeResult;
         h_warnings := h_warnings finalResult; h_stats := h_stats finalResult |}
    else finalResult in
  let finalResult :=
    {| h_success := h_success finalResult; h_config := h_config finalResult;
       h_conflicts := h_conflicts finalResult ++ h_conflicts mergeResult;
       h_errors := h_errors finalResult;
       h_warnings := h_warnings finalResult ++ h_warnings mergeResult;
       h_stats := addStats (h_stats finalResult) (h_stats mergeResult) |} in
  let result :=
    match h_config mergeResult with
    | Some c => c
    | None => result
    end in
  ret (result, finalResult).

Fixpoint multiLoop (options : MergeOptions) (rest : list loc)
    (st : loc * Result) : Run (loc * Result) :=
  match rest with
  | [] => ret st
  | next :: rest' =>
      let! st' := multiStep options st next in
      multiLoop options rest' st'
  end.

Definition mergeMultipleConfigs (configs : list loc) (options : MergeOptions)
  : Run (string + Result) :=
  match configs with
  | [] => ret (inl "至少需要一个配置文件")
  | [only] =>
      let! c := readConfig only in
      let! servers := readServers (o_mcpServers c) in
      ret (inr {| h_success := true; h_config := Some only;
                  h_conflicts := []; h_errors := []; h_warnings := [];
                  h_stats := setTotal (length (JSObject.keys servers))
                                      zeroStats |})
  | first :: rest =>
      let finalResult :=
        {| h_success := true; h_config := Some first; h_conflicts := [];
           h_errors := []; h_warnings := []; h_stats := zeroStats |} in
      let! st := multiLoop options rest (first, finalResult) in
      ret (inr {| h_success := h_success (snd st);
                  h_config := Some (fst st);
                  h_conflicts := h_conflicts (snd st);
                  h_errors := h_errors (snd st);
                  h_warnings := h_warnings (snd st);
                  h_stats := h_stats (snd st) |})
  end.

(** The loop of [detectConflicts]: it reads the two services objects and
    the descriptors. *)
Fixpoint detectLoop (entries targetServices : list (string * loc))
    (conflicts : list Conflict) : Run (list Conflict) :=
  match entries with
  | [] => ret conflicts
  | (serviceName, sourceService) :: rest =>
      match JSObject.lookup serviceName targetServices with
      | Some targetService =>
          let! conflict :=
            detectServiceConflict serviceName sourceService targetService in
          match conflict with
          | Some c => detectLoop rest targetServices (conflicts ++ [c])
          | None => detectLoop rest targetServices conflicts
          end
      | None => detectLoop rest targetServices conflicts
      end
  end.

Definition detectConflicts (sourceConfig targetConfig : loc)
  : Run (list Conflict) :=
  let! s := readConfig sourceConfig in
  let! sourceServices := readServers (o_mcpServers s) in
  let! t := readConfig targetConfig in
  let! targetServices := readServers (o_mcpServers t) in
  detectLoop (JSObject.entries sourceServices) targetServices [].
End Merger.

(** [analyzeDifferences] reads the two records and returns arrays of
    names; [None] inside is the [TypeError] of the value model. *)
Definition analyzeDifferences (config1 config2 : loc)
  : Run (option Differences) :=
  let! c1 := deepConfig config1 in
  let! c2 := deepConfig config2 in
  ret (analyzeDifferences c1 c2).

End Heap.
(** ** The store *)

(** Every object of [h] is in [h'] as it was. *)
Definition stable (h h' : list cell) : Prop :=
  length h ≤ length h' ∧ ∀ l, l < length h → h' !! l = h !! l.

(** Every object of [h] other than the one at [sl] is in [h'] as it was. *)
Definition stableExcept (sl : loc) (h h' : list cell) : Prop :=
  length h ≤ length h' ∧ ∀ l, l < length h → l ≠ sl → h' !! l = h !! l.

(** Every object of [h] that is not a services object is in [h'] as it
    was: what the descriptors and the conflicts of [h] refer to. *)
Definition preserves (h h' : list cell) : Prop :=
  ∀ l c, h !! l = Some c → (∀ entries, c ≠ CServers entries) → h' !! l = Some c.

(** The state of the loop on the store and on values: the record under
    construction is at [mergedConfig], its services object at [sl]. *)
Record simState (sl : loc) (h : list cell) (mergedConfig : loc)
    (result : Result) (st : MCPConfig * MergeResult) : Prop := {
  sim_servers : ∃ cfg, h !! mergedConfig = Some (CConfig cfg)
                       ∧ o_mcpServers cfg = sl;
  sim_config : loadConfig h mergedConfig = Some (fst st);
  sim_noConfig : h_config result = None;
  sim_result : loadResult h result = Some (snd st)
}.

(** Every object of the record at [c] in [h'] was created after [h]: the
    record is a copy that shares no object with the store [h]. *)
Definition freshCopy (h h' : list cell) (c : loc) : Prop :=
  ∀ l, l ∈ configLocs h' c → length h ≤ l.

(** A store with [sampleTarget] at 3 and [sampleSource] at 9. *)
Definition svcObj (cmd : string) (a : loc) : ServiceObj :=
  {| o_command := cmd; o_args := Some a; o_env := None; o_disabled := None;
     o_cwd := None; o_timeout := None; o_metadata := None |}.

Definition sampleHeap : list cell :=
  [ CArray ["a"];
    CService (svcObj "node" 0);
    CServers [("fs", 1)];
    CConfig {| o_mcpServers := 2; o_version := Some "1.2.0";
               o_cfgMetadata := None; o_schema := None |};
    CArray ["b"];
    CService (svcObj "node" 4);
    CArray ["mcp-server-git"];
    CService (svcObj "uvx" 6);
    CServers [("fs", 5); ("git", 7)];
    CConfig {| o_mcpServers := 8; o_version := Some "1.10.0";
               o_cfgMetadata := None; o_schema := None |} ].

(** ** Notions the statements on the whole loop use *)

(** *** What the loop finds for an entry of the source

    The three cases of [mergeService], read on what [services[name]] gives
    in the target: [undefined], something the descriptor of the source
    agrees with, something it differs from.  A member of
    [Object.prototype] has no [command]: every descriptor differs from
    it. *)
Definition sameAs (s : MCPServiceConfig)
    (t : JSObject.member MCPServiceConfig) : bool :=
  match t with
  | Own t' => areServicesEqual s t'
  | Inherited _ => false
  end.

Definition isNew (targetServices : list (string * MCPServiceConfig))
    (entry : string * MCPServiceConfig) : bool :=
  negb (present (JSObject.lookup (fst entry) targetServices)).

Definition agrees (targetServices : list (string * MCPServiceConfig))
    (entry : string * MCPServiceConfig) : bool :=
  match JSObject.lookup (fst entry) targetServices with
  | Some t => sameAs (snd entry) t
  | None => false
  end.

Definition clashes (targetServices : list (string * MCPServiceConfig))
    (entry : string * MCPServiceConfig) : bool :=
  match JSObject.lookup (fst entry) targetServices with
  | Some t => negb (sameAs (snd entry) t)
  | None => false
  end.

(** *** How [analyzeDifferences] sorts an entry of the first record

    It compares the own keys of the two objects: a name the second record
    lacks is only in the first, whatever [Object.prototype] has. *)
Definition onlyOwn (targetServices : list (string * MCPServiceConfig))
    (entry : string * MCPServiceConfig) : bool :=
  negb (present (JSObject.get (fst entry) targetServices)).

Definition differs (targetServices : list (string * MCPServiceConfig))
    (entry : string * MCPServiceConfig) : bool :=
  match JSObject.get (fst entry) targetServices with
  | Some t => negb (areServicesEqual (snd entry) t)
  | None => false
  end.

(** A name that the object inherits from [Object.prototype]. *)
Definition inherited (name : string) : bool :=
  bool_decide (name ∈ JSObject.prototypeKeys).

#[global] Instance MergeStrategy_eq_dec : EqDecision MergeStrategy.
Proof. solve_decision. Defined.

(** The warning each strategy leaves for a service that differs. *)
Definition clashWarnings (s : MergeStrategy) (name : string) : list string :=
  match s with
  | OVERWRITE => ["服务 " +:+ quoted name +:+ " 已被覆盖"]
  | SKIP => ["跳过冲突的服务 " +:+ quoted name]
  | MERGE => ["强制合并服务 " +:+ quoted name +:+ "，可能存在配置冲突"]
  | PROMPT => []
  end.

(** The strategies that write a service that differs. *)
Definition writesClash (s : MergeStrategy) : bool :=
  match s with
  | OVERWRITE | MERGE => true
  | SKIP | PROMPT => false
  end.

(** The descriptor [v] the merged record holds for a service the source
    has as [s], when [t] is what the lookup of its name gives in the
    target: the source's when the lookup finds nothing; otherwise what
    the assignment of the field-wise merge, or of the source's
    descriptor, leaves under the name, or what the target has. *)
Definition resolved (clock : nat → Z) (options : MergeOptions)
    (s : MCPServiceConfig) (t : option (JSObject.member MCPServiceConfig))
    (v : option MCPServiceConfig) : Prop :=
  match t with
  | None => v = Some s
  | Some t' =>
      if sameAs s t' || bool_decide (strategy options = MERGE) then
        ∃ k, v = JSObject.assigned t'
                   (fst (mergeServiceConfigs clock s t'
                           (preserveMetadata options) k))
      else
        match strategy options with
        | OVERWRITE => v = JSObject.assigned t' s
        | _ => v = JSObject.own t'
        end
  end.

(** A descriptor [v] of the merged record that a second merge of the source
    descriptor [s], without metadata, leaves as it is. *)
Definition settled (clock : nat → Z) (options : MergeOptions)
    (s v : MCPServiceConfig) : Prop :=
  if areServicesEqual s v
  then fst (mergeServiceConfigs clock s (Own v) false 0) = v
  else strategy options = SKIP ∨ strategy options = PROMPT
       ∨ (strategy options = MERGE
          ∧ fst (mergeServiceConfigs clock s (Own v) false 0) = v).

(** What a second merge of the descriptor [s] under [name] leaves as it
    is: a descriptor of the record that is settled, or a name the record
    lacks and [Object.prototype] has, when the strategy leaves what
    differs alone or the name is [__proto__]. *)
Definition fixedAt (clock : nat → Z) (options : MergeOptions)
    (servers : list (string * MCPServiceConfig))
    (name : string) (s : MCPServiceConfig) : Prop :=
  (∃ v, JSObject.get name servers = Some v ∧ settled clock options s v)
  ∨ (JSObject.get name servers = None ∧ name ∈ JSObject.prototypeKeys
     ∧ (name = "__proto__" ∨ strategy options = SKIP
        ∨ strategy options = PROMPT)).

(** A conflict without its identifier, which holds the time. *)
Definition forgetId (c : ConfigConflict)
  : string * string * MCPServiceConfig * JSObject.member MCPServiceConfig
    * string * string
    * (MCPServiceConfig * JSObject.member MCPServiceConfig) :=
  (serviceName c, type c, sourceConfig c, targetConfig c, description c,
   path c, values c).

(** The service a conflict is about, with the descriptor of the source and
    what the lookup gave in the target. *)
Definition conflictParties (c : ConfigConflict)
  : string * MCPServiceConfig * option (JSObject.member MCPServiceConfig) :=
  (serviceName c, sourceConfig c, Some (targetConfig c)).

Definition entryParties (targetServices : list (string * MCPServiceConfig))
    (entry : string * MCPServiceConfig)
  : string * MCPServiceConfig * option (JSObject.member MCPServiceConfig) :=
  (fst entry, snd entry, JSObject.lookup (fst entry) targetServices).

(** A conflict as [detectServiceConflict] builds it, at some reading of the
    clock. *)
Definition detected (clock : nat → Z) (c : ConfigConflict) : Prop :=
  ∃ k, detectServiceConflict clock (serviceName c) (sourceConfig c)
         (targetConfig c) k = (Some c, S k).

(** What the loop of [mergeConfigs] has done once it has handled
    [entries], when the record under construction held for each of them
    what [targetServices] holds. *)
Record loopOutcome (clock : nat → Z) (options : MergeOptions)
    (targetServices entries : list (string * MCPServiceConfig))
    (st st' : MCPConfig * MergeResult) : Prop := {
  out_added :
    addedServices (stats (snd st'))
    = addedServices (stats (snd st))
      + length (List.filter (isNew targetServices) entries);
  out_updated :
    updatedServices (stats (snd st'))
    = updatedServices (stats (snd st))
      + length (List.filter (agrees targetServices) entries)
      + (if writesClash (strategy options)
         then length (List.filter (clashes targetServices) entries) else 0);
  out_skipped :
    skippedServices (stats (snd st'))
    = skippedServices (stats (snd st))
      + (if bool_decide (strategy options = SKIP)
         then length (List.filter (clashes targetServices) entries) else 0);
  out_conflict :
    conflictServices (stats (snd st'))
    = conflictServices (stats (snd st))
      + (if bool_decide (strategy options = PROMPT)
         then length (List.filter (clashes targetServices) entries) else 0);
  out_total : totalServices (stats (snd st')) = totalServices (stats (snd st));
  out_warnings :
    warnings (snd st')
    = warnings (snd st)
      ++ flat_map (λ e, clashWarnings (strategy options) (fst e))
           (List.filter (clashes targetServices) entries);
  out_conflicts : ∃ new,
    conflicts (snd st') = conflicts (snd st) ++ new
    ∧ map conflictParties new
      = (if bool_decide (strategy options = PROMPT)
         then map (entryParties targetServices)
                (List.filter (clashes targetServices) entries)
         else [])
    ∧ Forall (detected clock) new;
  out_errors : errors (snd st') = errors (snd st);
  out_version : version (fst st') = version (fst st);
  out_metadata : metadata (fst st') = metadata (fst st);
  out_schema : schema (fst st') = schema (fst st);
  out_frame : ∀ name, name ∉ JSObject.keys entries →
    JSObject.get name (mcpServers (fst st'))
    = JSObject.get name (mcpServers (fst st));
  out_entry : ∀ name s, (name, s) ∈ entries →
    resolved clock options s (JSObject.lookup name targetServices)
      (JSObject.get name (mcpServers (fst st')));
  out_nodup : NoDup (JSObject.keys (mcpServers (fst st))) →
    NoDup (JSObject.keys (mcpServers (fst st')))
}.

(** Every service has a command. *)
Definition hasCommands (servers : list (string * MCPServiceConfig)) : Prop :=
  ∀ name s, (name, s) ∈ servers → command s ≠ EmptyString.

(** What one iteration of [mergeMultipleConfigs] adds to [finalResult]. *)
Definition accumulate (finalResult mergeResult : MergeResult) : MergeResult :=
  {| success := success finalResult && success mergeResult;
     config := config finalResult;
     conflicts := conflicts finalResult ++ conflicts mergeResult;
     errors := errors finalResult ++ errors mergeResult;
     warnings := warnings finalResult ++ warnings mergeResult;
     stats := addStats (stats finalResult) (stats mergeResult) |}.

(** ** ConfigurationManager: the state that is not on disk

    The cache of records read, by path, and the current path and record.
    A path is falsy when it is the empty string; a record is an object and
    is truthy. *)
Module Manager.

Record State := mkState {
  configCache : gmap string MCPConfig;
  currentConfigPath : option string;
  currentConfig : option MCPConfig
}.

Definition clearCache (filePath : option string) (st : State) : State :=
  match filePath with
  | Some p =>
      if truthyString (Some p)
      then {| configCache := delete p (configCache st);
              currentConfigPath := currentConfigPath st;
              currentConfig := currentConfig st |}
      else {| configCache := ∅;
              currentConfigPath := currentConfigPath st;
              currentConfig := currentConfig st |}
  | None =>
      {| configCache := ∅;
         currentConfigPath := currentConfigPath st;
         currentConfig := currentConfig st |}
  end.

(** [this.currentConfigPath || undefined] *)
Definition getConfigPath (st : State) : option string :=
  if truthyString (currentConfigPath st) then currentConfigPath st else None.

(** [this.currentConfig || undefined] *)
Definition getConfig (st : State) : option MCPConfig := currentConfig st.

Definition setCurrentConfigPath (filePath : string) (st : State) : State :=
  {| configCache := configCache st;
     currentConfigPath := Some filePath;
     currentConfig := currentConfig st |}.

Definition setCurrentConfig (config : MCPConfig) (st : State) : State :=
  {| configCache := configCache st;
     currentConfigPath := currentConfigPath st;
     currentConfig := Some config |}.

(** [validateConfig(config?)]: without a record it validates the current
    one. *)
Definition validateConfig (config : option MCPConfig) (st : State)
  : ValidationResult :=
  match config with
  | Some c => validateConfigSync c
  | None =>
      match getConfig st with
      | Some c => validateConfigSync c
      | None =>
          {| isValid := false;
             v_errors := [{| field := "config";
                             message := "没有找到配置文件" |}];
             v_warnings := [] |}
      end
  end.

End Manager.


(** * Properties *)


(** ** Objects as association lists *)

Module JSObjectFacts.
Import JSObject.
Section Facts.
Context {V : Type}.
Implicit Types (o : list (string * V)) (k : string) (v : V).

Lemma get_None o k : get k o = None ↔ k ∉ keys o.
Proof.
  induction o as [|[k' v'] o IH]; simpl.
  - split; [intros _; apply not_elem_of_nil | done].
  - rewrite not_elem_of_cons, <- IH. case_decide; [|tauto].
    split; [done | intros []; done].
Qed.

Lemma get_Some_keys o k v : get k o = Some v → k ∈ keys o.
Proof.
  intros Hget. destruct (decide (k ∈ keys o)) as [|Hn]; [done|].
  apply get_None in Hn. congruence.
Qed.

Lemma get_elem_of o k v : get k o = Some v → (k, v) ∈ o.
Proof.
  induction o as [|[k' v'] o IH]; simpl; [done|].
  case_decide; intros Hget; simplify_eq.
  - apply list_elem_of_here.
  - apply list_elem_of_further, IH, Hget.
Qed.

Lemma get_is_Some o k : k ∈ keys o → is_Some (get k o).
Proof.
  intros Hin. destruct (get k o) eqn:Hget; [eauto|].
  apply get_None in Hget. done.
Qed.

Lemma get_set_eq o k v : get k (set k v o) = Some v.
Proof.
  induction o as [|[k' v'] o IH]; simpl.
  - by rewrite decide_True.
  - case_decide; simpl; [by rewrite decide_True | by rewrite decide_False].
Qed.

Lemma get_set_ne o k k' v : k ≠ k' → get k' (set k v o) = get k' o.
Proof.
  intros Hne. induction o as [|[k2 v2] o IH]; simpl.
  - by rewrite decide_False.
  - destruct (decide (k = k2)) as [->|]; simpl.
    + by rewrite !decide_False.
    + by rewrite IH.
Qed.

Lemma set_fresh o k v : k ∉ keys o → set k v o = o ++ [(k, v)].
Proof.
  induction o as [|[k' v'] o IH]; simpl; [done|].
  rewrite not_elem_of_cons. intros [Hne Hnin].
  rewrite decide_False by done. by rewrite IH.
Qed.

Lemma keys_set_present o k v : k ∈ keys o → keys (set k v o) = keys o.
Proof.
  induction o as [|[k' v'] o IH]; simpl.
  - by intros ?%elem_of_nil.
  - intros Hin. destruct (decide (k = k')) as [->|Hne]; simpl; [done|].
    f_equal. apply IH. apply elem_of_cons in Hin as [|]; done.
Qed.

Lemma set_same o k v : NoDup (keys o) → get k o = Some v → set k v o = o.
Proof.
  induction o as [|[k' v'] o IH]; simpl; [done|].
  intros [Hnin Hnd]%NoDup_cons. case_decide; intros Hget; simplify_eq; [done|].
  f_equal. by apply IH.
Qed.

Lemma spread_fresh (base extra : list (string * V)) :
  NoDup (keys (base ++ extra)) → spread base extra = base ++ extra.
Proof.
  revert base. induction extra as [|[k v] extra IH]; intros base Hnd.
  - by rewrite app_nil_r.
  - change (spread base ((k, v) :: extra)) with (spread (set k v base) extra).
    rewrite set_fresh.
    + rewrite IH; rewrite <- app_assoc; done.
    + unfold keys in Hnd. rewrite map_app in Hnd. simpl in Hnd.
      apply NoDup_app in Hnd as (_ & Hdisj & _).
      intros Hin. apply (Hdisj k Hin). apply list_elem_of_here.
Qed.

Lemma copy_id o : NoDup (keys o) → copy o = o.
Proof. intros Hnd. unfold copy. by rewrite spread_fresh. Qed.

(** An assignment to a name other than [__proto__], or to an own
    property, defines the property. *)
Lemma assign_present o k v : k ∈ keys o → assign k v o = set k v o.
Proof.
  intros [x Hx]%get_is_Some. unfold assign. by rewrite Hx.
Qed.

Lemma assign_ordinary o k v : k ≠ "__proto__" → assign k v o = set k v o.
Proof.
  intros Hk. unfold assign. destruct (get k o); [done|].
  by rewrite decide_False.
Qed.

Lemma assign_proto o v :
  "__proto__" ∉ keys o → assign "__proto__" v o = o.
Proof. intros Hk%get_None. unfold assign. by rewrite Hk. Qed.

Lemma get_assign_ne o k k' v : k ≠ k' → get k' (assign k v o) = get k' o.
Proof.
  intros Hne. unfold assign.
  destruct (get k o); [by apply get_set_ne|].
  case_decide; [done | by apply get_set_ne].
Qed.

Lemma get_assign_eq o k v :
  k ≠ "__proto__" ∨ k ∈ keys o → get k (assign k v o) = Some v.
Proof.
  intros [Hk|Hk].
  - rewrite assign_ordinary by done. apply get_set_eq.
  - rewrite assign_present by done. apply get_set_eq.
Qed.

Lemma keys_assign o k v :
  assign k v o = o ∨ assign k v o = set k v o.
Proof.
  unfold assign. destruct (get k o); [by right|].
  case_decide; [by left | by right].
Qed.

(** A lookup finds the own property first. *)
Lemma lookup_Own o k v : get k o = Some v → lookup k o = Some (Own v).
Proof. intros Hget. unfold lookup. by rewrite Hget. Qed.

Lemma lookup_Inherited o k :
  (k ∉ keys o) → k ∈ prototypeKeys → lookup k o = Some (Inherited k).
Proof.
  intros Hkey%get_None Hproto. unfold lookup.
  by rewrite Hkey, bool_decide_eq_true_2.
Qed.

Lemma lookup_None o k :
  lookup k o = None ↔ (k ∉ keys o) ∧ (k ∉ prototypeKeys).
Proof.
  unfold lookup. rewrite <- get_None.
  destruct (get k o) as [v|].
  - split; [done | by intros []].
  - case_bool_decide; split; try done.
    by intros [_ ?].
Qed.

Lemma lookup_absent o k :
  (k ∉ keys o) → (k ∉ prototypeKeys) → lookup k o = None.
Proof. intros. by apply lookup_None. Qed.

(** Two objects with the same own property of a name give the same
    lookup. *)
Lemma lookup_get o o' k : get k o = get k o' → lookup k o = lookup k o'.
Proof. intros Hget. unfold lookup. by rewrite Hget. Qed.

Lemma lookup_Own_inv o k v : lookup k o = Some (Own v) → get k o = Some v.
Proof.
  unfold lookup. destruct (get k o); [by intros [= ->]|].
  by case_bool_decide.
Qed.

(** The own property of a name after an assignment to it. *)
Lemma get_assigned o k m v :
  lookup k o = Some m → get k (assign k v o) = assigned m v.
Proof.
  unfold lookup, assign. destruct (get k o) as [x|] eqn:Hget.
  - intros [= <-]. simpl. apply get_set_eq.
  - case_bool_decide; [|done]. intros [= <-]. simpl.
    case_decide; [done | apply get_set_eq].
Qed.

Lemma lookup_Inherited_inv o k k' :
  lookup k o = Some (Inherited k') →
  k' = k ∧ (k ∉ keys o) ∧ k ∈ prototypeKeys.
Proof.
  unfold lookup. destruct (get k o) eqn:Hget; [done|].
  case_bool_decide; [|done]. intros [= <-]. by apply get_None in Hget.
Qed.
End Facts.
End JSObjectFacts.

(** ** Equality utilities *)

Lemma everyAt_spec (arr1 arr2 : list string) (index : nat) :
  everyAt arr1 arr2 index = true ↔
  ∀ j x, arr1 !! j = Some x → arr2 !! (index + j) = Some x.
Proof.
  revert index. induction arr1 as [|item rest IH]; intros index; simpl.
  - split; [intros _ j x Hj; by rewrite lookup_nil in Hj | done].
  - destruct (arr2 !! index) as [other|] eqn:Hother.
    + rewrite andb_true_iff, bool_decide_eq_true, IH. split.
      * intros [-> Hrest] [|j] x Hj; simpl in Hj.
        -- rewrite Nat.add_0_r. congruence.
        -- rewrite <- Nat.add_succ_comm. by apply Hrest.
      * intros Hall. split.
        -- specialize (Hall 0 item eq_refl). rewrite Nat.add_0_r in Hall.
           congruence.
        -- intros j x Hj. rewrite Nat.add_succ_comm. by apply Hall.
    + split; [done|]. intros Hall.
      specialize (Hall 0 item eq_refl). rewrite Nat.add_0_r in Hall. congruence.
Qed.

Lemma areArraysEqual_eq (arr1 arr2 : option (list string)) :
  areArraysEqual arr1 arr2 = true ↔ arr1 = arr2.
Proof.
  destruct arr1 as [a1|], arr2 as [a2|]; simpl; try (split; done).
  destruct (Nat.eqb_spec (length a1) (length a2)) as [Hlen|Hlen]; simpl.
  - rewrite everyAt_spec. split.
    + intros Hall. f_equal. apply list_eq_same_length with (length a1); try done.
      intros i x y _ Hx Hy. apply Hall in Hx. simpl in Hx. congruence.
    + intros [= ->] j x Hj. done.
  - split; [done|]. intros [= ->]. done.
Qed.

Lemma areObjectsEqual_eq (obj1 obj2 : option (gmap string string)) :
  areObjectsEqual obj1 obj2 = true ↔ obj1 = obj2.
Proof.
  destruct obj1 as [o1|], obj2 as [o2|]; simpl; try (split; done).
  destruct (Nat.eqb_spec (size o1) (size o2)) as [Hsize|Hsize]; simpl.
  - rewrite forallb_forall. split.
    + intros Hall. f_equal. apply map_subseteq_size_eq; [|lia].
      apply map_subseteq_spec. intros key x Hkey.
      assert (Hin : In key (map fst (map_to_list o1))).
      { apply in_map_iff. exists (key, x). split; [done|].
        apply list_elem_of_In, elem_of_map_to_list, Hkey. }
      apply Hall, bool_decide_eq_true in Hin. congruence.
    + intros [= ->] key _. by apply bool_decide_eq_true.
  - split; [done|]. intros [= ->]. done.
Qed.

Lemma areServicesEqual_agree (service1 service2 : MCPServiceConfig) :
  areServicesEqual service1 service2 = true ↔ agree service1 service2.
Proof.
  unfold areServicesEqual, agree.
  rewrite !andb_true_iff, !bool_decide_eq_true,
    areArraysEqual_eq, areObjectsEqual_eq.
  tauto.
Qed.

Lemma conflictingFields_nil (sourceService targetService : MCPServiceConfig) :
  conflictingFields sourceService (Own targetService) = [] ↔
  agree sourceService targetService.
Proof.
  unfold conflictingFields, agree. simpl.
  rewrite <- areArraysEqual_eq, <- areObjectsEqual_eq.
  destruct (areArraysEqual _ _), (areObjectsEqual _ _);
    repeat case_bool_decide; simpl; split; try done; try tauto;
    try (intros (? & ? & ? & ?); congruence);
    try (intros _; split_and!; congruence).
Qed.

(** A descriptor differs from a member of [Object.prototype] on
    [command], and on each of the other three properties it has. *)
Lemma conflictingFields_Inherited (sourceService : MCPServiceConfig) k :
  conflictingFields sourceService (Inherited k)
  = ["command"]
    ++ (if present (args sourceService) then ["args"] else [])
    ++ (if present (env sourceService) then ["env"] else [])
    ++ (if present (disabled sourceService) then ["disabled"] else []).
Proof.
  unfold conflictingFields. simpl.
  destruct (args sourceService), (env sourceService),
    (disabled sourceService); simpl; repeat case_bool_decide; done.
Qed.

(** The detector finds no difference exactly when the lookup returned a
    descriptor that agrees. *)
Lemma conflictingFields_sameAs sourceService targetService :
  (length (conflictingFields sourceService targetService) =? 0)
  = sameAs sourceService targetService.
Proof.
  destruct targetService as [t|k].
  - simpl. destruct (areServicesEqual sourceService t) eqn:Heq.
    + apply areServicesEqual_agree, conflictingFields_nil in Heq.
      by rewrite Heq.
    + destruct (conflictingFields sourceService (Own t)) eqn:Hf; [|done].
      apply conflictingFields_nil, areServicesEqual_agree in Hf. congruence.
  - by rewrite conflictingFields_Inherited.
Qed.

Lemma sameAs_Own s t : sameAs s (Own t) = true ↔ agree s t.
Proof. apply areServicesEqual_agree. Qed.

Lemma sameAs_Own_false s t : sameAs s (Own t) = false ↔ ¬ agree s t.
Proof.
  rewrite <- sameAs_Own. by destruct (sameAs s (Own t)).
Qed.

(** C3, as the specification states it, fails: an absent list and an empty
    one are "both absent or empty", and [areArraysEqual] tells them apart
    (its second test returns [false] as soon as exactly one side is
    absent). *)
Lemma areArraysEqual_absent_empty :
  ¬ (areArraysEqual None (Some []) = true ↔ argsEqualSpec None (Some [])).
Proof.
  intros [_ Hspec]. assert (Hfalse : areArraysEqual None (Some []) = true).
  { apply Hspec. left. done. }
  discriminate Hfalse.
Qed.

(** C3, amended: the argument-list equality returns [true] if and only if
    both lists are absent, or both are present with the same length and
    the same element at every position.  An absent list and a present one,
    empty or not, are different, and two present lists are equal exactly
    when they are the same sequence, so that a reordering of different
    elements is a difference. *)
Theorem areArraysEqual_spec (arr1 arr2 : option (list string)) :
  (areArraysEqual arr1 arr2 = true ↔
     (arr1 = None ∧ arr2 = None)
     ∨ (∃ l1 l2, arr1 = Some l1 ∧ arr2 = Some l2 ∧ length l1 = length l2
                 ∧ ∀ i, l1 !! i = l2 !! i))
  ∧ (∀ l, areArraysEqual None (Some l) = false
          ∧ areArraysEqual (Some l) None = false)
  ∧ (∀ l1 l2, areArraysEqual (Some l1) (Some l2) = bool_decide (l1 = l2)).
Proof.
  split; [|split].
  - rewrite areArraysEqual_eq. split.
    + intros <-. destruct arr1 as [l|]; [right | left; done].
      exists l, l. done.
    + intros [[-> ->] | (l1 & l2 & -> & -> & _ & Hall)]; [done|].
      f_equal. by apply list_eq.
  - done.
  - intros l1 l2. destruct (areArraysEqual (Some l1) (Some l2)) eqn:Heq.
    + apply areArraysEqual_eq in Heq as [= ->]. by rewrite bool_decide_eq_true_2.
    + symmetry. apply bool_decide_eq_false. intros ->.
      assert (areArraysEqual (Some l2) (Some l2) = true) by by apply areArraysEqual_eq.
      congruence.
Qed.

Example areArraysEqual_reordered :
  areArraysEqual (Some ["-y"; "pkg"]) (Some ["pkg"; "-y"]) = false.
Proof. reflexivity. Qed.

(** ** analyzeDifferences *)

Lemma includes_true (k : string) (ks : list string) :
  JSObject.includes k ks = true ↔ k ∈ ks.
Proof. unfold JSObject.includes. apply bool_decide_eq_true. Qed.

Lemma elem_of_List_filter {A} (f : A → bool) (l : list A) (x : A) :
  x ∈ List.filter f l ↔ x ∈ l ∧ f x = true.
Proof. rewrite !list_elem_of_In. apply filter_In. Qed.

Lemma classifyCommon_spec (common : list string)
    (servers1 servers2 : list (string * MCPServiceConfig))
    (different0 identical0 : list string) :
  (∀ n, n ∈ common →
        is_Some (JSObject.get n servers1) ∧ is_Some (JSObject.get n servers2)) →
  ∃ different1 identical1,
    classifyCommon common servers1 servers2 different0 identical0
      = Some (different1, identical1)
    ∧ (∀ n, n ∈ identical1 ↔
            n ∈ identical0
            ∨ (n ∈ common ∧ ∃ s1 s2, JSObject.get n servers1 = Some s1
                 ∧ JSObject.get n servers2 = Some s2
                 ∧ areServicesEqual s1 s2 = true))
    ∧ (∀ n, n ∈ different1 ↔
            n ∈ different0
            ∨ (n ∈ common ∧ ∃ s1 s2, JSObject.get n servers1 = Some s1
                 ∧ JSObject.get n servers2 = Some s2
                 ∧ areServicesEqual s1 s2 = false)).
Proof.
  revert different0 identical0.
  induction common as [|name rest IH]; intros different0 identical0 Hcommon.
  - exists different0, identical0. simpl. split; [done|].
    split; intros n; rewrite elem_of_nil; tauto.
  - simpl.
    destruct (Hcommon name) as [[s1 Hs1] [s2 Hs2]]; [apply list_elem_of_here|].
    rewrite Hs1, Hs2.
    assert (Hrest : ∀ n, n ∈ rest →
      is_Some (JSObject.get n servers1) ∧ is_Some (JSObject.get n servers2)).
    { intros n Hn. apply Hcommon. by apply list_elem_of_further. }
    destruct (areServicesEqual s1 s2) eqn:Heq.
    + destruct (IH different0 (identical0 ++ [name]) Hrest)
        as (d1 & i1 & -> & Hi & Hd).
      exists d1, i1. split; [done|]. split; intros n.
      * rewrite Hi, elem_of_app, list_elem_of_singleton, elem_of_cons. split.
        -- intros [[Hn| ->]|[Hn Hex]]; [by left | right | right]; eauto 10.
        -- intros [Hn|[[ ->|Hn] Hex]]; [left; by left | left; by right | by right].
      * rewrite Hd, elem_of_cons. split.
        -- intros [Hn|[Hn Hex]]; [by left | right; eauto].
        -- intros [Hn|[[ ->|Hn] Hex]]; [by left | | by right].
           destruct Hex as (a & b & Ha & Hb & Hab). congruence.
    + destruct (IH (different0 ++ [name]) identical0 Hrest)
        as (d1 & i1 & -> & Hi & Hd).
      exists d1, i1. split; [done|]. split; intros n.
      * rewrite Hi, elem_of_cons. split.
        -- intros [Hn|[Hn Hex]]; [by left | right; eauto].
        -- intros [Hn|[[ ->|Hn] Hex]]; [by left | | by right].
           destruct Hex as (a & b & Ha & Hb & Hab). congruence.
      * rewrite Hd, elem_of_app, list_elem_of_singleton, elem_of_cons. split.
        -- intros [[Hn| ->]|[Hn Hex]]; [by left | right | right]; eauto 10.
        -- intros [Hn|[[ ->|Hn] Hex]]; [left; by left | left; by right | by right].
Qed.

(** C8: [analyzeDifferences] returns (it does not throw), its four lists
    are pairwise disjoint, a name is in one of them exactly when it is a
    service name of the first or of the second record, and a name of both
    records is in [identical] exactly when the two descriptors agree on
    [command], [args], [env] and [disabled] (and in [different] exactly
    when they do not). *)
Theorem analyzeDifferences_partition (config1 config2 : MCPConfig) :
  ∃ d, analyzeDifferences config1 config2 = Some d
    ∧ (∀ n, ¬ (n ∈ onlyInFirst d ∧ n ∈ onlyInSecond d))
    ∧ (∀ n, ¬ (n ∈ onlyInFirst d ∧ n ∈ different d))
    ∧ (∀ n, ¬ (n ∈ onlyInFirst d ∧ n ∈ identical d))
    ∧ (∀ n, ¬ (n ∈ onlyInSecond d ∧ n ∈ different d))
    ∧ (∀ n, ¬ (n ∈ onlyInSecond d ∧ n ∈ identical d))
    ∧ (∀ n, ¬ (n ∈ different d ∧ n ∈ identical d))
    ∧ (∀ n, n ∈ onlyInFirst d ++ onlyInSecond d ++ different d ++ identical d
            ↔ n ∈ JSObject.keys (mcpServers config1)
              ∨ n ∈ JSObject.keys (mcpServers config2))
    ∧ (∀ n service1 service2,
         JSObject.get n (mcpServers config1) = Some service1 →
         JSObject.get n (mcpServers config2) = Some service2 →
         (n ∈ identical d ↔ agree service1 service2)
         ∧ (n ∈ different d ↔ ¬ agree service1 service2)).
Proof.
  unfold analyzeDifferences.
  set (services1 := JSObject.keys (mcpServers config1)).
  set (services2 := JSObject.keys (mcpServers config2)).
  set (common := List.filter _ services1).
  assert (Hcommon : ∀ n, n ∈ common ↔ n ∈ services1 ∧ n ∈ services2).
  { intros n. unfold common. by rewrite elem_of_List_filter, includes_true. }
  destruct (classifyCommon_spec common (mcpServers config1) (mcpServers config2)
              [] []) as (d1 & i1 & -> & Hi & Hd).
  { intros n [H1 H2]%Hcommon.
    split; by apply JSObjectFacts.get_is_Some. }
  eexists. split; [done|]. simpl.
  assert (Hfirst : ∀ n, n ∈ List.filter
      (λ name, negb (JSObject.includes name services2)) services1
      ↔ n ∈ services1 ∧ n ∉ services2).
  { intros n.
    rewrite elem_of_List_filter, negb_true_iff, <- (includes_true n services2).
    destruct (JSObject.includes n services2); intuition congruence. }
  assert (Hsecond : ∀ n, n ∈ List.filter
      (λ name, negb (JSObject.includes name services1)) services2
      ↔ n ∈ services2 ∧ n ∉ services1).
  { intros n.
    rewrite elem_of_List_filter, negb_true_iff, <- (includes_true n services1).
    destruct (JSObject.includes n services1); intuition congruence. }
  assert (Hi' : ∀ n, n ∈ i1 → n ∈ services1 ∧ n ∈ services2).
  { intros n [[]%elem_of_nil|[Hn _]]%Hi. by apply Hcommon. }
  assert (Hd' : ∀ n, n ∈ d1 → n ∈ services1 ∧ n ∈ services2).
  { intros n [[]%elem_of_nil|[Hn _]]%Hd. by apply Hcommon. }
  split_and!.
  - intros n [[? ?]%Hfirst [? ?]%Hsecond]. done.
  - intros n [[? ?]%Hfirst [? ?]%Hd']. done.
  - intros n [[? ?]%Hfirst [? ?]%Hi']. done.
  - intros n [[? ?]%Hsecond [? ?]%Hd']. done.
  - intros n [[? ?]%Hsecond [? ?]%Hi']. done.
  - intros n [[[]%elem_of_nil|(_ & a & b & Ha & Hb & Hf)]%Hd
               [[]%elem_of_nil|(_ & a' & b' & Ha' & Hb' & Ht)]%Hi].
    congruence.
  - intros n. rewrite !elem_of_app, Hfirst, Hsecond. split.
    + intros [[? ?]|[[? ?]|[?%Hd'|?%Hi']]]; tauto.
    + rewrite Hi, Hd, !Hcommon. intros Hn.
      destruct (decide (n ∈ services1)) as [H1|H1],
               (decide (n ∈ services2)) as [H2|H2]; try tauto.
      destruct (JSObjectFacts.get_is_Some _ _ H1) as [a Ha].
      destruct (JSObjectFacts.get_is_Some _ _ H2) as [b Hb].
      destruct (areServicesEqual a b) eqn:Hab; eauto 12.
  - intros n service1 service2 Hs1 Hs2.
    assert (Hn : n ∈ common).
    { apply Hcommon. split; eapply JSObjectFacts.get_Some_keys; eauto. }
    rewrite Hi, Hd, <- areServicesEqual_agree. split; split.
    + intros [[]%elem_of_nil|(_ & a & b & Ha & Hb & Hab)]. congruence.
    + intros Hagree. right. eauto 10.
    + intros [[]%elem_of_nil|(_ & a & b & Ha & Hb & Hab)]. congruence.
    + intros Hagree. right. split; [done|]. exists service1, service2.
      by destruct (areServicesEqual service1 service2).
Qed.

(** ** compareVersions *)

Lemma js_lt_numOfN (x y : N) : js_lt (numOfN x) (numOfN y) = (x <? y)%N.
Proof.
  unfold numOfN, js_lt.
  destruct (N.ltb_spec x y) as [Hlt|Hge].
  - apply negb_true_iff. destruct (Qle_bool _ _) eqn:Hle; [|done].
    apply Qle_bool_iff in Hle. rewrite <- Zle_Qle in Hle. lia.
  - apply negb_false_iff, Qle_bool_iff. rewrite <- Zle_Qle. lia.
Qed.

Lemma orZero_numOfN (l : list N) (i : nat) :
  orZero (map numOfN l !! i) = numOfN (seg l i).
Proof.
  unfold seg. revert i. induction l as [|x l IH]; intros [|i]; simpl;
    [done | done | | apply IH].
  destruct (Qeq_bool (inject_Z (Z.of_N x)) 0) eqn:Heq; [|done].
  apply Qeq_bool_iff in Heq. unfold Qeq in Heq. simpl in Heq.
  assert (x = 0%N) as -> by lia. done.
Qed.

Lemma map_Number_segments (Number : string → jsnum) (v : string) :
  NumberOnDecimals Number → dottedNumeric v →
  map Number (split "." v) = map numOfN (segments v).
Proof.
  intros HNumber Hv. unfold segments, dottedNumeric in *.
  induction Hv as [|s l [Hs Hbound] _ IH]; simpl; [done|].
  rewrite IH. f_equal. by apply HNumber.
Qed.

(** The loop from index [i] with [r] iterations left decides by the first
    index in [[i, i + r)] at which the segments differ. *)
Lemma compareLoop_spec (a b : list N) (r i : nat) :
  let res := compareLoop (map numOfN a) (map numOfN b) i r in
  (res = 1 ∨ res = 0 ∨ res = -1)%Z
  ∧ (res = 1%Z ↔ ∃ k, i ≤ k < i + r
       ∧ (∀ j, i ≤ j < k → seg a j = seg b j) ∧ (seg b k < seg a k)%N)
  ∧ (res = (-1)%Z ↔ ∃ k, i ≤ k < i + r
       ∧ (∀ j, i ≤ j < k → seg a j = seg b j) ∧ (seg a k < seg b k)%N)
  ∧ (res = 0%Z ↔ ∀ j, i ≤ j < i + r → seg a j = seg b j).
Proof.
  revert i. induction r as [|r IH]; intros i; simpl.
  - split_and!; [tauto | | | ].
    + split; [done | intros (k & ? & _); lia].
    + split; [done | intros (k & ? & _); lia].
    + split; [intros _ j ?; lia | done].
  - rewrite !orZero_numOfN. unfold js_gt. rewrite !js_lt_numOfN.
    destruct (N.ltb_spec (seg b i) (seg a i)) as [Hgt|Hle].
    { split_and!; [tauto | | | ].
      - split; [intros _ | done]. exists i. split_and!; [lia.. | | done].
        intros j ?; lia.
      - split; [done|]. intros (k & Hk & Heq & Hlt).
        destruct (decide (k = i)) as [->|]; [lia|].
        specialize (Heq i). lia.
      - split; [done|]. intros Heq. specialize (Heq i). lia. }
    destruct (N.ltb_spec (seg a i) (seg b i)) as [Hlt|Hge].
    { split_and!; [tauto | | | ].
      - split; [done|]. intros (k & Hk & Heq & Hlt').
        destruct (decide (k = i)) as [->|]; [lia|].
        specialize (Heq i). lia.
      - split; [intros _ | done]. exists i. split_and!; [lia.. | | done].
        intros j ?; lia.
      - split; [done|]. intros Heq. specialize (Heq i). lia. }
    assert (Hi : seg a i = seg b i) by lia.
    destruct (IH (S i)) as (Hrange & Hone & Hminus & Hzero).
    split_and!; [done | | | ].
    + rewrite Hone. split.
      * intros (k & Hk & Heq & Hlt). exists k. split_and!; [lia.. | | done].
        intros j Hj. destruct (decide (j = i)) as [->|]; [done|]. apply Heq. lia.
      * intros (k & Hk & Heq & Hlt). exists k.
        assert (k ≠ i) by (intros ->; lia).
        split_and!; [lia.. | | done]. intros j Hj. apply Heq. lia.
    + rewrite Hminus. split.
      * intros (k & Hk & Heq & Hlt). exists k. split_and!; [lia.. | | done].
        intros j Hj. destruct (decide (j = i)) as [->|]; [done|]. apply Heq. lia.
      * intros (k & Hk & Heq & Hlt). exists k.
        assert (k ≠ i) by (intros ->; lia).
        split_and!; [lia.. | | done]. intros j Hj. apply Heq. lia.
    + rewrite Hzero. split.
      * intros Heq j Hj. destruct (decide (j = i)) as [->|]; [done|].
        apply Heq. lia.
      * intros Heq j Hj. apply Heq. lia.
Qed.

Lemma seg_beyond (l : list N) (i : nat) : List.length l ≤ i → seg l i = 0%N.
Proof. intros Hi. unfold seg. by apply nth_overflow. Qed.

(** C4: on version strings whose segments between dots are decimal
    integers, [compareVersions] returns [-1], [0] or [1], decided by the
    first index at which the segments differ as integers, a segment
    missing at the end of the shorter version counting as [0]: [1] when
    the first version has the larger segment there, [-1] when it has the
    smaller one, and [0] when there is no such index. *)
Theorem compareVersions_numeric (Number : string → jsnum) (v1 v2 : string) :
  NumberOnDecimals Number → dottedNumeric v1 → dottedNumeric v2 →
  let res := compareVersions Number v1 v2 in
  let a := segments v1 in
  let b := segments v2 in
  (res = 1 ∨ res = 0 ∨ res = -1)%Z
  ∧ (res = 1%Z ↔
       ∃ k, (∀ j, j < k → seg a j = seg b j) ∧ (seg b k < seg a k)%N)
  ∧ (res = (-1)%Z ↔
       ∃ k, (∀ j, j < k → seg a j = seg b j) ∧ (seg a k < seg b k)%N)
  ∧ (res = 0%Z ↔ ∀ j, seg a j = seg b j).
Proof.
  intros HNumber Hv1 Hv2. unfold compareVersions. cbv zeta.
  rewrite !(map_Number_segments Number) by done.
  rewrite !length_map.
  set (a := segments v1). set (b := segments v2).
  set (m := Nat.max (length a) (length b)).
  destruct (compareLoop_spec a b m 0) as (Hrange & Hone & Hminus & Hzero).
  assert (Hbeyond : ∀ k, m ≤ k → seg a k = 0%N ∧ seg b k = 0%N).
  { intros k Hk. split; apply seg_beyond; lia. }
  split_and!; [done | | | ].
  - rewrite Hone. split.
    + intros (k & _ & Heq & Hlt). exists k. split; [|done].
      intros j Hj. apply Heq. lia.
    + intros (k & Heq & Hlt). exists k. split_and!; [lia | | | done].
      * destruct (decide (k < m)) as [|Hk]; [lia|].
        destruct (Hbeyond k) as [? ?]; lia.
      * intros j Hj. apply Heq. lia.
  - rewrite Hminus. split.
    + intros (k & _ & Heq & Hlt). exists k. split; [|done].
      intros j Hj. apply Heq. lia.
    + intros (k & Heq & Hlt). exists k. split_and!; [lia | | | done].
      * destruct (decide (k < m)) as [|Hk]; [lia|].
        destruct (Hbeyond k) as [? ?]; lia.
      * intros j Hj. apply Heq. lia.
  - rewrite Hzero. split.
    + intros Heq j. destruct (decide (j < m)) as [|Hj]; [apply Heq; lia|].
      destruct (Hbeyond j) as [-> ->]; [lia | done].
    + intros Heq j _. apply Heq.
Qed.

Lemma decimalNumber_onDecimals : NumberOnDecimals decimalNumber.
Proof.
  intros s Hs _. unfold decimalNumber. destruct s as [|c s]; [done|].
  unfold isDigits in Hs. by rewrite Hs.
Qed.

(** Scenario E: [compareVersions("1.2.0", "1.10.0") == -1]. *)
Lemma compareVersions_numeric_witness :
  NumberOnDecimals decimalNumber
  ∧ dottedNumeric "1.2.0" ∧ dottedNumeric "1.10.0"
  ∧ compareVersions decimalNumber "1.2.0" "1.10.0" = (-1)%Z.
Proof.
  assert (H1 : dottedNumeric "1.2.0") by (repeat constructor).
  assert (H2 : dottedNumeric "1.10.0") by (repeat constructor).
  split_and!; [apply decimalNumber_onDecimals | done | done |].
  apply (compareVersions_numeric decimalNumber "1.2.0" "1.10.0"
           decimalNumber_onDecimals H1 H2).
  exists 1. split.
  - intros j Hj. assert (j = 0) as -> by lia. reflexivity.
  - reflexivity.
Defined.



Section MergerFacts.
Variable clock : nat → Z.
Variable Number : string → jsnum.

(** *** The conflict detector *)

Lemma detectServiceConflict_same name sourceService targetService n :
  sameAs sourceService targetService = true →
  detectServiceConflict clock name sourceService targetService n = (None, n).
Proof.
  intros Hsame. unfold detectServiceConflict.
  by rewrite conflictingFields_sameAs, Hsame.
Qed.

Lemma detectServiceConflict_other name sourceService targetService n :
  sameAs sourceService targetService = false →
  ∃ c, detectServiceConflict clock name sourceService targetService n
         = (Some c, S n)
       ∧ serviceName c = name
       ∧ sourceConfig c = sourceService
       ∧ targetConfig c = targetService.
Proof.
  intros Hsame. unfold detectServiceConflict.
  rewrite conflictingFields_sameAs, Hsame. simpl.
  eexists. split; [reflexivity|]. done.
Qed.

Lemma detectServiceConflict_agree name sourceService targetService n :
  agree sourceService targetService →
  detectServiceConflict clock name sourceService (Own targetService) n
  = (None, n).
Proof. intros Hagree. by apply detectServiceConflict_same, sameAs_Own. Qed.

Lemma detectServiceConflict_differ name sourceService targetService n :
  ¬ agree sourceService targetService →
  ∃ c, detectServiceConflict clock name sourceService (Own targetService) n
         = (Some c, S n)
       ∧ serviceName c = name
       ∧ sourceConfig c = sourceService
       ∧ targetConfig c = Own targetService.
Proof.
  intros Hdiffer. by apply detectServiceConflict_other, sameAs_Own_false.
Qed.

(** A conflict is returned exactly when the descriptor differs from what
    the lookup returned, and the detector reads the clock exactly then. *)
Lemma detectServiceConflict_cases name sourceService targetService n :
  (sameAs sourceService targetService = true
   ∧ detectServiceConflict clock name sourceService targetService n = (None, n))
  ∨ (sameAs sourceService targetService = false
     ∧ ∃ c, detectServiceConflict clock name sourceService targetService n
              = (Some c, S n)
            ∧ serviceName c = name
            ∧ sourceConfig c = sourceService
            ∧ targetConfig c = targetService).
Proof.
  destruct (sameAs sourceService targetService) eqn:Hsame.
  - left. split; [done | by apply detectServiceConflict_same].
  - right. split; [done | by apply detectServiceConflict_other].
Qed.

(** *** mergeService *)

(** An [add] or an [update] carries a configuration. *)
Lemma mergeService_config name sourceService targetService options n :
  let r := fst (mergeService clock name sourceService targetService options n) in
  sm_conflict r = None → sm_action r ≠ skip → is_Some (sm_config r).
Proof.
  unfold mergeService. destruct targetService as [t|]; simpl; [|eauto].
  unfold cbind.
  destruct (detectServiceConflict_cases name sourceService t n)
    as [[_ ->]|(_ & c & -> & _)].
  - destruct (mergeServiceConfigs _ _ _ _ _); simpl; eauto.
  - destruct (strategy options); simpl; try done; eauto.
    destruct (mergeServiceConfigs _ _ _ _ _); simpl; eauto.
Qed.

(** *** One iteration of the loop *)

(** The lookup finds nothing: the service is added. *)
Lemma mergeStep_absent options mergedConfig result name serviceConfig n :
  JSObject.lookup name (mcpServers mergedConfig) = None →
  mergeStep clock options (mergedConfig, result) (name, serviceConfig) n
  = ((withServers (JSObject.set name serviceConfig (mcpServers mergedConfig))
        mergedConfig,
      withStats (incAdded (stats result)) result), n).
Proof.
  intros Hget. unfold mergeStep, cbind, mergeService. rewrite Hget. simpl.
  rewrite JSObjectFacts.assign_ordinary; [done|].
  apply JSObjectFacts.lookup_None in Hget as [_ Hproto].
  intros ->. apply Hproto. unfold JSObject.prototypeKeys. set_solver.
Qed.

(** The lookup finds something that differs, under [SKIP]. *)
Lemma mergeStep_skip options mergedConfig result name serviceConfig target n :
  strategy options = SKIP →
  JSObject.lookup name (mcpServers mergedConfig) = Some target →
  sameAs serviceConfig target = false →
  mergeStep clock options (mergedConfig, result) (name, serviceConfig) n
  = ((mergedConfig,
      pushWarnings ["跳过冲突的服务 " +:+ quoted name]
        (withStats (incSkipped (stats result)) result)), S n).
Proof.
  intros Hstrategy Hget Hdiffer. unfold mergeStep, mergeService.
  rewrite Hget. unfold cbind.
  destruct (detectServiceConflict_other name serviceConfig target n Hdiffer)
    as (c & -> & _).
  by rewrite Hstrategy.
Qed.

(** The lookup finds something that differs, under [PROMPT]. *)
Lemma mergeStep_prompt options mergedConfig result name serviceConfig target n :
  strategy options = PROMPT →
  JSObject.lookup name (mcpServers mergedConfig) = Some target →
  sameAs serviceConfig target = false →
  ∃ c, detectServiceConflict clock name serviceConfig target n = (Some c, S n)
    ∧ mergeStep clock options (mergedConfig, result) (name, serviceConfig) n
      = ((mergedConfig,
          withStats (incConflict (stats result)) (pushConflict c result)), S n).
Proof.
  intros Hstrategy Hget Hdiffer. unfold mergeStep, mergeService.
  rewrite Hget. unfold cbind.
  destruct (detectServiceConflict_other name serviceConfig target n Hdiffer)
    as (c & -> & _).
  exists c. by rewrite Hstrategy.
Qed.

(** The lookup finds a descriptor that agrees: the service is updated by
    the field-wise merge. *)
Lemma mergeStep_same options mergedConfig result name serviceConfig target n :
  JSObject.lookup name (mcpServers mergedConfig) = Some target →
  sameAs serviceConfig target = true →
  mergeStep clock options (mergedConfig, result) (name, serviceConfig) n
  = let (merged, n') :=
      mergeServiceConfigs clock serviceConfig target (preserveMetadata options) n in
    ((withServers (JSObject.set name merged (mcpServers mergedConfig))
        mergedConfig,
      withStats (incUpdated (stats result)) result), n').
Proof.
  intros Hget Hagree. unfold mergeStep, mergeService. rewrite Hget.
  unfold cbind. rewrite detectServiceConflict_same by done.
  destruct (mergeServiceConfigs _ _ _ _ _) as [merged n']. simpl.
  rewrite JSObjectFacts.assign_present; [done|].
  destruct target as [t|k]; [|done].
  apply JSObjectFacts.lookup_Own_inv in Hget.
  by eapply JSObjectFacts.get_Some_keys.
Qed.

Lemma mergeStep_agree options mergedConfig result name serviceConfig target n :
  JSObject.get name (mcpServers mergedConfig) = Some target →
  agree serviceConfig target →
  mergeStep clock options (mergedConfig, result) (name, serviceConfig) n
  = let (merged, n') :=
      mergeServiceConfigs clock serviceConfig (Own target)
        (preserveMetadata options) n in
    ((withServers (JSObject.set name merged (mcpServers mergedConfig))
        mergedConfig,
      withStats (incUpdated (stats result)) result), n').
Proof.
  intros Hget Hagree. apply mergeStep_same.
  - by apply JSObjectFacts.lookup_Own.
  - by apply sameAs_Own.
Qed.

Lemma loopFrame_refl options st : loopFrame options [] st st.
Proof.
  split; try done.
  - exists []. rewrite app_nil_r.
    split_and!; [done | done | simpl; lia | by right].
  - exists []. by rewrite app_nil_r.
Qed.

Lemma loopFrame_trans options names1 names2 st1 st2 st3 :
  loopFrame options names1 st1 st2 → loopFrame options names2 st2 st3 →
  loopFrame options (names1 ++ names2) st1 st3.
Proof.
  intros [Hs1 Hv1 Hm1 Hsc1 He1 Ht1 Hc1 (new1 & Hn1 & Hf1 & Hl1 & Hp1) [w1 Hw1]]
         [Hs2 Hv2 Hm2 Hsc2 He2 Ht2 Hc2 (new2 & Hn2 & Hf2 & Hl2 & Hp2) [w2 Hw2]].
  split; try congruence.
  - intros k Hk. rewrite not_elem_of_app in Hk. destruct Hk.
    rewrite Hs2, Hs1; done.
  - rewrite length_app. lia.
  - exists (new1 ++ new2). split_and!.
    + rewrite Hn2, Hn1. by rewrite app_assoc.
    + apply Forall_app. split.
      * eapply Forall_impl; [done|]. intros c Hc. apply elem_of_app. by left.
      * eapply Forall_impl; [done|]. intros c Hc. apply elem_of_app. by right.
    + rewrite length_app. lia.
    + destruct Hp1 as [?| ->]; [by left|]. destruct Hp2 as [?| ->]; [by left|].
      by right.
  - exists (w1 ++ w2). rewrite Hw2, Hw1. by rewrite app_assoc.
Qed.

(** An iteration that writes the entry of its service and counts it as
    added or as updated. *)
Lemma loopFrame_set options name c mergedConfig result result' :
  errors result' = errors result →
  conflicts result' = conflicts result →
  (∃ new, warnings result' = warnings result ++ new) →
  totalServices (stats result') = totalServices (stats result) →
  conflictServices (stats result') = conflictServices (stats result) →
  addedServices (stats result') + updatedServices (stats result')
    + skippedServices (stats result')
  = S (addedServices (stats result) + updatedServices (stats result)
       + skippedServices (stats result)) →
  loopFrame options [name] (mergedConfig, result)
    (withServers (JSObject.assign name c (mcpServers mergedConfig)) mergedConfig,
     result').
Proof.
  intros Herrors Hconflicts Hwarnings Htotal Hconf Hcount.
  split; simpl; try done.
  - intros k Hk. apply JSObjectFacts.get_assign_ne.
    intros ->. apply Hk. apply list_elem_of_here.
  - lia.
  - exists []. rewrite app_nil_r.
    split_and!; [done | done | simpl; lia | by right].
Qed.

Local Ltac frame_set :=
  apply loopFrame_set; simpl;
  [ done | done
  | first [ by eexists | exists []; by rewrite app_nil_r ]
  | done | done | lia ].

Lemma mergeStep_frame options st name serviceConfig n :
  loopFrame options [name] st
    (fst (mergeStep clock options st (name, serviceConfig) n)).
Proof.
  destruct st as [mergedConfig result].
  destruct (JSObject.lookup name (mcpServers mergedConfig)) as [target|] eqn:Hget.
  2: { unfold mergeStep, mergeService, cbind. rewrite Hget. simpl. frame_set. }
  unfold mergeStep, mergeService. rewrite Hget. unfold cbind.
  destruct (detectServiceConflict_cases name serviceConfig target n)
    as [[_ ->]|(_ & c & -> & Hname & _)].
  - destruct (mergeServiceConfigs _ _ _ _ _) as [merged n']. simpl. frame_set.
  - destruct (strategy options) eqn:Hstrategy.
    + simpl. frame_set.
    + simpl. split; simpl; [done | done | done | done | done | done | lia | | ].
      * exists []. rewrite app_nil_r.
        split_and!; [done | done | simpl; lia | by right].
      * by eexists.
    + destruct (mergeServiceConfigs _ _ _ _ _) as [merged n']. simpl. frame_set.
    + simpl. split; simpl; [done | done | done | done | done | done | lia | | ].
      * exists [c]. split_and!; [done | | simpl; lia | by left].
        constructor; [|done]. rewrite Hname. apply list_elem_of_here.
      * exists []. by rewrite app_nil_r.
Qed.

(** *** The loop *)

Lemma mergeLoop_app options entries1 entries2 st n :
  mergeLoop clock options (entries1 ++ entries2) st n
  = let (st', n') := mergeLoop clock options entries1 st n in
    mergeLoop clock options entries2 st' n'.
Proof.
  revert st n. induction entries1 as [|entry entries1 IH]; intros st n; simpl.
  - done.
  - unfold cbind. destruct (mergeStep clock options st entry n) as [st' n'].
    apply IH.
Qed.

Lemma mergeLoop_frame options entries st n :
  loopFrame options (JSObject.keys entries) st
    (fst (mergeLoop clock options entries st n)).
Proof.
  revert st n. induction entries as [|[name serviceConfig] entries IH];
    intros st n; simpl.
  - apply loopFrame_refl.
  - unfold cbind.
    pose proof (mergeStep_frame options st name serviceConfig n) as Hstep.
    destruct (mergeStep clock options st (name, serviceConfig) n) as [st' n'].
    apply (loopFrame_trans options [name] (JSObject.keys entries) st st');
      [done | apply IH].
Qed.
End MergerFacts.



Section MergeConfigsFacts.
Variable clock : nat → Z.
Variable Number : string → jsnum.

(** *** Before and after the loop *)

Lemma mergeStart_servers source target options n :
  mcpServers (fst (fst (mergeStart clock Number source target options n)))
  = JSObject.copy (mcpServers target).
Proof.
  unfold mergeStart, cbind.
  destruct (preserveMetadata options); [destruct (mergeMetadata _ _ _ _)|];
    simpl; by destruct (adoptsSourceVersion _ _ _).
Qed.

Lemma mergeStart_result source target options n :
  snd (fst (mergeStart clock Number source target options n))
  = withStats (setTotal (length (JSObject.keys (mcpServers source))) zeroStats)
      emptyResult.
Proof.
  unfold mergeStart, cbind.
  destruct (preserveMetadata options); [destruct (mergeMetadata _ _ _ _)|];
    done.
Qed.

Lemma mergeFinish_config options st :
  config (mergeFinish options st) = Some (fst st).
Proof. by destruct st. Qed.

Lemma mergeFinish_stats options st :
  stats (mergeFinish options st) = stats (snd st).
Proof.
  destruct st as [c r]. simpl.
  destruct (validateResult options); [|done].
  by destruct (isValid _).
Qed.

Lemma mergeFinish_conflicts options st :
  conflicts (mergeFinish options st) = conflicts (snd st).
Proof.
  destruct st as [c r]. simpl.
  destruct (validateResult options); [|done].
  by destruct (isValid _).
Qed.

Lemma mergeFinish_warnings options st :
  ∃ new, warnings (mergeFinish options st) = warnings (snd st) ++ new.
Proof.
  destruct st as [c r]. simpl.
  destruct (validateResult options); [|exists []; by rewrite app_nil_r].
  destruct (isValid _); simpl; eauto.
Qed.

(** [mergeConfigs] as its three parts. *)
Lemma mergeConfigs_unfold source target options n :
  fst (mergeConfigs clock Number source target options n)
  = let (st0, n0) := mergeStart clock Number source target options n in
    mergeFinish options
      (fst (mergeLoop clock options (mcpServers source) st0 n0)).
Proof.
  unfold mergeConfigs, cbind, cret, JSObject.entries.
  destruct (mergeStart _ _ _ _ _ _) as [st0 n0].
  by destruct (mergeLoop _ _ _ _ _).
Qed.

(** The frame of the whole loop, from the state [mergeStart] leaves. *)
Lemma mergeConfigs_frame source target options n :
  let st0 := fst (mergeStart clock Number source target options n) in
  ∃ st, fst (mergeConfigs clock Number source target options n)
        = mergeFinish options st
      ∧ loopFrame options (JSObject.keys (mcpServers source)) st0 st.
Proof.
  rewrite mergeConfigs_unfold.
  destruct (mergeStart _ _ _ _ _ _) as [st0 n0]. simpl.
  eexists. split; [done|]. apply mergeLoop_frame.
Qed.

(** C1: in the result of every pairwise merge, [totalServices] is the
    number of service names of the source and equals the sum of the four
    other counters, whatever the strategy and the records. *)
Theorem stats_invariant source target options n :
  let r := fst (mergeConfigs clock Number source target options n) in
  totalServices (stats r) = length (JSObject.keys (mcpServers source))
  ∧ totalServices (stats r)
    = addedServices (stats r) + updatedServices (stats r)
      + skippedServices (stats r) + conflictServices (stats r).
Proof.
  cbv zeta.
  destruct (mergeConfigs_frame source target options n) as (st & -> & Hframe).
  destruct Hframe as [_ _ _ _ _ Htotal Hcount _ _].
  rewrite mergeStart_result in Htotal, Hcount. simpl in Htotal, Hcount.
  rewrite mergeFinish_stats. lia.
Qed.

(** C10: in the result of every pairwise merge, the conflicts list has
    as many entries as [conflictServices] counts, and it is empty unless
    the strategy is [PROMPT]. *)
Theorem conflicts_counted source target options n :
  let r := fst (mergeConfigs clock Number source target options n) in
  length (conflicts r) = conflictServices (stats r)
  ∧ (conflicts r = [] ∨ strategy options = PROMPT).
Proof.
  cbv zeta.
  destruct (mergeConfigs_frame source target options n) as (st & -> & Hframe).
  destruct Hframe as [_ _ _ _ _ _ _ (new & Hnew & _ & Hlen & Hprompt) _].
  rewrite mergeStart_result in Hnew, Hlen. simpl in Hnew, Hlen.
  rewrite mergeFinish_stats, mergeFinish_conflicts, Hnew, Hlen.
  split; [done|]. destruct Hprompt as [?| ->]; [by right | by left].
Qed.

(** *** The iteration that handles one service of the source *)

Lemma NoDup_keys_middle (pre post : list (string * MCPServiceConfig)) name svc :
  NoDup (JSObject.keys (pre ++ ((name, svc) :: post))) →
  (name ∉ JSObject.keys pre) ∧ (name ∉ JSObject.keys post).
Proof.
  unfold JSObject.keys. rewrite map_app. simpl.
  intros (_ & Hdisj & Hnd)%NoDup_app. apply NoDup_cons in Hnd as [Hpost _].
  split; [|done].
  intros Hin. apply (Hdisj name Hin). apply list_elem_of_here.
Qed.

(** When the loop reaches a service of a well-formed source, the working
    map still has the target's entry for it, no conflict names it, there
    is no error, and what the iteration leaves for it and of it is what
    the result has. *)
Lemma mergeConfigs_at source target options n pre name svc post :
  mcpServers source = pre ++ ((name, svc) :: post) →
  wfConfig source → wfConfig target →
  let '(st1, n1) := loopStateAfter clock Number source target options pre n in
  let '(st2, n2) := mergeStep clock options st1 (name, svc) n1 in
  JSObject.get name (mcpServers (fst st1))
    = JSObject.get name (mcpServers target)
  ∧ (∀ c, c ∈ conflicts (snd st1) → serviceName c ≠ name)
  ∧ errors (snd st1) = []
  ∧ ∃ st3,
      fst (mergeConfigs clock Number source target options n)
        = mergeFinish options st3
      ∧ JSObject.get name (mcpServers (fst st3))
          = JSObject.get name (mcpServers (fst st2))
      ∧ (∃ new, conflicts (snd st3) = conflicts (snd st2) ++ new
                ∧ Forall (λ c, serviceName c ≠ name) new)
      ∧ (∃ new, warnings (snd st3) = warnings (snd st2) ++ new)
      ∧ errors (snd st3) = errors (snd st2).
Proof.
  intros Hsource Hwfs Hwft. unfold wfConfig in Hwfs. rewrite Hsource in Hwfs.
  apply NoDup_keys_middle in Hwfs as [Hpre Hpost].
  rewrite mergeConfigs_unfold. unfold loopStateAfter.
  pose proof (mergeStart_servers source target options n) as Hservers.
  pose proof (mergeStart_result source target options n) as Hresult.
  destruct (mergeStart _ _ _ _ _ _) as [st0 n0]. simpl in Hservers, Hresult.
  rewrite Hsource, mergeLoop_app.
  pose proof (mergeLoop_frame clock options pre st0 n0) as Hframe1.
  destruct (mergeLoop clock options pre st0 n0) as [st1 n1].
  simpl in Hframe1. simpl. unfold cbind.
  destruct (mergeStep clock options st1 (name, svc) n1) as [st2 n2].
  pose proof (mergeLoop_frame clock options post st2 n2) as Hframe3.
  destruct (mergeLoop clock options post st2 n2) as [st3 n3].
  simpl in Hframe3.
  destruct Hframe1 as [Hget1 _ _ _ Herr1 _ _ (new1 & Hnew1 & Hall1 & _) _].
  destruct Hframe3 as [Hget3 _ _ _ Herr3 _ _ (new3 & Hnew3 & Hall3 & _) Hwarn3].
  split_and!.
  - rewrite Hget1, Hservers by done. by rewrite JSObjectFacts.copy_id.
  - rewrite Hnew1, Hresult. simpl. intros c Hc Hname.
    rewrite Forall_forall in Hall1. apply Hall1 in Hc. congruence.
  - by rewrite Herr1, Hresult.
  - exists st3. split_and!; [done | by apply Hget3 | | done | done].
    exists new3. split; [done|]. eapply Forall_impl; [done|].
    intros c Hc Hname. simpl in Hc. congruence.
Qed.

End MergeConfigsFacts.

Section SelfMerge.
Variable clock : nat → Z.
Variable Number : string → jsnum.

Lemma js_lt_irrefl (x : jsnum) : js_lt x x = false.
Proof.
  destruct x as [| | |q]; simpl; try done.
  apply negb_false_iff, Qle_bool_iff, Qle_refl.
Qed.

Lemma compareLoop_refl (parts : list jsnum) (i remaining : nat) :
  compareLoop parts parts i remaining = 0%Z.
Proof.
  revert i. induction remaining as [|r IH]; intros i; simpl; [done|].
  unfold js_gt. by rewrite js_lt_irrefl.
Qed.

Lemma compareVersions_refl (v : string) : compareVersions Number v v = 0%Z.
Proof. unfold compareVersions. apply compareLoop_refl. Qed.

Lemma adoptsSourceVersion_same (v : option string) :
  adoptsSourceVersion Number v v = false.
Proof.
  unfold adoptsSourceVersion. destruct v as [v|]; [|done].
  rewrite compareVersions_refl. by destruct v.
Qed.

Lemma agree_refl (s : MCPServiceConfig) : agree s s.
Proof. done. Qed.

Lemma spreadOver_same {A} (x : option A) : spreadOver x x = x.
Proof. by destruct x. Qed.

Lemma mergeMetadata_same (m : option (gmap string metaval)) (n : nat) :
  mergeMetadata clock m m n
  = match m with
    | Some m' => (Some (touch (clock n) m'), S n)
    | None => (None, n)
    end.
Proof.
  destruct m as [m'|]; [|done]. unfold mergeMetadata, cbind, cret. simpl.
  by rewrite (idemp_L (∪)).
Qed.

Lemma mergeServiceConfigs_same (s : MCPServiceConfig) (pm : bool) (n : nat) :
  mergeServiceConfigs clock s (Own s) pm n
  = if pm then touchService clock s n else (s, n).
Proof.
  unfold mergeServiceConfigs, touchService. rewrite !spreadOver_same.
  destruct s as [c a e d w t m]; simpl.
  destruct e as [e|]; simpl; rewrite ?(idemp_L (∪));
    (destruct pm; [|done]); unfold cbind; rewrite mergeMetadata_same;
    by destruct m.
Qed.

Lemma selfServices_cons pm name s rest n :
  selfServices clock pm ((name, s) :: rest) n
  = let (s', n') := mergeServiceConfigs clock s (Own s) pm n in
    let (rest', n'') := selfServices clock pm rest n' in
    ((name, s') :: rest', n'').
Proof.
  rewrite mergeServiceConfigs_same. unfold selfServices.
  destruct pm; simpl; [|done].
  destruct (touchService clock s n) as [s' n'].
  by destruct (touchServices clock rest n').
Qed.

Lemma get_middle (pre post : list (string * MCPServiceConfig)) name s :
  name ∉ JSObject.keys pre →
  JSObject.get name (pre ++ ((name, s) :: post)) = Some s.
Proof.
  induction pre as [|[k v] pre IH]; simpl.
  - intros _. by rewrite decide_True.
  - rewrite not_elem_of_cons. intros [Hne Hpre].
    rewrite decide_False by done. by apply IH.
Qed.

Lemma set_middle (pre post : list (string * MCPServiceConfig)) name s s' :
  name ∉ JSObject.keys pre →
  JSObject.set name s' (pre ++ ((name, s) :: post))
  = pre ++ ((name, s') :: post).
Proof.
  induction pre as [|[k v] pre IH]; simpl.
  - intros _. by rewrite decide_True.
  - rewrite not_elem_of_cons. intros [Hne Hpre].
    rewrite decide_False by done. by rewrite IH.
Qed.

Lemma mergeLoop_cons options entry rest st n :
  mergeLoop clock options (entry :: rest) st n
  = let (st', n') := mergeStep clock options st entry n in
    mergeLoop clock options rest st' n'.
Proof. done. Qed.

(** The loop of a self-merge, started on a working map whose entries
    [post] are still the source's: it rewrites them in place and detects
    no conflict. *)
Lemma mergeLoop_self options post :
  ∀ pre cfg res n,
    mcpServers cfg = pre ++ post →
    NoDup (JSObject.keys (pre ++ post)) →
    ∃ res',
      mergeLoop clock options post (cfg, res) n
      = ((withServers
            (pre ++ fst (selfServices clock (preserveMetadata options) post n)) cfg,
          res'),
         snd (selfServices clock (preserveMetadata options) post n))
      ∧ conflicts res' = conflicts res.
Proof.
  induction post as [|[name s] post IH]; intros pre cfg res n Hcfg Hnd.
  - exists res. split; [|done]. unfold selfServices. simpl.
    destruct (preserveMetadata options); simpl; rewrite <- Hcfg;
      by destruct cfg.
  - assert (Hpre : name ∉ JSObject.keys pre).
    { by apply NoDup_keys_middle in Hnd as [? _]. }
    rewrite mergeLoop_cons.
    rewrite (mergeStep_agree clock options cfg res name s s);
      [|rewrite Hcfg; by apply get_middle | apply agree_refl].
    rewrite selfServices_cons.
    destruct (mergeServiceConfigs clock s (Own s) (preserveMetadata options) n)
      as [s' n'].
    rewrite Hcfg, set_middle by done.
    destruct (IH (pre ++ [(name, s')])
                 (withServers (pre ++ ((name, s') :: post)) cfg)
                 (withStats (incUpdated (stats res)) res) n')
      as (res' & -> & Hconf).
    + simpl. by rewrite <- app_assoc.
    + rewrite <- app_assoc. simpl.
      unfold JSObject.keys in *. rewrite map_app in *. done.
    + exists res'. split; [|done].
      destruct (selfServices clock (preserveMetadata options) post n') as [post' n''].
      simpl. by rewrite <- app_assoc.
Qed.

(** C2, amended: merging a well-formed record into itself yields no
    conflict, whatever the options.  The merged record is the record
    itself when [preserveMetadata] is off; when it is on, it is the
    record with each metadata object it has, of the record and of each
    service, given the time of the merge as [lastModified]. *)
Theorem self_merge R options n :
  wfConfig R →
  let r := fst (mergeConfigs clock Number R R options n) in
  conflicts r = []
  ∧ config r
    = Some (if preserveMetadata options then touchRecord clock R n else R).
Proof.
  intros Hwf. cbv zeta. rewrite mergeConfigs_unfold.
  unfold mergeStart, cbind. rewrite adoptsSourceVersion_same.
  rewrite JSObjectFacts.copy_id by done.
  destruct (preserveMetadata options) eqn:Hpm.
  - rewrite mergeMetadata_same. unfold touchRecord.
    destruct (metadata R) as [m|] eqn:Hm; simpl.
    + edestruct (mergeLoop_self options (mcpServers R) []) as (res' & -> & Hconf);
        [reflexivity | done |].
      rewrite mergeFinish_conflicts, mergeFinish_config. simpl.
      rewrite Hconf, Hpm. done.
    + edestruct (mergeLoop_self options (mcpServers R) []) as (res' & -> & Hconf);
        [reflexivity | done |].
      rewrite mergeFinish_conflicts, mergeFinish_config. simpl.
      rewrite Hconf, Hpm. done.
  - simpl.
    edestruct (mergeLoop_self options (mcpServers R) []) as (res' & -> & Hconf);
      [reflexivity | done |].
    rewrite mergeFinish_conflicts, mergeFinish_config. simpl.
    rewrite Hconf, Hpm. split; [done|]. by destruct R.
Qed.
End SelfMerge.

(** ** The theorems at concrete records *)

Lemma wf_sampleSource : wfConfig sampleSource.
Proof. unfold wfConfig. compute_done. Defined.

Lemma wf_sampleTarget : wfConfig sampleTarget.
Proof. unfold wfConfig. compute_done. Defined.

Lemma sample_fs_differ :
  ¬ agree (plainService "node" ["b"]) (plainService "node" ["a"]).
Proof. intros (_ & Hargs & _). discriminate Hargs. Defined.

Lemma wf_stampedRecord : wfConfig stampedRecord.
Proof. unfold wfConfig. compute_done. Defined.

(** C2, as the specification states it, fails: with [preserveMetadata]
    on, the merged record of a self-merge has the time of the merge as
    [lastModified] where the record has another. *)
Lemma self_merge_touches_metadata :
  let r := fst (mergeConfigs sampleClock decimalNumber stampedRecord
                  stampedRecord keepMetadata 0) in
  ¬ (conflicts r = [] ∧ config r = Some stampedRecord).
Proof.
  intros r [_ Hconfig].
  assert (Hm : (config r ≫= metadata) ≫= (.!! "lastModified")
               = Some (MNum 1700000000000)) by (vm_compute; reflexivity).
  rewrite Hconfig in Hm. vm_compute in Hm. discriminate Hm.
Qed.

Lemma self_merge_witness :
  wfConfig stampedRecord
  ∧ let r := fst (mergeConfigs sampleClock decimalNumber stampedRecord
                    stampedRecord keepMetadata 0) in
    conflicts r = []
    ∧ config r = Some (touchRecord sampleClock stampedRecord 0).
Proof.
  split; [apply wf_stampedRecord|].
  apply (self_merge sampleClock decimalNumber stampedRecord keepMetadata 0
           wf_stampedRecord).
Defined.


(** ** The operations on the store *)

Module HeapFacts.

Lemma stable_refl h : stable h h.
Proof. split; [lia | done]. Qed.

Lemma stable_trans h1 h2 h3 : stable h1 h2 → stable h2 h3 → stable h1 h3.
Proof.
  intros [Hlen1 H1] [Hlen2 H2]. split; [lia|].
  intros l Hl. rewrite H2 by lia. by apply H1.
Qed.

Lemma stable_alloc h c : stable h (h ++ [c]).
Proof.
  split; [rewrite length_app; lia|]. intros l Hl. by apply lookup_app_l.
Qed.

(** A store into an object allocated since [h0]. *)
Lemma stable_store h0 h l c :
  stable h0 h → length h0 ≤ l → stable h0 (<[l := c]> h).
Proof.
  intros [Hlen H] Hl. split; [rewrite length_insert; lia|].
  intros l' Hl'. rewrite list_lookup_insert_ne by lia. by apply H.
Qed.

Lemma stable_stableExcept sl h h' : stable h h' → stableExcept sl h h'.
Proof. intros [Hlen H]. split; [done|]. intros l Hl _. by apply H. Qed.

Lemma stableExcept_refl sl h : stableExcept sl h h.
Proof. split; [lia | done]. Qed.

Lemma stableExcept_trans sl h1 h2 h3 :
  stableExcept sl h1 h2 → stableExcept sl h2 h3 → stableExcept sl h1 h3.
Proof.
  intros [Hlen1 H1] [Hlen2 H2]. split; [lia|].
  intros l Hl Hne. rewrite H2 by (done || lia). by apply H1.
Qed.

Lemma stableExcept_store sl h c : stableExcept sl h (<[sl := c]> h).
Proof.
  split; [by rewrite length_insert|].
  intros l Hl Hne. by apply list_lookup_insert_ne.
Qed.

(** What is stable except at a new location is stable. *)
Lemma stableExcept_fresh sl h0 h :
  stableExcept sl h0 h → length h0 ≤ sl → stable h0 h.
Proof.
  intros [Hlen H] Hsl. split; [done|]. intros l Hl. apply H; lia.
Qed.

(** *** Loading from a store that changed *)

Lemma stable_preserves h h' : stable h h' → preserves h h'.
Proof.
  intros [_ H] l c Hl _. rewrite H; [done|]. by eapply lookup_lt_Some.
Qed.

Lemma stableExcept_preserves sl h h' entries :
  stableExcept sl h h' → h !! sl = Some (CServers entries) → preserves h h'.
Proof.
  intros [_ H] Hsl l c Hl Hkind. rewrite H; [done | |].
  - by eapply lookup_lt_Some.
  - intros ->. rewrite Hsl in Hl. injection Hl as <-. by eapply Hkind.
Qed.

Lemma preserves_trans h1 h2 h3 : preserves h1 h2 → preserves h2 h3 → preserves h1 h3.
Proof. intros H1 H2 l c Hl Hkind. apply H2; [|done]. by apply H1. Qed.

Section Load.
Context (h h' : list cell).
Hypothesis Hpreserves : preserves h h'.

Lemma loadArray_preserved l v : loadArray h l = Some v → loadArray h' l = Some v.
Proof using Hpreserves.
  unfold loadArray. destruct (h !! l) as [[| | |items| |]|] eqn:Hl; try done.
  by rewrite (Hpreserves l (CArray items) Hl).
Qed.

Lemma loadEnv_preserved l v : loadEnv h l = Some v → loadEnv h' l = Some v.
Proof using Hpreserves.
  unfold loadEnv. destruct (h !! l) as [[| | | |vars|]|] eqn:Hl; try done.
  by rewrite (Hpreserves l (CEnv vars) Hl).
Qed.

Lemma loadMeta_preserved l v : loadMeta h l = Some v → loadMeta h' l = Some v.
Proof using Hpreserves.
  unfold loadMeta. destruct (h !! l) as [[| | | | |m]|] eqn:Hl; try done.
  by rewrite (Hpreserves l (CMeta m) Hl).
Qed.

Lemma loadOpt_preserved {K A} (load : list cell → K → option A) l v :
  (∀ l v, load h l = Some v → load h' l = Some v) →
  loadOpt load h l = Some v → loadOpt load h' l = Some v.
Proof.
  intros Hload. unfold loadOpt. destruct l as [l|]; [|done].
  destruct (load h l) as [x|] eqn:Hx; [|done].
  intros [= <-]. by rewrite (Hload _ _ Hx).
Qed.

Lemma loadService_preserved l v :
  loadService h l = Some v → loadService h' l = Some v.
Proof using Hpreserves.
  unfold loadService. destruct (h !! l) as [[| |s| | |]|] eqn:Hl; try done.
  rewrite (Hpreserves l (CService s) Hl) by done.
  destruct (loadOpt loadArray h (o_args s)) as [a|] eqn:Ha; [|done].
  destruct (loadOpt loadEnv h (o_env s)) as [e|] eqn:He; [|done].
  destruct (loadOpt loadMeta h (o_metadata s)) as [m|] eqn:Hm; [|done].
  intros [= <-].
  rewrite (loadOpt_preserved loadArray _ _ loadArray_preserved Ha).
  rewrite (loadOpt_preserved loadEnv _ _ loadEnv_preserved He).
  by rewrite (loadOpt_preserved loadMeta _ _ loadMeta_preserved Hm).
Qed.

Lemma loadEntries_preserved entries v :
  loadEntries h entries = Some v → loadEntries h' entries = Some v.
Proof using Hpreserves.
  revert v. induction entries as [|[name l] entries IH]; intros v; simpl; [done|].
  destruct (loadService h l) as [s|] eqn:Hs; [|done].
  destruct (loadEntries h entries) as [rest|]; [|done].
  intros [= <-]. rewrite (loadService_preserved _ _ Hs).
  by rewrite (IH rest).
Qed.

Lemma loadMember_preserved m v :
  loadMember h m = Some v → loadMember h' m = Some v.
Proof using Hpreserves.
  destruct m as [l|k]; simpl; [|done].
  destruct (loadService h l) as [s|] eqn:Hs; [|done].
  intros [= <-]. by rewrite (loadService_preserved _ _ Hs).
Qed.

Lemma loadConflict_preserved c v :
  loadConflict h c = Some v → loadConflict h' c = Some v.
Proof using Hpreserves.
  unfold loadConflict.
  destruct (loadService h (c_sourceConfig c)) as [s|] eqn:Hs; [|done].
  destruct (loadMember h (c_targetConfig c)) as [t|] eqn:Ht; [|done].
  destruct (loadService h (c_values c).1) as [vs|] eqn:Hvs; [|done].
  destruct (loadMember h (c_values c).2) as [vt|] eqn:Hvt; [|done].
  intros [= <-].
  by rewrite (loadService_preserved _ _ Hs), (loadMember_preserved _ _ Ht),
    (loadService_preserved _ _ Hvs), (loadMember_preserved _ _ Hvt).
Qed.

Lemma loadConflicts_preserved cs v :
  loadConflicts h cs = Some v → loadConflicts h' cs = Some v.
Proof using Hpreserves.
  revert v. induction cs as [|c cs IH]; intros v; simpl; [done|].
  destruct (loadConflict h c) as [c'|] eqn:Hc; [|done].
  destruct (loadConflicts h cs) as [rest|]; [|done].
  intros [= <-]. rewrite (loadConflict_preserved _ _ Hc). by rewrite (IH rest).
Qed.
End Load.

Lemma loadConfig_stable h h' l v :
  stable h h' → loadConfig h l = Some v → loadConfig h' l = Some v.
Proof.
  intros Hstable. pose proof (stable_preserves _ _ Hstable) as Hpreserves.
  destruct Hstable as [_ Hsame].
  unfold loadConfig, loadServers.
  destruct (h !! l) as [[c| | | | |]|] eqn:Hl; try done.
  rewrite Hsame, Hl by (by eapply lookup_lt_Some).
  destruct (h !! o_mcpServers c) as [[|entries| | | |]|] eqn:Hs; try done.
  rewrite Hsame, Hs by (by eapply lookup_lt_Some).
  destruct (loadEntries h entries) as [servers|] eqn:Hentries; [|done].
  destruct (loadOpt loadMeta h (o_cfgMetadata c)) as [m|] eqn:Hm; [|done].
  intros [= <-].
  rewrite (loadEntries_preserved h h' Hpreserves _ _ Hentries).
  by rewrite (loadOpt_preserved h h' loadMeta _ _
                (loadMeta_preserved h h' Hpreserves) Hm).
Qed.

(** *** Running the primitives *)

Lemma run_bind {A B} (m : Run A) (f : A → Run B) h n a h1 n1 :
  m h n = Some (a, h1, n1) → bind m f h n = f a h1 n1.
Proof. intros Hm. unfold bind. by rewrite Hm. Qed.

Lemma run_read l c h n : h !! l = Some c → read l h n = Some (c, h, n).
Proof. intros Hl. unfold read. by rewrite Hl. Qed.

Lemma run_readConfig l c h n :
  h !! l = Some (CConfig c) → readConfig l h n = Some (c, h, n).
Proof. intros Hl. unfold readConfig. by rewrite (run_bind _ _ _ _ _ _ _ (run_read _ _ _ n Hl)). Qed.

Lemma run_readServers l entries h n :
  h !! l = Some (CServers entries) → readServers l h n = Some (entries, h, n).
Proof. intros Hl. unfold readServers. by rewrite (run_bind _ _ _ _ _ _ _ (run_read _ _ _ n Hl)). Qed.

Lemma run_readService l s h n :
  h !! l = Some (CService s) → readService l h n = Some (s, h, n).
Proof. intros Hl. unfold readService. by rewrite (run_bind _ _ _ _ _ _ _ (run_read _ _ _ n Hl)). Qed.

Lemma run_store l c h n :
  l < length h → store l c h n = Some (tt, <[l := c]> h, n).
Proof. intros Hl. unfold store. by rewrite decide_True. Qed.

Lemma run_readEnvOpt l v h n :
  loadOpt loadEnv h l = Some v →
  readEnvOpt l h n = Some (spreadOpt v, h, n).
Proof.
  destruct l as [l|]; simpl; [|by intros [= <-]].
  unfold loadEnv. destruct (h !! l) as [[| | | |vars|]|] eqn:Hl; try done.
  intros [= <-]. by rewrite (run_bind _ _ _ _ _ _ _ (run_read _ _ _ n Hl)).
Qed.

Lemma run_readMetaOpt l v h n :
  loadOpt loadMeta h l = Some v →
  readMetaOpt l h n = Some (spreadOpt v, h, n).
Proof.
  destruct l as [l|]; simpl; [|by intros [= <-]].
  unfold loadMeta. destruct (h !! l) as [[| | | | |m]|] eqn:Hl; try done.
  intros [= <-]. by rewrite (run_bind _ _ _ _ _ _ _ (run_read _ _ _ n Hl)).
Qed.

(** What a descriptor that loads is made of. *)
Lemma loadService_inv h l v :
  loadService h l = Some v →
  ∃ s, h !! l = Some (CService s)
    ∧ command v = o_command s
    ∧ loadOpt loadArray h (o_args s) = Some (args v)
    ∧ loadOpt loadEnv h (o_env s) = Some (env v)
    ∧ disabled v = o_disabled s ∧ cwd v = o_cwd s ∧ timeout v = o_timeout s
    ∧ loadOpt loadMeta h (o_metadata s) = Some (svc_metadata v).
Proof.
  unfold loadService. destruct (h !! l) as [[| |s| | |]|] eqn:Hl; try done.
  destruct (loadOpt loadArray h (o_args s)) as [a|] eqn:Ha; [|done].
  destruct (loadOpt loadEnv h (o_env s)) as [e|] eqn:He; [|done].
  destruct (loadOpt loadMeta h (o_metadata s)) as [m|] eqn:Hm; [|done].
  intros [= <-]. exists s. done.
Qed.

(** What a lookup returned is made of: the properties of a descriptor, or
    none. *)
Lemma loadMember_inv h t tv :
  loadMember h t = Some tv →
  ∃ to, (∀ n, readMember t h n = Some (to, h, n))
    ∧ loadOpt loadArray h (JSObject.field o_args to)
      = Some (JSObject.field args tv)
    ∧ loadOpt loadEnv h (JSObject.field o_env to)
      = Some (JSObject.field env tv)
    ∧ JSObject.field disabled tv = JSObject.field o_disabled to
    ∧ JSObject.field cwd tv = JSObject.field o_cwd to
    ∧ JSObject.field timeout tv = JSObject.field o_timeout to
    ∧ loadOpt loadMeta h (JSObject.field o_metadata to)
      = Some (JSObject.field svc_metadata tv).
Proof.
  destruct t as [l|k]; simpl.
  - destruct (loadService h l) as [v|] eqn:Hv; [|done]. intros [= <-].
    destruct (loadService_inv _ _ _ Hv)
      as (o & Ho & Hc & Ha & He & Hd & Hw & Ht & Hm).
    exists (Own o). simpl. split_and!; try done.
    intros n. by rewrite (run_bind _ _ _ _ _ _ _ (run_readService _ _ _ n Ho)).
  - intros [= <-]. exists (Inherited k). done.
Qed.

Lemma loadOpt_present {K A} (load : list cell → K → option A) h l (v : option A) :
  loadOpt load h l = Some v → present l = present v.
Proof.
  destruct l as [l|]; simpl; [|by intros [= <-]].
  destruct (load h l); [|done]. by intros [= <-].
Qed.

Lemma loadOpt_spreadOver {K A} (load : list cell → K → option A) h a b av bv :
  loadOpt load h a = Some av → loadOpt load h b = Some bv →
  loadOpt load h (spreadOver a b) = Some (spreadOver av bv).
Proof.
  intros Ha Hb. destruct b as [b|]; simpl in *.
  - destruct (load h b); [|done]. by injection Hb as <-.
  - by injection Hb as <-.
Qed.

Lemma lookup_alloc h (c : cell) : (h ++ [c]) !! length h = Some c.
Proof. by rewrite lookup_app_r, Nat.sub_diag. Qed.

(** *** The functions on the store compute what the functions on values
    compute, and leave the objects of the store as they were *)

Section Simulation.
Variable clock : nat → Z.
Variable Number : string → jsnum.

Lemma mergeMetadata_sim s t sv tv h n :
  loadOpt loadMeta h s = Some sv → loadOpt loadMeta h t = Some tv →
  ∃ r h',
    Heap.mergeMetadata clock s t h n
      = Some (r, h', snd (mergeMetadata clock sv tv n))
    ∧ stable h h'
    ∧ loadOpt loadMeta h' r = Some (fst (mergeMetadata clock sv tv n))
    ∧ (∀ l, r = Some l → length h ≤ l).
Proof.
  intros Hs Ht.
  assert (Hsome : ∀ x, ∃ r h',
    (let! t' := readMetaOpt t in
     let! s' := readMetaOpt s in
     let! now := Heap.Date_now clock in
     let! l := alloc (CMeta (<["lastModified" := MNum now]> (s' ∪ t'))) in
     ret (Some l)) h n = Some (r, h', S n)
    ∧ stable h h'
    ∧ loadOpt loadMeta h' r
      = Some (Some (<["lastModified" := MNum (clock n)]>
                      (spreadOpt sv ∪ spreadOpt tv)))
    ∧ (∀ l, r = Some l → length h ≤ l) ∧ x = tt).
  { intros []. exists (Some (length h)). eexists.
    rewrite (run_bind _ _ _ _ _ _ _ (run_readMetaOpt _ _ _ n Ht)).
    rewrite (run_bind _ _ _ _ _ _ _ (run_readMetaOpt _ _ _ n Hs)).
    unfold bind, Heap.Date_now, alloc, ret. split_and!; [done | | | | done].
    - apply stable_alloc.
    - simpl. unfold loadMeta. by rewrite lookup_alloc.
    - by intros l [= <-]. }
  destruct (Hsome tt) as (r & h' & Hrun & Hstable & Hload & Hfresh & _).
  destruct s as [s|], t as [t|]; simpl in Hs, Ht.
  - destruct (loadMeta h s), (loadMeta h t); try done.
    injection Hs as <-. injection Ht as <-. by exists r, h'.
  - destruct (loadMeta h s); try done.
    injection Hs as <-. injection Ht as <-. by exists r, h'.
  - destruct (loadMeta h t); try done.
    injection Hs as <-. injection Ht as <-. by exists r, h'.
  - injection Hs as <-. injection Ht as <-. exists None, h.
    split_and!; [done | apply stable_refl | done | done].
Qed.

Lemma stable_app h ext : stable h (h ++ ext).
Proof.
  split; [rewrite length_app; lia|]. intros l Hl. by apply lookup_app_l.
Qed.

Lemma lookup_ext h (ext : list cell) k : (h ++ ext) !! (length h + k) = ext !! k.
Proof. rewrite lookup_app_r by lia. f_equal. lia. Qed.

Lemma insert_ext h (ext : list cell) c :
  0 < length ext → <[length h := c]> (h ++ ext) = h ++ <[0 := c]> ext.
Proof.
  intros Hext. rewrite insert_app_r_alt by lia. by rewrite Nat.sub_diag.
Qed.

(** The effect of [mergeMetadata] on the store: nothing, or one new object. *)
Lemma run_mergeMetadata s t sv tv h n :
  loadOpt loadMeta h s = Some sv → loadOpt loadMeta h t = Some tv →
  Heap.mergeMetadata clock s t h n
  = Some (match fst (mergeMetadata clock sv tv n) with
          | Some m => (Some (length h), h ++ [CMeta m], S n)
          | None => (None, h, n)
          end).
Proof.
  intros Hs Ht.
  assert (Hrun :
    (let! t' := readMetaOpt t in
     let! s' := readMetaOpt s in
     let! now := Heap.Date_now clock in
     let! l := alloc (CMeta (<["lastModified" := MNum now]> (s' ∪ t'))) in
     ret (Some l)) h n
    = Some (Some (length h),
            h ++ [CMeta (<["lastModified" := MNum (clock n)]>
                           (spreadOpt sv ∪ spreadOpt tv))], S n)).
  { rewrite (run_bind _ _ _ _ _ _ _ (run_readMetaOpt _ _ _ n Ht)).
    by rewrite (run_bind _ _ _ _ _ _ _ (run_readMetaOpt _ _ _ n Hs)). }
  destruct s as [s|], t as [t|]; simpl in Hs, Ht.
  - destruct (loadMeta h s), (loadMeta h t); try done.
    injection Hs as <-. injection Ht as <-. exact Hrun.
  - destruct (loadMeta h s); try done.
    injection Hs as <-. injection Ht as <-. exact Hrun.
  - destruct (loadMeta h t); try done.
    injection Hs as <-. injection Ht as <-. exact Hrun.
  - injection Hs as <-. injection Ht as <-. done.
Qed.

Lemma mergeMetadata_ticks sv tv n :
  snd (mergeMetadata clock sv tv n)
  = match fst (mergeMetadata clock sv tv n) with Some _ => S n | None => n end.
Proof. by destruct sv, tv. Qed.

(** The detector returns the value-level conflict on the loaded descriptors. *)
Lemma detectServiceConflict_sim name s t sv tv h n :
  loadService h s = Some sv → loadMember h t = Some tv →
  ∃ r,
    Heap.detectServiceConflict clock name s t h n
      = Some (r, h, snd (detectServiceConflict clock name sv tv n))
    ∧ loadOpt loadConflict h r
      = Some (fst (detectServiceConflict clock name sv tv n)).
Proof.
  intros Hs Ht. unfold Heap.detectServiceConflict, detectServiceConflict.
  unfold bind at 1, deepService at 1. rewrite Hs.
  unfold bind at 1, deepMember at 1. rewrite Ht.
  destruct (length (conflictingFields sv tv) =? 0).
  - exists None. done.
  - eexists. split; [reflexivity|]. simpl. unfold loadConflict. simpl.
    by rewrite Hs, Ht.
Qed.

(** The primitives on a store [h ++ ext], at the locations of [ext]. *)
Lemma run_alloc_ext h ext c n :
  alloc c (h ++ ext) n = Some (length h + length ext, h ++ (ext ++ [c]), n).
Proof. unfold alloc. by rewrite length_app, app_assoc. Qed.

Lemma run_readService_ext h ext k o n :
  ext !! k = Some (CService o) →
  readService (length h + k) (h ++ ext) n = Some (o, h ++ ext, n).
Proof. intros Hk. apply run_readService. by rewrite lookup_ext. Qed.

Lemma run_store_ext h ext k c n :
  k < length ext →
  store (length h + k) c (h ++ ext) n = Some (tt, h ++ <[k := c]> ext, n).
Proof.
  intros Hk. rewrite run_store by (rewrite length_app; lia).
  rewrite insert_app_r_alt by lia.
  by replace (length h + k - length h) with k by lia.
Qed.

Lemma run_readService_head h o rest n :
  readService (length h) (h ++ CService o :: rest) n
  = Some (o, h ++ CService o :: rest, n).
Proof.
  apply run_readService. rewrite <- (Nat.add_0_r (length h)).
  by rewrite lookup_ext.
Qed.

Lemma run_store_head h c0 rest c n :
  store (length h) c (h ++ c0 :: rest) n = Some (tt, h ++ c :: rest, n).
Proof.
  rewrite <- (Nat.add_0_r (length h)) at 1.
  by rewrite run_store_ext by (simpl; lia).
Qed.

Lemma loadOpt_ext {A} (load : list cell → loc → option A) h ext l v :
  (∀ h', preserves h h' → ∀ l v, load h l = Some v → load h' l = Some v) →
  loadOpt load h l = Some v → loadOpt load (h ++ ext) l = Some v.
Proof.
  intros Hload. apply loadOpt_preserved. apply Hload.
  apply stable_preserves, stable_app.
Qed.

Lemma loadArrayOpt_ext h ext l v :
  loadOpt loadArray h l = Some v → loadOpt loadArray (h ++ ext) l = Some v.
Proof. apply loadOpt_ext. intros h' H. by apply loadArray_preserved. Qed.

Lemma loadEnvOpt_ext h ext l v :
  loadOpt loadEnv h l = Some v → loadOpt loadEnv (h ++ ext) l = Some v.
Proof. apply loadOpt_ext. intros h' H. by apply loadEnv_preserved. Qed.

Lemma loadMetaOpt_ext h ext l v :
  loadOpt loadMeta h l = Some v → loadOpt loadMeta (h ++ ext) l = Some v.
Proof. apply loadOpt_ext. intros h' H. by apply loadMeta_preserved. Qed.

Lemma run_assignEnv h m0 rest so to es et n :
  loadOpt loadEnv h (o_env so) = Some es →
  loadOpt loadEnv h (JSObject.field o_env to) = Some et →
  Heap.assignEnv (length h) so to (h ++ CService m0 :: rest) n
  = Some (tt,
          if present es || present et
          then h ++ CService (Heap.withEnv (Some (length h + S (length rest))) m0)
                 :: rest ++ [CEnv (spreadOpt es ∪ spreadOpt et)]
          else h ++ CService m0 :: rest,
          n).
Proof.
  intros Hes Het. unfold Heap.assignEnv.
  rewrite (loadOpt_present _ _ _ _ Hes), (loadOpt_present _ _ _ _ Het).
  destruct (present es || present et); [|done].
  rewrite (run_bind _ _ _ _ _ _ _
             (run_readEnvOpt _ _ _ n (loadEnvOpt_ext _ _ _ _ Het))).
  rewrite (run_bind _ _ _ _ _ _ _
             (run_readEnvOpt _ _ _ n (loadEnvOpt_ext _ _ _ _ Hes))).
  rewrite (run_bind _ _ _ _ _ _ _ (run_alloc_ext _ _ _ _)). simpl.
  rewrite (run_bind _ _ _ _ _ _ _ (run_readService_head _ _ _ _)).
  by rewrite run_store_head.
Qed.

Lemma run_assignMetadata h m1 rest so to ms mt pm n :
  loadOpt loadMeta h (o_metadata so) = Some ms →
  loadOpt loadMeta h (JSObject.field o_metadata to) = Some mt →
  Heap.assignMetadata clock (length h) so to pm (h ++ CService m1 :: rest) n
  = Some (tt,
          if pm then
            match fst (mergeMetadata clock ms mt n) with
            | Some m =>
                h ++ CService (Heap.withMeta (Some (length h + S (length rest))) m1)
                  :: rest ++ [CMeta m]
            | None => h ++ CService (Heap.withMeta None m1) :: rest
            end
          else h ++ CService m1 :: rest,
          if pm then snd (mergeMetadata clock ms mt n) else n).
Proof.
  intros Hms Hmt. unfold Heap.assignMetadata. destruct pm; [|done].
  unfold bind at 1.
  rewrite (run_mergeMetadata _ _ _ _ _ n (loadMetaOpt_ext _ _ _ _ Hms)
             (loadMetaOpt_ext _ _ _ _ Hmt)).
  rewrite mergeMetadata_ticks.
  destruct (fst (mergeMetadata clock ms mt n)) as [m|].
  - rewrite <- app_assoc. simpl.
    rewrite (run_bind _ _ _ _ _ _ _ (run_readService_head _ _ _ _)).
    rewrite run_store_head, length_app. done.
  - rewrite (run_bind _ _ _ _ _ _ _ (run_readService_head _ _ _ _)).
    by rewrite run_store_head.
Qed.

Lemma loadService_head h o rest v :
  loadOpt loadArray (h ++ CService o :: rest) (o_args o) = Some (args v) →
  loadOpt loadEnv (h ++ CService o :: rest) (o_env o) = Some (env v) →
  loadOpt loadMeta (h ++ CService o :: rest) (o_metadata o)
    = Some (svc_metadata v) →
  command v = o_command o → disabled v = o_disabled o →
  cwd v = o_cwd o → timeout v = o_timeout o →
  loadService (h ++ CService o :: rest) (length h) = Some v.
Proof.
  intros Ha He Hm Hc Hd Hw Ht. unfold loadService.
  rewrite <- (Nat.add_0_r (length h)) at 1. rewrite lookup_ext. simpl.
  rewrite Ha, He, Hm, <- Hc, <- Hd, <- Hw, <- Ht. by destruct v.
Qed.

Lemma loadEnv_new h ext k u :
  ext !! k = Some (CEnv u) →
  loadOpt loadEnv (h ++ ext) (Some (length h + k)) = Some (Some u).
Proof. intros Hk. simpl. unfold loadEnv. by rewrite lookup_ext, Hk. Qed.

Lemma loadMeta_new h ext k m :
  ext !! k = Some (CMeta m) →
  loadOpt loadMeta (h ++ ext) (Some (length h + k)) = Some (Some m).
Proof. intros Hk. simpl. unfold loadMeta. by rewrite lookup_ext, Hk. Qed.

Lemma mergeServiceConfigs_sim s t sv tv pm h n :
  loadService h s = Some sv → loadMember h t = Some tv →
  ∃ ext,
    Heap.mergeServiceConfigs clock s t pm h n
      = Some (length h, h ++ ext, snd (mergeServiceConfigs clock sv tv pm n))
    ∧ loadService (h ++ ext) (length h)
      = Some (fst (mergeServiceConfigs clock sv tv pm n)).
Proof.
  intros Hs Ht.
  destruct (loadService_inv _ _ _ Hs)
    as (so & Hso & Hcs & Has & Hes & Hds & Hws & Hts & Hms).
  destruct (loadMember_inv _ _ _ Ht)
    as (to & Hto & Hat & Het & Hdt & Hwt & Htt & Hmt).
  unfold Heap.mergeServiceConfigs, mergeServiceConfigs.
  rewrite (run_bind _ _ _ _ _ _ _ (Hto n)).
  rewrite (run_bind _ _ _ _ _ _ _ (run_readService _ _ _ n Hso)).
  unfold bind at 1, alloc at 1.
  set (m0 := {| o_command := o_command so;
                o_args := spreadOver (JSObject.field o_args to) (o_args so) |}).
  rewrite (run_bind _ _ _ _ _ _ _ (run_assignEnv h m0 [] so to _ _ n Hes Het)).
  rewrite Hcs, Hds, Hdt, Hws, Hwt, Hts, Htt.
  pose proof (loadOpt_spreadOver _ _ _ _ _ _ Hat Has) as Hargs.
  pose proof (loadOpt_spreadOver _ _ _ _ _ _ Het Hes) as Henv.
  pose proof (loadOpt_spreadOver _ _ _ _ _ _ Hmt Hms) as Hmeta.
  destruct (present (env sv) || present (JSObject.field env tv)); simpl;
    rewrite (run_bind _ _ _ _ _ _ _
               (run_assignMetadata h _ _ so to _ _ pm n Hms Hmt));
    (destruct pm; unfold cbind; simpl;
     [rewrite (surjective_pairing
                 (mergeMetadata clock (svc_metadata sv)
                    (JSObject.field svc_metadata tv) n));
      destruct (fst (mergeMetadata clock (svc_metadata sv)
                       (JSObject.field svc_metadata tv) n))
        as [m|]; simpl|]);
    (eexists; split; [reflexivity|]; apply loadService_head; simpl; try done;
     first [ by apply loadArrayOpt_ext
           | by apply loadEnvOpt_ext
           | by apply loadMetaOpt_ext
           | by apply (loadEnv_new h (_ :: _) 1)
           | by apply (loadMeta_new h (_ :: _) 1)
           | by apply (loadMeta_new h (_ :: _) 2) ]).
Qed.

Lemma loadService_ext h ext l v :
  loadService h l = Some v → loadService (h ++ ext) l = Some v.
Proof. apply loadService_preserved, stable_preserves, stable_app. Qed.

Lemma mergeService_sim name s t sv tv options h n :
  loadService h s = Some sv → loadOpt loadMember h t = Some tv →
  ∃ r ext,
    Heap.mergeService clock name s t options h n
      = Some (r, h ++ ext, snd (mergeService clock name sv tv options n))
    ∧ loadServiceMerge (h ++ ext) r
      = Some (fst (mergeService clock name sv tv options n))
    ∧ (∀ c, r_config r = Some c → c = length h).
Proof.
  intros Hs Ht. unfold Heap.mergeService, mergeService.
  assert (Hcopy : ∀ n', ∃ ext,
    Heap.copyService s h n' = Some (length h, h ++ ext, n')
    ∧ loadService (h ++ ext) (length h) = Some sv).
  { intros n'. destruct (loadService_inv _ _ _ Hs) as (so & Hso & _).
    exists [CService so]. unfold Heap.copyService.
    rewrite (run_bind _ _ _ _ _ _ _ (run_readService _ _ _ n' Hso)).
    split; [done|]. apply loadService_ext with (ext := [CService so]) in Hs.
    unfold loadService in *. rewrite lookup_alloc.
    by rewrite lookup_app_l, Hso in Hs by (by eapply lookup_lt_Some). }
  destruct t as [t|]; simpl in Ht.
  - destruct (loadMember h t) as [tv'|] eqn:Htv; [|done]. injection Ht as <-.
    destruct (detectServiceConflict_sim name s t sv tv' h n Hs Htv)
      as (k & Hrun & Hload).
    rewrite (run_bind _ _ _ _ _ _ _ Hrun). unfold cbind.
    rewrite (surjective_pairing (detectServiceConflict clock name sv tv' n)).
    destruct k as [k|]; simpl in Hload;
      [destruct (loadConflict h k) as [kv|] eqn:Hk; [|done]|];
      injection Hload as Hkv; rewrite <- Hkv.
    + destruct (strategy options); simpl.
      * destruct (Hcopy (snd (detectServiceConflict clock name sv tv' n)))
          as (ext & Hc & Hl).
        rewrite (run_bind _ _ _ _ _ _ _ Hc). eexists. exists ext.
        split; [reflexivity|]. unfold loadServiceMerge. simpl.
        rewrite Hl. split; [done | by intros c [= <-]].
      * eexists. exists []. rewrite app_nil_r. split; [reflexivity|]. done.
      * destruct (mergeServiceConfigs_sim s t sv tv' (preserveMetadata options) h
                    (snd (detectServiceConflict clock name sv tv' n)) Hs Htv)
          as (ext & Hm & Hl).
        rewrite (run_bind _ _ _ _ _ _ _ Hm). eexists. exists ext.
        rewrite (surjective_pairing (mergeServiceConfigs clock sv tv' _ _)).
        split; [reflexivity|]. unfold loadServiceMerge. simpl.
        rewrite Hl. split; [done | by intros c [= <-]].
      * eexists. exists []. rewrite app_nil_r. split; [reflexivity|].
        unfold loadServiceMerge. simpl. rewrite Hk. done.
    + destruct (mergeServiceConfigs_sim s t sv tv' (preserveMetadata options) h
                  (snd (detectServiceConflict clock name sv tv' n)) Hs Htv)
        as (ext & Hm & Hl).
      rewrite (run_bind _ _ _ _ _ _ _ Hm). eexists. exists ext.
      rewrite (surjective_pairing (mergeServiceConfigs clock sv tv' _ _)).
      split; [reflexivity|]. unfold loadServiceMerge. simpl.
      rewrite Hl. split; [done | by intros c [= <-]].
  - injection Ht as <-. destruct (Hcopy n) as (ext & Hc & Hl).
    rewrite (run_bind _ _ _ _ _ _ _ Hc). eexists. exists ext.
    split; [reflexivity|]. unfold loadServiceMerge. simpl.
    rewrite Hl. split; [done | by intros c [= <-]].
Qed.

(** *** The services object *)

Lemma loadEntries_get h entries servers name :
  loadEntries h entries = Some servers →
  loadOpt loadService h (JSObject.get name entries)
  = Some (JSObject.get name servers).
Proof.
  revert servers. induction entries as [|[k l] entries IH]; intros servers; simpl.
  - by intros [= <-].
  - destruct (loadService h l) as [v|] eqn:Hv; [|done].
    destruct (loadEntries h entries) as [rest|]; [|done].
    intros [= <-]. simpl. case_decide; simpl; [by rewrite Hv | by apply IH].
Qed.

Lemma loadEntries_lookup h entries servers name :
  loadEntries h entries = Some servers →
  loadOpt loadMember h (JSObject.lookup name entries)
  = Some (JSObject.lookup name servers).
Proof.
  intros Hload. pose proof (loadEntries_get _ _ _ name Hload) as Hget.
  unfold JSObject.lookup.
  destruct (JSObject.get name entries) as [l|]; simpl in Hget |- *.
  - destruct (loadService h l) as [v|]; [|done]. by injection Hget as <-.
  - injection Hget as <-. by case_bool_decide.
Qed.

Lemma loadEntries_set h entries servers name c cv :
  loadEntries h entries = Some servers → loadService h c = Some cv →
  loadEntries h (JSObject.set name c entries)
  = Some (JSObject.set name cv servers).
Proof.
  intros Hentries Hc. revert servers Hentries.
  induction entries as [|[k l] entries IH]; intros servers; simpl.
  - intros [= <-]. simpl. by rewrite Hc.
  - destruct (loadService h l) as [v|] eqn:Hv; [|done].
    destruct (loadEntries h entries) as [rest|] eqn:Hrest; [|done].
    intros [= <-]. simpl. case_decide; simpl.
    + by rewrite Hc, Hrest.
    + by rewrite Hv, (IH rest).
Qed.

Lemma loadEntries_assign h entries servers name c cv :
  loadEntries h entries = Some servers → loadService h c = Some cv →
  loadEntries h (JSObject.assign name c entries)
  = Some (JSObject.assign name cv servers).
Proof.
  intros Hentries Hc. unfold JSObject.assign.
  pose proof (loadEntries_get _ _ _ name Hentries) as Hget.
  destruct (JSObject.get name entries) as [l|]; simpl in Hget.
  - destruct (loadService h l) as [v|]; [|done]. injection Hget as <-.
    by apply loadEntries_set.
  - injection Hget as <-. case_decide; [done | by apply loadEntries_set].
Qed.

Lemma loadEntries_spread h base extra basev extrav :
  loadEntries h base = Some basev → loadEntries h extra = Some extrav →
  loadEntries h (JSObject.spread base extra)
  = Some (JSObject.spread basev extrav).
Proof.
  revert base basev extrav.
  induction extra as [|[k l] extra IH]; intros base basev extrav Hbase; simpl.
  - by intros [= <-].
  - destruct (loadService h l) as [v|] eqn:Hv; [|done].
    destruct (loadEntries h extra) as [rest|] eqn:Hrest; [|done].
    intros [= <-]. unfold JSObject.spread. simpl.
    apply IH; [|done]. by apply loadEntries_set.
Qed.

Lemma loadEntries_copy h entries servers :
  loadEntries h entries = Some servers →
  loadEntries h (JSObject.copy entries) = Some (JSObject.copy servers).
Proof. by apply loadEntries_spread. Qed.

Lemma loadEntries_keys h entries servers :
  loadEntries h entries = Some servers →
  JSObject.keys entries = JSObject.keys servers.
Proof.
  revert servers. induction entries as [|[k l] entries IH]; intros servers; simpl.
  - by intros [= <-].
  - destruct (loadService h l) as [v|]; [|done].
    destruct (loadEntries h entries) as [rest|]; [|done].
    intros [= <-]. simpl. f_equal. by apply IH.
Qed.

Lemma loadConflicts_snoc h cs csv c cv :
  loadConflicts h cs = Some csv → loadConflict h c = Some cv →
  loadConflicts h (cs ++ [c]) = Some (csv ++ [cv]).
Proof.
  intros Hcs Hc. revert csv Hcs. induction cs as [|c0 cs IH]; intros csv; simpl.
  - intros [= <-]. simpl. by rewrite Hc.
  - destruct (loadConflict h c0) as [c0v|]; [|done].
    destruct (loadConflicts h cs) as [rest|]; [|done].
    intros [= <-]. by rewrite (IH rest).
Qed.

(** What a record that loads is made of. *)
Lemma loadConfig_inv h l v :
  loadConfig h l = Some v →
  ∃ cfg entries,
    h !! l = Some (CConfig cfg)
    ∧ h !! o_mcpServers cfg = Some (CServers entries)
    ∧ loadEntries h entries = Some (mcpServers v)
    ∧ version v = o_version cfg
    ∧ loadOpt loadMeta h (o_cfgMetadata cfg) = Some (metadata v)
    ∧ schema v = o_schema cfg.
Proof.
  unfold loadConfig, loadServers.
  destruct (h !! l) as [[cfg| | | | |]|] eqn:Hl; try done.
  destruct (h !! o_mcpServers cfg) as [[|entries| | | |]|] eqn:Hs; try done.
  destruct (loadEntries h entries) as [servers|] eqn:Hentries; [|done].
  destruct (loadOpt loadMeta h (o_cfgMetadata cfg)) as [m|] eqn:Hm; [|done].
  intros [= <-]. exists cfg, entries. done.
Qed.

Lemma loadConfig_intro h l cfg entries v :
  h !! l = Some (CConfig cfg) →
  h !! o_mcpServers cfg = Some (CServers entries) →
  loadEntries h entries = Some (mcpServers v) →
  version v = o_version cfg →
  loadOpt loadMeta h (o_cfgMetadata cfg) = Some (metadata v) →
  schema v = o_schema cfg →
  loadConfig h l = Some v.
Proof.
  intros Hl Hs Hentries Hv Hm Hsc. unfold loadConfig, loadServers.
  rewrite Hl, Hs, Hentries, Hm, <- Hv, <- Hsc. by destruct v.
Qed.

Lemma assignService_run sl h mergedConfig cfg entries name c n :
  h !! mergedConfig = Some (CConfig cfg) → o_mcpServers cfg = sl →
  h !! sl = Some (CServers entries) →
  Heap.assignService name c mergedConfig h n
  = Some (tt,
          match c with
          | Some c' => <[sl := CServers (JSObject.assign name c' entries)]> h
          | None => h
          end, n).
Proof.
  intros Hcfg <- Hsl. unfold Heap.assignService. destruct c as [c|]; [|done].
  rewrite (run_bind _ _ _ _ _ _ _ (run_readConfig _ _ _ n Hcfg)).
  rewrite (run_bind _ _ _ _ _ _ _ (run_readServers _ _ _ n Hsl)).
  apply run_store. by eapply lookup_lt_Some.
Qed.

Lemma assignService_load sl h mergedConfig cv name c cNew :
  (∃ cfg, h !! mergedConfig = Some (CConfig cfg) ∧ o_mcpServers cfg = sl) →
  loadConfig h mergedConfig = Some cv →
  loadOpt loadService h c = Some cNew →
  ∀ entries, h !! sl = Some (CServers entries) →
  let h' := match c with
            | Some c' => <[sl := CServers (JSObject.assign name c' entries)]> h
            | None => h
            end in
  stableExcept sl h h'
  ∧ (∃ cfg, h' !! mergedConfig = Some (CConfig cfg) ∧ o_mcpServers cfg = sl)
  ∧ loadConfig h' mergedConfig = Some (assignService name cNew cv).
Proof.
  intros (cfg & Hcfg & Hsl) Hload Hc entries Hentries.
  destruct c as [c|]; simpl in *.
  2: { injection Hc as <-. split_and!; [apply stableExcept_refl | eauto | done]. }
  destruct (loadService h c) as [cv'|] eqn:Hcv; [|done]. injection Hc as <-.
  pose proof (stableExcept_store sl h
                (CServers (JSObject.assign name c entries))) as Hstable.
  pose proof (stableExcept_preserves _ _ _ _ Hstable Hentries) as Hpreserves.
  destruct (loadConfig_inv _ _ _ Hload)
    as (cfg' & entries' & Hcfg' & Hsl' & Hload' & Hv & Hm & Hsc).
  rewrite Hcfg in Hcfg'. injection Hcfg' as <-. rewrite Hsl, Hentries in Hsl'.
  injection Hsl' as <-.
  assert (Hne : sl ≠ mergedConfig) by (intros ->; congruence).
  assert (Hcfg2 : <[sl := CServers (JSObject.assign name c entries)]> h
                    !! mergedConfig = Some (CConfig cfg)).
  { by rewrite list_lookup_insert_ne. }
  split_and!; [done | eauto |].
  apply (loadConfig_intro _ _ cfg (JSObject.assign name c entries)); simpl;
    [done | | | done | | done].
  - rewrite Hsl. apply list_lookup_insert_eq. by eapply lookup_lt_Some.
  - apply loadEntries_assign.
    + by apply (loadEntries_preserved h).
    + by apply (loadService_preserved h).
  - apply (loadOpt_preserved h _ loadMeta); [|done].
    intros l v. by apply loadMeta_preserved.
Qed.

(** *** The result object *)

Lemma loadResult_preserved h h' r v :
  preserves h h' → h_config r = None →
  loadResult h r = Some v → loadResult h' r = Some v.
Proof.
  intros Hpreserves Hnone. unfold loadResult. rewrite Hnone. simpl.
  destruct (loadConflicts h (h_conflicts r)) as [cs|] eqn:Hcs; [|done].
  by rewrite (loadConflicts_preserved h h' Hpreserves _ _ Hcs).
Qed.

Lemma loadResult_withStats h r v s :
  loadResult h r = Some v →
  loadResult h (Heap.withHStats s r) = Some (withStats s v).
Proof.
  unfold loadResult. simpl.
  destruct (loadOpt loadConfig h (h_config r)); [|done].
  destruct (loadConflicts h (h_conflicts r)); [|done]. by intros [= <-].
Qed.

Lemma loadResult_pushWarnings h r v ws :
  loadResult h r = Some v →
  loadResult h (Heap.pushHWarnings ws r) = Some (pushWarnings ws v).
Proof.
  unfold loadResult. simpl.
  destruct (loadOpt loadConfig h (h_config r)); [|done].
  destruct (loadConflicts h (h_conflicts r)); [|done]. by intros [= <-].
Qed.

Lemma loadResult_pushErrors h r v es :
  loadResult h r = Some v →
  loadResult h (Heap.pushHErrors es r) = Some (pushErrors es v).
Proof.
  unfold loadResult. simpl.
  destruct (loadOpt loadConfig h (h_config r)); [|done].
  destruct (loadConflicts h (h_conflicts r)); [|done]. by intros [= <-].
Qed.

Lemma loadResult_pushConflict h r v c cv :
  loadResult h r = Some v → loadConflict h c = Some cv →
  loadResult h (Heap.pushHConflict c r) = Some (pushConflict cv v).
Proof.
  unfold loadResult. simpl. intros Hr Hc.
  destruct (loadOpt loadConfig h (h_config r)); [|done].
  destruct (loadConflicts h (h_conflicts r)) as [cs|] eqn:Hcs; [|done].
  injection Hr as <-. by rewrite (loadConflicts_snoc _ _ _ _ _ Hcs Hc).
Qed.

Lemma loadResult_stats h r v : loadResult h r = Some v → stats v = h_stats r.
Proof.
  unfold loadResult.
  destruct (loadOpt loadConfig h (h_config r)); [|done].
  destruct (loadConflicts h (h_conflicts r)); [|done]. by intros [= <-].
Qed.

(** *** One iteration of the loop *)

Lemma mergeStep_sim sl options mergedConfig result st name l sv h n :
  simState sl h mergedConfig result st → loadService h l = Some sv →
  ∃ result' h',
    Heap.mergeStep clock options mergedConfig result (name, l) h n
      = Some (result', h', snd (mergeStep clock options st (name, sv) n))
    ∧ stableExcept sl h h'
    ∧ (∃ entries, h !! sl = Some (CServers entries))
    ∧ simState sl h' mergedConfig result'
        (fst (mergeStep clock options st (name, sv) n)).
Proof.
  intros [(cfg & Hcfg & Hsl) Hconfig Hnone Hresult] Hsv.
  destruct st as [cv rv]. simpl in Hconfig, Hresult.
  destruct (loadConfig_inv _ _ _ Hconfig)
    as (cfg' & entries & Hcfg' & Hentries & Hload & _).
  rewrite Hcfg in Hcfg'. injection Hcfg' as <-. rewrite Hsl in Hentries.
  unfold Heap.mergeStep, mergeStep.
  rewrite (run_bind _ _ _ _ _ _ _ (run_readConfig _ _ _ n Hcfg)), Hsl.
  rewrite (run_bind _ _ _ _ _ _ _ (run_readServers _ _ _ n Hentries)).
  destruct (mergeService_sim name l (JSObject.lookup name entries) sv
              (JSObject.lookup name (mcpServers cv)) options h n Hsv
              (loadEntries_lookup _ _ _ _ Hload))
    as (r & ext & Hrun & Hr & Hfresh).
  rewrite (run_bind _ _ _ _ _ _ _ Hrun). unfold cbind.
  rewrite (surjective_pairing (mergeService clock name sv _ options n)).
  set (rv' := fst (mergeService clock name sv
                     (JSObject.lookup name (mcpServers cv)) options n)) in *.
  set (n' := snd (mergeService clock name sv
                    (JSObject.lookup name (mcpServers cv)) options n)) in *.
  (* the store after [mergeService] *)
  pose proof (stable_app h ext) as Hstable.
  pose proof (stable_preserves _ _ Hstable) as Hpreserves.
  assert (Hcfg1 : (h ++ ext) !! mergedConfig = Some (CConfig cfg)).
  { rewrite lookup_app_l; [done | by eapply lookup_lt_Some]. }
  assert (Hentries1 : (h ++ ext) !! sl = Some (CServers entries)).
  { rewrite lookup_app_l; [done | by eapply lookup_lt_Some]. }
  pose proof (loadConfig_stable _ _ _ _ Hstable Hconfig) as Hconfig1.
  pose proof (loadResult_preserved _ _ _ _ Hpreserves Hnone Hresult) as Hresult1.
  unfold loadServiceMerge in Hr.
  destruct (loadOpt loadService (h ++ ext) (r_config r)) as [cNew|] eqn:HcNew;
    [|done].
  destruct (loadOpt loadConflict (h ++ ext) (r_conflict r)) as [kNew|] eqn:HkNew;
    [|done].
  injection Hr as Hr. rewrite <- Hr. simpl.
  rewrite (loadResult_stats _ _ _ Hresult).
  assert (Hwarn : ∀ (res : Result) resv h',
    h_config res = None → loadResult h' res = Some resv →
    h_config match r_warnings r with
             | Some ws => Heap.pushHWarnings ws res
             | None => res
             end = None
    ∧ loadResult h' match r_warnings r with
                    | Some ws => Heap.pushHWarnings ws res
                    | None => res
                    end
      = Some match r_warnings r with
             | Some ws => pushWarnings ws resv
             | None => resv
             end).
  { intros res resv h' Hn Hl. destruct (r_warnings r); [|done].
    split; [done | by apply loadResult_pushWarnings]. }
  destruct (r_conflict r) as [k|] eqn:Hk; simpl in HkNew.
  - (* a conflict is deferred *)
    destruct (loadConflict (h ++ ext) k) as [kv|] eqn:Hkv; [|done].
    injection HkNew as <-. simpl.
    eexists _, (h ++ ext). split; [reflexivity|].
    split; [by apply stable_stableExcept|]. split; [eauto|].
    edestruct Hwarn as [Hn Hl]; [| |split; [eauto | done | apply Hn | apply Hl]].
    + done.
    + apply loadResult_withStats. by apply loadResult_pushConflict.
  - injection HkNew as <-.
    destruct (assignService_load sl (h ++ ext) mergedConfig cv name (r_config r)
                cNew ltac:(eauto) Hconfig1 HcNew entries Hentries1)
      as (Hstable2 & Hcfg2 & Hconfig2).
    pose proof (assignService_run sl (h ++ ext) mergedConfig cfg entries name
                  (r_config r) n' Hcfg1 Hsl Hentries1) as Hassign.
    pose proof (stableExcept_preserves _ _ _ _ Hstable2 Hentries1) as Hpreserves2.
    destruct (r_action r); simpl.
    + unfold bind at 1. rewrite (run_bind _ _ _ _ _ _ _ Hassign).
      eexists _, _. split; [reflexivity|].
      split; [eapply stableExcept_trans;
                [by apply stable_stableExcept | exact Hstable2]|].
      split; [eauto|].
      edestruct Hwarn as [Hn Hl]; [| |split; [eauto | done | apply Hn | apply Hl]].
      * done.
      * apply loadResult_withStats.
        by apply (loadResult_preserved (h ++ ext)).
    + unfold bind at 1. rewrite (run_bind _ _ _ _ _ _ _ Hassign).
      eexists _, _. split; [reflexivity|].
      split; [eapply stableExcept_trans;
                [by apply stable_stableExcept | exact Hstable2]|].
      split; [eauto|].
      edestruct Hwarn as [Hn Hl]; [| |split; [eauto | done | apply Hn | apply Hl]].
      * done.
      * apply loadResult_withStats.
        by apply (loadResult_preserved (h ++ ext)).
    + eexists _, (h ++ ext). split; [reflexivity|].
      split; [by apply stable_stableExcept|]. split; [eauto|].
      edestruct Hwarn as [Hn Hl]; [| |split; [eauto | done | apply Hn | apply Hl]].
      * done.
      * by apply loadResult_withStats.
Qed.

(** *** The loop *)

Lemma mergeLoop_sim sl options mergedConfig entries :
  ∀ servers result st h n,
    simState sl h mergedConfig result st →
    loadEntries h entries = Some servers →
    ∃ result' h',
      Heap.mergeLoop clock options mergedConfig entries result h n
        = Some (result', h', snd (mergeLoop clock options servers st n))
      ∧ stableExcept sl h h'
      ∧ simState sl h' mergedConfig result'
          (fst (mergeLoop clock options servers st n)).
Proof.
  induction entries as [|[name l] entries IH];
    intros servers result st h n Hsim; simpl.
  - intros [= <-]. exists result, h.
    split_and!; [done | apply stableExcept_refl | done].
  - destruct (loadService h l) as [sv|] eqn:Hsv; [|done].
    destruct (loadEntries h entries) as [rest|] eqn:Hrest; [|done].
    intros [= <-]. simpl. unfold cbind.
    destruct (mergeStep_sim sl options mergedConfig result st name l sv h n
                Hsim Hsv) as (result1 & h1 & Hrun & Hstable & [es Hes] & Hsim1).
    rewrite (run_bind _ _ _ _ _ _ _ Hrun).
    rewrite (surjective_pairing (mergeStep clock options st (name, sv) n)).
    destruct (IH rest result1 (fst (mergeStep clock options st (name, sv) n)) h1
                (snd (mergeStep clock options st (name, sv) n)) Hsim1)
      as (result2 & h2 & Hrun2 & Hstable2 & Hsim2).
    { apply (loadEntries_preserved h); [|done].
      by eapply stableExcept_preserves. }
    exists result2, h2. split_and!; [done | | done].
    by eapply stableExcept_trans.
Qed.

(** *** Before and after the loop *)

Lemma run_readConfig_head h c rest n :
  readConfig (length h) (h ++ CConfig c :: rest) n
  = Some (c, h ++ CConfig c :: rest, n).
Proof.
  apply run_readConfig. rewrite <- (Nat.add_0_r (length h)).
  by rewrite lookup_ext.
Qed.

Lemma adoptsSourceVersion_load Sv Tv scfg tcfg :
  version Sv = o_version scfg → version Tv = o_version tcfg →
  adoptsSourceVersion Number (o_version scfg) (o_version tcfg)
  = adoptsSourceVersion Number (version Sv) (version Tv).
Proof. by intros -> ->. Qed.

(** [mergeStart] on the store; the services object of the new record holds
    the locations the services object of the target holds. *)
Lemma mergeStart_sim_entries source target Sv Tv options h n :
  loadConfig h source = Some Sv → loadConfig h target = Some Tv →
  ∃ result ext,
    Heap.mergeStart clock Number source target options h n
      = Some ((length h, result), h ++ ext,
              snd (mergeStart clock Number Sv Tv options n))
    ∧ simState (S (length h)) (h ++ ext) (length h) result
        (fst (mergeStart clock Number Sv Tv options n))
    ∧ ∃ tcfg tentries,
        h !! target = Some (CConfig tcfg)
        ∧ h !! o_mcpServers tcfg = Some (CServers tentries)
        ∧ (h ++ ext) !! S (length h)
          = Some (CServers (JSObject.copy tentries)).
Proof.
  intros HS HT.
  destruct (loadConfig_inv _ _ _ HS)
    as (scfg & sentries & Hscfg & Hsentries & Hsload & Hsv & Hsm & Hssc).
  destruct (loadConfig_inv _ _ _ HT)
    as (tcfg & tentries & Htcfg & Htentries & Htload & Htv & Htm & Htsc).
  unfold Heap.mergeStart.
  rewrite (run_bind _ _ _ _ _ _ _ (run_readConfig _ _ _ n Htcfg)).
  unfold bind at 1, alloc at 1.
  rewrite (run_bind _ _ _ _ _ _ _
             (run_readServers _ _ (h ++ [CConfig tcfg]) n
                (eq_trans (lookup_app_l _ _ _ (lookup_lt_Some _ _ _ Htentries))
                   Htentries))).
  rewrite (run_bind _ _ _ _ _ _ _ (run_alloc_ext _ _ _ _)). simpl.
  rewrite (run_bind _ _ _ _ _ _ _ (run_store_head _ _ _ _ _)).
  rewrite (run_bind _ _ _ _ _ _ _
             (run_readConfig _ _ (h ++ _) n
                (eq_trans (lookup_app_l _ _ _ (lookup_lt_Some _ _ _ Hscfg))
                   Hscfg))).
  rewrite (adoptsSourceVersion_load Sv Tv scfg tcfg Hsv Htv).
  set (servers := CServers (JSObject.copy tentries)).
  (* the record after the version is settled *)
  assert (Hversion : ∃ c1,
    (if adoptsSourceVersion Number (version Sv) (version Tv)
     then
       let! m := readConfig (length h) in
       store (length h) (CConfig {|
         o_mcpServers := o_mcpServers m; o_version := o_version scfg;
         o_cfgMetadata := o_cfgMetadata m; o_schema := o_schema m |})
     else ret tt)
      (h ++ [CConfig {| o_mcpServers := length h + 1;
                        o_version := o_version tcfg;
                        o_cfgMetadata := o_cfgMetadata tcfg;
                        o_schema := o_schema tcfg |}; servers]) n
    = Some (tt, h ++ [CConfig c1; servers], n)
    ∧ o_mcpServers c1 = length h + 1
    ∧ o_version c1
      = version (if adoptsSourceVersion Number (version Sv) (version Tv)
                 then withVersion (version Sv)
                        (withServers (JSObject.copy (mcpServers Tv)) Tv)
                 else withServers (JSObject.copy (mcpServers Tv)) Tv)
    ∧ o_cfgMetadata c1 = o_cfgMetadata tcfg
    ∧ o_schema c1 = schema Tv).
  { destruct (adoptsSourceVersion Number (version Sv) (version Tv)).
    - eexists. rewrite (run_bind _ _ _ _ _ _ _ (run_readConfig_head _ _ _ _)).
      rewrite run_store_head. simpl. by rewrite Hsv.
    - eexists. split; [reflexivity|]. simpl. by rewrite Htv. }
  destruct Hversion as (c1 & Hrun1 & Hsl1 & Hv1 & Hm1 & Hsc1).
  rewrite (run_bind _ _ _ _ _ _ _ Hrun1).
  (* the record after the metadata are settled *)
  assert (Hmetadata : ∃ c2 rest,
    (if preserveMetadata options
     then
       let! meta := Heap.mergeMetadata clock (o_cfgMetadata scfg)
                      (o_cfgMetadata tcfg) in
       let! m := readConfig (length h) in
       store (length h) (CConfig {|
         o_mcpServers := o_mcpServers m; o_version := o_version m;
         o_cfgMetadata := meta; o_schema := o_schema m |})
     else ret tt)
      (h ++ [CConfig c1; servers]) n
    = Some (tt, h ++ CConfig c2 :: servers :: rest,
            snd (mergeStart clock Number Sv Tv options n))
    ∧ o_mcpServers c2 = length h + 1
    ∧ o_version c2 = o_version c1
    ∧ o_schema c2 = o_schema c1
    ∧ loadOpt loadMeta (h ++ CConfig c2 :: servers :: rest) (o_cfgMetadata c2)
      = Some (metadata (fst (fst (mergeStart clock Number Sv Tv options n))))).
  { unfold mergeStart, cbind. destruct (preserveMetadata options).
    - unfold bind at 1.
      rewrite (run_mergeMetadata _ _ _ _ _ n
                 (loadMetaOpt_ext _ [CConfig c1; servers] _ _ Hsm)
                 (loadMetaOpt_ext _ [CConfig c1; servers] _ _ Htm)).
      rewrite (surjective_pairing (mergeMetadata clock (metadata Sv) (metadata Tv) n)),
        mergeMetadata_ticks.
      destruct (fst (mergeMetadata clock (metadata Sv) (metadata Tv) n)) as [m|];
        simpl.
      + rewrite <- app_assoc. simpl.
        rewrite (run_bind _ _ _ _ _ _ _ (run_readConfig_head _ _ _ _)).
        rewrite run_store_head. eexists _, [CMeta m].
        split_and!; [reflexivity | done..|].
        simpl. rewrite length_app. simpl.
        by apply (loadMeta_new h [_; _; _] 2).
      + rewrite (run_bind _ _ _ _ _ _ _ (run_readConfig_head _ _ _ _)).
        rewrite run_store_head. eexists _, [].
        split_and!; [reflexivity | done..].
    - simpl. exists c1, []. split_and!; [done..|].
      rewrite Hm1.
      destruct (adoptsSourceVersion Number (version Sv) (version Tv));
        by apply loadMetaOpt_ext. }
  destruct Hmetadata as (c2 & rest & Hrun2 & Hsl2 & Hv2 & Hsc2 & Hm2).
  rewrite (run_bind _ _ _ _ _ _ _ Hrun2).
  erewrite run_bind;
    [|apply run_readServers; rewrite lookup_app_l;
       [exact Hsentries | by eapply lookup_lt_Some]].
  eexists _, _. split; [reflexivity|].
  assert (Hstart : fst (mergeStart clock Number Sv Tv options n)
    = (fst (fst (mergeStart clock Number Sv Tv options n)),
       withStats (setTotal (length (JSObject.keys (mcpServers Sv))) zeroStats)
         emptyResult)).
  { unfold mergeStart, cbind.
    destruct (preserveMetadata options); [|done].
    by destruct (mergeMetadata clock (metadata Sv) (metadata Tv) n). }
  assert (Hfields : mcpServers (fst (fst (mergeStart clock Number Sv Tv options n)))
                    = JSObject.copy (mcpServers Tv)
    ∧ version (fst (fst (mergeStart clock Number Sv Tv options n)))
      = version (if adoptsSourceVersion Number (version Sv) (version Tv)
                 then withVersion (version Sv)
                        (withServers (JSObject.copy (mcpServers Tv)) Tv)
                 else withServers (JSObject.copy (mcpServers Tv)) Tv)
    ∧ schema (fst (fst (mergeStart clock Number Sv Tv options n))) = schema Tv).
  { unfold mergeStart, cbind.
    destruct (preserveMetadata options);
      [destruct (mergeMetadata clock (metadata Sv) (metadata Tv) n)|];
      by destruct (adoptsSourceVersion Number (version Sv) (version Tv)). }
  destruct Hfields as (Hf1 & Hf2 & Hf3).
  split.
  { rewrite Hstart. split; simpl.
    - exists c2. split; [|lia]. rewrite <- (Nat.add_0_r (length h)) at 1.
      by rewrite lookup_ext.
    - apply (loadConfig_intro _ _ c2 (JSObject.copy tentries)).
      + rewrite <- (Nat.add_0_r (length h)) at 1. by rewrite lookup_ext.
      + rewrite Hsl2. by rewrite lookup_ext.
      + rewrite Hf1. apply loadEntries_copy.
        apply (loadEntries_preserved h); [|done].
        apply stable_preserves, stable_app.
      + by rewrite Hf2, Hv2, Hv1.
      + done.
      + by rewrite Hf3, Hsc2, Hsc1.
    - done.
    - unfold loadResult. simpl. by rewrite (loadEntries_keys _ _ _ Hsload). }
  exists tcfg, tentries. split_and!; [done | done |].
  replace (S (length h)) with (length h + 1) by lia. by rewrite lookup_ext.
Qed.

Lemma mergeStart_sim source target Sv Tv options h n :
  loadConfig h source = Some Sv → loadConfig h target = Some Tv →
  ∃ result ext,
    Heap.mergeStart clock Number source target options h n
      = Some ((length h, result), h ++ ext,
              snd (mergeStart clock Number Sv Tv options n))
    ∧ simState (S (length h)) (h ++ ext) (length h) result
        (fst (mergeStart clock Number Sv Tv options n)).
Proof.
  intros HS HT.
  destruct (mergeStart_sim_entries source target Sv Tv options h n HS HT)
    as (result & ext & Hrun & Hsim & _).
  by exists result, ext.
Qed.

Lemma run_deepConfig l c h n :
  loadConfig h l = Some c → deepConfig l h n = Some (c, h, n).
Proof. intros Hl. unfold deepConfig. by rewrite Hl. Qed.

Lemma mergeFinish_sim options mergedConfig result cv rv h n :
  loadConfig h mergedConfig = Some cv → h_config result = None →
  loadResult h result = Some rv →
  ∃ r,
    Heap.mergeFinish options mergedConfig result h n = Some (r, h, n)
    ∧ loadResult h r = Some (mergeFinish options (cv, rv))
    ∧ h_config r = Some mergedConfig.
Proof.
  intros Hconfig Hnone Hresult. unfold Heap.mergeFinish, mergeFinish.
  assert (Hfields : ∀ r' rv', h_config r' = None → loadResult h r' = Some rv' →
    loadResult h {| h_success := length (h_errors r') =? 0;
                    h_config := Some mergedConfig;
                    h_conflicts := h_conflicts r'; h_errors := h_errors r';
                    h_warnings := h_warnings r'; h_stats := h_stats r' |}
    = Some {| success := length (errors rv') =? 0; config := Some cv;
              conflicts := conflicts rv'; errors := errors rv';
              warnings := warnings rv'; stats := stats rv' |}).
  { intros r' rv' Hn. unfold loadResult. rewrite Hn. simpl. rewrite Hconfig.
    destruct (loadConflicts h (h_conflicts r')); [|done]. by intros [= <-]. }
  destruct (validateResult options).
  - unfold bind at 1.
    rewrite (run_bind _ _ _ _ _ _ _ (run_deepConfig _ _ _ n Hconfig)).
    unfold bind, ret. eexists. split; [reflexivity|]. split; [|done].
    cbv beta iota zeta. apply Hfields; [by destruct (isValid _)|].
    apply loadResult_pushWarnings.
    destruct (isValid _); simpl; [done | by apply loadResult_pushErrors].
  - eexists. split; [reflexivity|]. split; [|done]. by apply Hfields.
Qed.

(** *** mergeConfigs *)

Lemma stable_then_except sl h h1 h2 :
  stable h h1 → stableExcept sl h1 h2 → length h ≤ sl → stable h h2.
Proof.
  intros [Hlen1 H1] [Hlen2 H2] Hsl. split; [lia|].
  intros l Hl. rewrite H2 by lia. by apply H1.
Qed.

Lemma mergeConfigs_sim source target Sv Tv options h n :
  loadConfig h source = Some Sv → loadConfig h target = Some Tv →
  ∃ r h',
    Heap.mergeConfigs clock Number source target options h n
      = Some (r, h', snd (mergeConfigs clock Number Sv Tv options n))
    ∧ stable h h'
    ∧ loadResult h' r = Some (fst (mergeConfigs clock Number Sv Tv options n))
    ∧ h_config r = Some (length h)
    ∧ ∃ cfg, h' !! length h = Some (CConfig cfg)
             ∧ o_mcpServers cfg = S (length h).
Proof.
  intros HS HT. unfold Heap.mergeConfigs, mergeConfigs, cbind.
  destruct (mergeStart_sim source target Sv Tv options h n HS HT)
    as (result0 & ext & Hrun0 & Hsim0).
  rewrite (run_bind _ _ _ _ _ _ _ Hrun0).
  rewrite (surjective_pairing (mergeStart clock Number Sv Tv options n)).
  pose proof (loadConfig_stable _ _ _ _ (stable_app h ext) HS) as HS0.
  destruct (loadConfig_inv _ _ _ HS0)
    as (scfg & sentries & Hscfg & Hsentries & Hsload & _).
  rewrite (run_bind _ _ _ _ _ _ _ (run_readConfig _ _ _ _ Hscfg)).
  rewrite (run_bind _ _ _ _ _ _ _ (run_readServers _ _ _ _ Hsentries)).
  simpl.
  destruct (mergeLoop_sim (S (length h)) options (length h) sentries
              (mcpServers Sv) result0
              (fst (mergeStart clock Number Sv Tv options n)) (h ++ ext)
              (snd (mergeStart clock Number Sv Tv options n)) Hsim0 Hsload)
    as (result1 & h1 & Hrun1 & Hstable1 & Hsim1).
  unfold JSObject.entries.
  rewrite (run_bind _ _ _ _ _ _ _ Hrun1).
  rewrite (surjective_pairing (mergeLoop clock options (mcpServers Sv) _ _)).
  destruct Hsim1 as [Hcfg1 Hconfig1 Hnone1 Hresult1].
  destruct (fst (mergeLoop clock options (mcpServers Sv) _ _)) as [cv1 rv1] eqn:Hst1.
  destruct (mergeFinish_sim options (length h) result1 cv1 rv1 h1
              (snd (mergeLoop clock options (mcpServers Sv)
                      (fst (mergeStart clock Number Sv Tv options n))
                      (snd (mergeStart clock Number Sv Tv options n))))
              Hconfig1 Hnone1 Hresult1) as (r & Hrun2 & Hload2 & Hconfig2).
  exists r, h1. simpl. split_and!; [done | | done | done | done].
  eapply stable_then_except; [apply stable_app | done | lia].
Qed.

(** *** mergeMultipleConfigs *)

Lemma mergeConfigs_value_config source target options n :
  ∃ c, config (fst (mergeConfigs clock Number source target options n)) = Some c.
Proof. rewrite mergeConfigs_unfold. destruct (mergeStart _ _ _ _ _ _). eexists. apply mergeFinish_config. Qed.

Lemma multiStep_runs options st next h n :
  (∃ v, loadConfig h (fst st) = Some v) →
  (∃ v, loadConfig h next = Some v) →
  ∃ st' h' n',
    Heap.multiStep clock Number options st next h n = Some (st', h', n')
    ∧ stable h h'
    ∧ ∃ v, loadConfig h' (fst st') = Some v.
Proof.
  destruct st as [result final]. intros [rv Hrv] [nv Hnv]. simpl in Hrv.
  destruct (mergeConfigs_sim next result nv rv options h n Hnv Hrv)
    as (r & h1 & Hrun & Hstable & Hload & Hconfig & _).
  unfold Heap.multiStep. rewrite (run_bind _ _ _ _ _ _ _ Hrun).
  rewrite Hconfig. unfold ret. eexists _, h1, _.
  split_and!; [reflexivity | done |]. simpl.
  unfold loadResult in Hload. rewrite Hconfig in Hload. simpl in Hload.
  destruct (loadConfig h1 (length h)) as [cv|]; [eauto | done].
Qed.

Lemma multiLoop_runs options rest :
  ∀ st h n,
    (∃ v, loadConfig h (fst st) = Some v) →
    Forall (λ l, ∃ v, loadConfig h l = Some v) rest →
    ∃ st' h' n',
      Heap.multiLoop clock Number options rest st h n = Some (st', h', n')
      ∧ stable h h'
      ∧ ∃ v, loadConfig h' (fst st') = Some v.
Proof.
  induction rest as [|next rest IH]; intros st h n Hst Hrest.
  - exists st, h, n. split_and!; [done | apply stable_refl | done].
  - apply Forall_cons in Hrest as [Hnext Hrest].
    destruct (multiStep_runs options st next h n Hst Hnext)
      as (st1 & h1 & n1 & Hrun & Hstable & Hst1).
    destruct (IH st1 h1 n1 Hst1) as (st' & h2 & n2 & Hrun2 & Hstable2 & Hv2).
    { eapply Forall_impl; [exact Hrest|]. intros l [v Hv]. exists v.
      by apply (loadConfig_stable h). }
    exists st', h2, n2. simpl. rewrite (run_bind _ _ _ _ _ _ _ Hrun).
    split_and!; [done | by eapply stable_trans | done].
Qed.

Lemma mergeMultipleConfigs_runs configs options h n :
  configs ≠ [] →
  Forall (λ l, ∃ v, loadConfig h l = Some v) configs →
  ∃ r h' n',
    Heap.mergeMultipleConfigs clock Number configs options h n
      = Some (inr r, h', n')
    ∧ stable h h'.
Proof.
  intros Hne Hall. destruct configs as [|first rest]; [done|].
  apply Forall_cons in Hall as [[fv Hfv] Hrest].
  destruct rest as [|second rest].
  - simpl. destruct (loadConfig_inv _ _ _ Hfv)
      as (cfg & entries & Hcfg & Hentries & _).
    rewrite (run_bind _ _ _ _ _ _ _ (run_readConfig _ _ _ n Hcfg)).
    rewrite (run_bind _ _ _ _ _ _ _ (run_readServers _ _ _ n Hentries)).
    eexists _, h, n. split; [reflexivity | apply stable_refl].
  - destruct (multiLoop_runs options (second :: rest)
                (first, {| h_success := true; h_config := Some first;
                           h_conflicts := []; h_errors := [];
                           h_warnings := []; h_stats := zeroStats |}) h n)
      as (st' & h' & n' & Hrun & Hstable & _); [eauto | done |].
    unfold Heap.mergeMultipleConfigs.
    rewrite (run_bind _ _ _ _ _ _ _ Hrun).
    eexists _, h', n'. split; [reflexivity | done].
Qed.

(** *** detectConflicts and analyzeDifferences *)

Lemma detectLoop_sim entries :
  ∀ servers targetEntries targetServers conflicts0 conflictsv h n,
    loadEntries h entries = Some servers →
    loadEntries h targetEntries = Some targetServers →
    loadConflicts h conflicts0 = Some conflictsv →
    ∃ cs,
      Heap.detectLoop clock entries targetEntries conflicts0 h n
        = Some (cs, h, snd (detectLoop clock servers targetServers conflictsv n))
      ∧ loadConflicts h cs
        = Some (fst (detectLoop clock servers targetServers conflictsv n)).
Proof.
  induction entries as [|[name l] entries IH];
    intros servers targetEntries targetServers conflicts0 conflictsv h n; simpl.
  - intros [= <-] _ Hcs. exists conflicts0. done.
  - destruct (loadService h l) as [sv|] eqn:Hsv; [|done].
    destruct (loadEntries h entries) as [rest|] eqn:Hrest; [|done].
    intros [= <-] Htarget Hcs. simpl.
    pose proof (loadEntries_lookup _ _ _ name Htarget) as Hget.
    destruct (JSObject.lookup name targetEntries) as [t|]; simpl in Hget.
    + destruct (loadMember h t) as [tv|] eqn:Htv; [|done].
      injection Hget as <-.
      destruct (detectServiceConflict_sim name l t sv tv h n Hsv Htv)
        as (k & Hrun & Hk).
      rewrite (run_bind _ _ _ _ _ _ _ Hrun). unfold cbind.
      rewrite (surjective_pairing (detectServiceConflict clock name sv tv n)).
      destruct k as [k|]; simpl in Hk.
      * destruct (loadConflict h k) as [kv|] eqn:Hkv; [|done].
        injection Hk as <-.
        apply IH; [done | done |]. by apply loadConflicts_snoc.
      * injection Hk as <-. by apply IH.
    + injection Hget as <-. by apply IH.
Qed.

Lemma detectConflicts_sim source target sourcev targetv h n :
  loadConfig h source = Some sourcev → loadConfig h target = Some targetv →
  ∃ cs,
    Heap.detectConflicts clock source target h n
      = Some (cs, h, snd (detectConflicts clock sourcev targetv n))
    ∧ loadConflicts h cs = Some (fst (detectConflicts clock sourcev targetv n)).
Proof.
  intros Hs Ht.
  destruct (loadConfig_inv _ _ _ Hs) as (scfg & sentries & Hscfg & Hse & Hsl & _).
  destruct (loadConfig_inv _ _ _ Ht) as (tcfg & tentries & Htcfg & Hte & Htl & _).
  unfold Heap.detectConflicts, detectConflicts.
  rewrite (run_bind _ _ _ _ _ _ _ (run_readConfig _ _ _ n Hscfg)).
  rewrite (run_bind _ _ _ _ _ _ _ (run_readServers _ _ _ n Hse)).
  rewrite (run_bind _ _ _ _ _ _ _ (run_readConfig _ _ _ n Htcfg)).
  rewrite (run_bind _ _ _ _ _ _ _ (run_readServers _ _ _ n Hte)).
  by apply detectLoop_sim.
Qed.

Lemma analyzeDifferences_sim config1 config2 v1 v2 h n :
  loadConfig h config1 = Some v1 → loadConfig h config2 = Some v2 →
  Heap.analyzeDifferences config1 config2 h n
  = Some (analyzeDifferences v1 v2, h, n).
Proof.
  intros H1 H2. unfold Heap.analyzeDifferences.
  rewrite (run_bind _ _ _ _ _ _ _ (run_deepConfig _ _ _ n H1)).
  by rewrite (run_bind _ _ _ _ _ _ _ (run_deepConfig _ _ _ n H2)).
Qed.
End Simulation.
End HeapFacts.

Section InputsNotMutated.
Variable clock : nat → Z.
Variable Number : string → jsnum.

(** C9, amended: no public operation changes an object that existed before
    the call.  On a store [h] in which the inputs are records, [mergeConfigs]
    returns, every object of [h] is in the store after the call as it was,
    so both input records load to the values they had, the result is the
    one computed on the values, and the merged record and its services
    object are objects created by the call; [mergeMultipleConfigs] on one
    record or more returns and leaves every object of [h] as it was;
    [detectConflicts] and [analyzeDifferences] return and leave the store
    as it is. *)
Theorem inputs_not_mutated (h : list cell) (n : nat) :
  (∀ source target sourcev targetv options,
     loadConfig h source = Some sourcev →
     loadConfig h target = Some targetv →
     ∃ r h' n',
       Heap.mergeConfigs clock Number source target options h n
         = Some (r, h', n')
       ∧ stable h h'
       ∧ loadConfig h' source = Some sourcev
       ∧ loadConfig h' target = Some targetv
       ∧ loadResult h' r
         = Some (fst (mergeConfigs clock Number sourcev targetv options n))
       ∧ ∃ c cfg, h_config r = Some c ∧ length h ≤ c
                  ∧ h' !! c = Some (CConfig cfg)
                  ∧ length h ≤ o_mcpServers cfg)
  ∧ (∀ configs options,
       configs ≠ [] →
       Forall (λ l, ∃ v, loadConfig h l = Some v) configs →
       ∃ r h' n',
         Heap.mergeMultipleConfigs clock Number configs options h n
           = Some (inr r, h', n')
         ∧ stable h h'
         ∧ Forall (λ l, loadConfig h' l = loadConfig h l) configs)
  ∧ (∀ source target sourcev targetv,
       loadConfig h source = Some sourcev →
       loadConfig h target = Some targetv →
       ∃ cs n',
         Heap.detectConflicts clock source target h n = Some (cs, h, n')
         ∧ loadConflicts h cs
           = Some (fst (detectConflicts clock sourcev targetv n)))
  ∧ (∀ config1 config2 v1 v2,
       loadConfig h config1 = Some v1 →
       loadConfig h config2 = Some v2 →
       Heap.analyzeDifferences config1 config2 h n
       = Some (analyzeDifferences v1 v2, h, n)).
Proof.
  split_and!.
  - intros source target sourcev targetv options Hs Ht.
    destruct (HeapFacts.mergeConfigs_sim clock Number source target
                sourcev targetv options h n Hs Ht)
      as (r & h' & Hrun & Hstable & Hload & Hconfig & cfg & Hcfg & Hservers).
    exists r, h', (snd (mergeConfigs clock Number sourcev targetv options n)).
    split_and!; try done.
    + by apply (HeapFacts.loadConfig_stable h).
    + by apply (HeapFacts.loadConfig_stable h).
    + exists (length h), cfg. split_and!; [done | lia | done | lia].
  - intros configs options Hne Hall.
    destruct (HeapFacts.mergeMultipleConfigs_runs clock Number configs
                options h n Hne Hall) as (r & h' & n' & Hrun & Hstable).
    exists r, h', n'. split_and!; [done | done |].
    eapply Forall_impl; [exact Hall|]. intros l [v Hv]. simpl.
    rewrite Hv. by apply (HeapFacts.loadConfig_stable h).
  - intros source target sourcev targetv Hs Ht.
    destruct (HeapFacts.detectConflicts_sim clock source target
                sourcev targetv h n Hs Ht) as (cs & Hrun & Hcs).
    by exists cs, (snd (detectConflicts clock sourcev targetv n)).
  - intros config1 config2 v1 v2 H1 H2.
    by apply HeapFacts.analyzeDifferences_sim.
Qed.
End InputsNotMutated.

(** C9, as stated: the record [mergeConfigs] returns is not a copy that
    shares nothing with its inputs.  Merging the record at 9 into the
    record at 3 of [sampleHeap], the merged record holds the descriptor
    object 1 of the target and refers to the argument array 6 of the
    source; and [mergeMultipleConfigs] on the one record at 3 returns the
    record at 3 itself. *)
Lemma merged_record_shares_objects :
  (∃ r h' n' c,
     Heap.mergeConfigs sampleClock decimalNumber 9 3 (plainOptions SKIP)
       sampleHeap 0 = Some (r, h', n')
     ∧ h_config r = Some c
     ∧ 1 ∈ configLocs sampleHeap 3 ∧ 1 ∈ configLocs h' c
     ∧ 6 ∈ configLocs sampleHeap 9 ∧ 6 ∈ configLocs h' c
     ∧ ¬ freshCopy sampleHeap h' c)
  ∧ (∃ r,
       Heap.mergeMultipleConfigs sampleClock decimalNumber [3]
         (plainOptions SKIP) sampleHeap 0 = Some (inr r, sampleHeap, 0)
       ∧ h_config r = Some 3).
Proof.
  split.
  - eexists _, _, _, _. split; [vm_compute; reflexivity|].
    split; [reflexivity|].
    assert (Hin : ∀ (x : nat) (l : list nat),
              bool_decide (x ∈ l) = true → x ∈ l).
    { intros x l. apply bool_decide_eq_true_1. }
    split_and!; try (apply Hin; vm_compute; reflexivity).
    intros Hfresh. specialize (Hfresh 1).
    assert (length sampleHeap ≤ 1) as Hle.
    { apply Hfresh. apply Hin. vm_compute. reflexivity. }
    simpl in Hle. lia.
  - eexists. split; [vm_compute; reflexivity | reflexivity].
Qed.

Lemma inputs_not_mutated_witness :
  loadConfig sampleHeap 9 = Some sampleSource
  ∧ loadConfig sampleHeap 3 = Some sampleTarget
  ∧ ∃ r h' n',
      Heap.mergeConfigs sampleClock decimalNumber 9 3 (plainOptions SKIP)
        sampleHeap 0 = Some (r, h', n')
      ∧ stable sampleHeap h'
      ∧ loadConfig h' 9 = Some sampleSource
      ∧ loadConfig h' 3 = Some sampleTarget
      ∧ loadResult h' r
        = Some (fst (mergeConfigs sampleClock decimalNumber sampleSource
                       sampleTarget (plainOptions SKIP) 0))
      ∧ ∃ c cfg, h_config r = Some c ∧ length sampleHeap ≤ c
                 ∧ h' !! c = Some (CConfig cfg)
                 ∧ length sampleHeap ≤ o_mcpServers cfg.
Proof.
  split; [reflexivity|]. split; [reflexivity|].
  apply (proj1 (inputs_not_mutated sampleClock decimalNumber sampleHeap 0)
           9 3 sampleSource sampleTarget (plainOptions SKIP));
    reflexivity.
Defined.

(** ** The loop of mergeConfigs as a whole

    Further properties of the merger, of the validation it calls and of
    the state of the configuration manager.  What is stated of the
    services of a merged record is stated by service name, not by the
    place of a name in the enumeration of the object, which for names
    that are array indices is not the order of insertion. *)

Section LoopOutcome.
Variable clock : nat → Z.
Variable Number : string → jsnum.

Lemma areServicesEqual_false (service1 service2 : MCPServiceConfig) :
  areServicesEqual service1 service2 = false ↔ ¬ agree service1 service2.
Proof.
  rewrite <- areServicesEqual_agree. by destruct (areServicesEqual _ _).
Qed.

Lemma NoDup_keys_set (o : list (string * MCPServiceConfig)) k v :
  NoDup (JSObject.keys o) → NoDup (JSObject.keys (JSObject.set k v o)).
Proof.
  intros Hnd. destruct (decide (k ∈ JSObject.keys o)) as [Hin|Hout].
  - by rewrite JSObjectFacts.keys_set_present.
  - rewrite JSObjectFacts.set_fresh by done. unfold JSObject.keys.
    rewrite map_app. simpl. apply NoDup_app. split_and!; [done | | ].
    + intros x Hx [->|[]]%list_elem_of_In. done.
    + apply NoDup_singleton.
Qed.

Lemma NoDup_keys_assign (o : list (string * MCPServiceConfig)) k v :
  NoDup (JSObject.keys o) → NoDup (JSObject.keys (JSObject.assign k v o)).
Proof.
  intros Hnd. destruct (JSObjectFacts.keys_assign o k v) as [-> | ->];
    [done | by apply NoDup_keys_set].
Qed.

(** The lookup finds something that differs, under [OVERWRITE]. *)
Lemma mergeStep_overwrite options mergedConfig result name serviceConfig target n :
  strategy options = OVERWRITE →
  JSObject.lookup name (mcpServers mergedConfig) = Some target →
  sameAs serviceConfig target = false →
  mergeStep clock options (mergedConfig, result) (name, serviceConfig) n
  = ((withServers (JSObject.assign name serviceConfig (mcpServers mergedConfig))
        mergedConfig,
      pushWarnings ["服务 " +:+ quoted name +:+ " 已被覆盖"]
        (withStats (incUpdated (stats result)) result)), S n).
Proof.
  intros Hstrategy Hget Hdiffer. unfold mergeStep, mergeService.
  rewrite Hget. unfold cbind.
  destruct (detectServiceConflict_other clock name serviceConfig target n Hdiffer)
    as (c & -> & _).
  by rewrite Hstrategy.
Qed.

(** The lookup finds something that differs, under [MERGE]. *)
Lemma mergeStep_merge options mergedConfig result name serviceConfig target n :
  strategy options = MERGE →
  JSObject.lookup name (mcpServers mergedConfig) = Some target →
  sameAs serviceConfig target = false →
  mergeStep clock options (mergedConfig, result) (name, serviceConfig) n
  = let (merged, n') :=
      mergeServiceConfigs clock serviceConfig target (preserveMetadata options)
        (S n) in
    ((withServers (JSObject.assign name merged (mcpServers mergedConfig))
        mergedConfig,
      pushWarnings ["强制合并服务 " +:+ quoted name +:+ "，可能存在配置冲突"]
        (withStats (incUpdated (stats result)) result)), n').
Proof.
  intros Hstrategy Hget Hdiffer. unfold mergeStep, mergeService.
  rewrite Hget. unfold cbind.
  destruct (detectServiceConflict_other clock name serviceConfig target n Hdiffer)
    as (c & -> & _).
  rewrite Hstrategy. by destruct (mergeServiceConfigs _ _ _ _ _).
Qed.

(** What a lookup returned and the own property of the name. *)
Lemma lookup_own (o : list (string * MCPServiceConfig)) k t :
  JSObject.lookup k o = Some t → JSObject.get k o = JSObject.own t.
Proof.
  destruct t as [v|k'].
  - apply JSObjectFacts.lookup_Own_inv.
  - intros (_ & Hkey & _)%JSObjectFacts.lookup_Inherited_inv.
    by apply JSObjectFacts.get_None.
Qed.

Lemma loopOutcome_nil options targetServices st :
  loopOutcome clock options targetServices [] st st.
Proof.
  split; simpl; try done.
  - destruct (writesClash _); lia.
  - destruct (bool_decide _); lia.
  - destruct (bool_decide _); lia.
  - by rewrite app_nil_r.
  - exists []. rewrite app_nil_r. split_and!; [done | by destruct (bool_decide _) | done].
  - intros name s Hin. by apply elem_of_nil in Hin.
Qed.

Lemma loopOutcome_cons options targetServices entry rest st1 st2 st3 :
  fst entry ∉ JSObject.keys rest →
  loopOutcome clock options targetServices [entry] st1 st2 →
  loopOutcome clock options targetServices rest st2 st3 →
  loopOutcome clock options targetServices (entry :: rest) st1 st3.
Proof.
  intros Hfresh H1 H2.
  assert (Hfilter : ∀ f : string * MCPServiceConfig → bool,
            List.filter f (entry :: rest)
            = List.filter f [entry] ++ List.filter f rest).
  { intros f. simpl. by destruct (f entry). }
  split.
  - rewrite (out_added _ _ _ _ _ _ H2), (out_added _ _ _ _ _ _ H1).
    rewrite (Hfilter (isNew _)), length_app. lia.
  - rewrite (out_updated _ _ _ _ _ _ H2), (out_updated _ _ _ _ _ _ H1).
    rewrite (Hfilter (agrees _)), (Hfilter (clashes _)), !length_app.
    destruct (writesClash _); lia.
  - rewrite (out_skipped _ _ _ _ _ _ H2), (out_skipped _ _ _ _ _ _ H1).
    rewrite (Hfilter (clashes _)), !length_app.
    destruct (bool_decide _); lia.
  - rewrite (out_conflict _ _ _ _ _ _ H2), (out_conflict _ _ _ _ _ _ H1).
    rewrite (Hfilter (clashes _)), !length_app.
    destruct (bool_decide _); lia.
  - by rewrite (out_total _ _ _ _ _ _ H2), (out_total _ _ _ _ _ _ H1).
  - rewrite (out_warnings _ _ _ _ _ _ H2), (out_warnings _ _ _ _ _ _ H1).
    by rewrite (Hfilter (clashes _)), flat_map_app, app_assoc.
  - destruct (out_conflicts _ _ _ _ _ _ H1) as (new1 & Hc1 & Hp1 & Hd1).
    destruct (out_conflicts _ _ _ _ _ _ H2) as (new2 & Hc2 & Hp2 & Hd2).
    exists (new1 ++ new2). split_and!.
    + by rewrite Hc2, Hc1, app_assoc.
    + rewrite map_app, Hp1, Hp2, (Hfilter (clashes _)), map_app.
      by destruct (bool_decide _).
    + by apply Forall_app.
  - by rewrite (out_errors _ _ _ _ _ _ H2), (out_errors _ _ _ _ _ _ H1).
  - by rewrite (out_version _ _ _ _ _ _ H2), (out_version _ _ _ _ _ _ H1).
  - by rewrite (out_metadata _ _ _ _ _ _ H2), (out_metadata _ _ _ _ _ _ H1).
  - by rewrite (out_schema _ _ _ _ _ _ H2), (out_schema _ _ _ _ _ _ H1).
  - intros name Hname. unfold JSObject.keys in Hname. simpl in Hname.
    apply not_elem_of_cons in Hname as [Hne Hrest].
    rewrite (out_frame _ _ _ _ _ _ H2) by done.
    apply (out_frame _ _ _ _ _ _ H1). unfold JSObject.keys. simpl.
    by intros [->|[]%elem_of_nil]%elem_of_cons.
  - intros name s [Heq|Hin]%elem_of_cons.
    + subst entry. rewrite (out_frame _ _ _ _ _ _ H2) by done.
      apply (out_entry _ _ _ _ _ _ H1). apply list_elem_of_here.
    + by apply (out_entry _ _ _ _ _ _ H2).
  - intros Hnd. by apply (out_nodup _ _ _ _ _ _ H2), (out_nodup _ _ _ _ _ _ H1).
Qed.

Local Ltac outcome_simpl HT Heq Hs :=
  unfold isNew, agrees, clashes, writesClash, clashWarnings,
    conflictParties, entryParties;
  simpl; rewrite ?HT, ?Heq, ?Hs; simpl.

Local Ltac outcome_easy Hframe Hframe' :=
  try done; try lia; try (by rewrite app_nil_r);
  try (by intros; apply Hframe); try (by intros; apply Hframe');
  try apply NoDup_keys_set; try apply NoDup_keys_assign;
  try (destruct (strategy _); simpl; lia);
  try (case_bool_decide; lia);
  try (exists []; rewrite app_nil_r; split_and!;
       [done | by try case_bool_decide | done]).

Lemma mergeStep_outcome options targetServices st name s n :
  JSObject.get name (mcpServers (fst st)) = JSObject.get name targetServices →
  loopOutcome clock options targetServices [(name, s)] st
    (fst (mergeStep clock options st (name, s) n)).
Proof.
  destruct st as [cfg res]. intros Hag. simpl in Hag.
  assert (Hframe : ∀ v name',
            name' ∉ JSObject.keys [(name, s)] →
            JSObject.get name' (JSObject.set name v (mcpServers cfg))
            = JSObject.get name' (mcpServers cfg)).
  { intros v name' Hname'. apply JSObjectFacts.get_set_ne.
    intros ->. apply Hname'. apply list_elem_of_here. }
  assert (Hframe' : ∀ v name',
            name' ∉ JSObject.keys [(name, s)] →
            JSObject.get name' (JSObject.assign name v (mcpServers cfg))
            = JSObject.get name' (mcpServers cfg)).
  { intros v name' Hname'. apply JSObjectFacts.get_assign_ne.
    intros ->. apply Hname'. apply list_elem_of_here. }
  pose proof (JSObjectFacts.lookup_get _ _ _ Hag) as Hlk.
  destruct (JSObject.lookup name targetServices) as [t|] eqn:HT.
  - assert (Hown : JSObject.get name (mcpServers cfg) = JSObject.own t).
    { rewrite Hag. by apply lookup_own. }
    destruct (sameAs s t) eqn:Heq.
    + rewrite (mergeStep_same clock _ _ _ _ _ _ _ Hlk Heq).
      destruct (mergeServiceConfigs clock s t (preserveMetadata options) n)
        as [m n'] eqn:Hm.
      split; outcome_simpl HT Heq Heq; outcome_easy Hframe Hframe'.
      intros name' s' [= -> ->]%list_elem_of_singleton.
      unfold resolved. rewrite HT, Heq. simpl.
      exists n. rewrite Hm, JSObjectFacts.get_set_eq.
      by destruct t.
    + destruct (strategy options) eqn:Hs.
      * rewrite (mergeStep_overwrite _ _ _ _ _ _ _ Hs Hlk Heq).
        split; outcome_simpl HT Heq Hs; outcome_easy Hframe Hframe'.
        intros name' s' [= -> ->]%list_elem_of_singleton.
        unfold resolved. rewrite HT, Heq, Hs. simpl.
        by apply JSObjectFacts.get_assigned.
      * rewrite (mergeStep_skip clock _ _ _ _ _ _ _ Hs Hlk Heq).
        split; outcome_simpl HT Heq Hs; outcome_easy Hframe Hframe'.
        intros name' s' [= -> ->]%list_elem_of_singleton.
        unfold resolved. by rewrite HT, Heq, Hs.
      * rewrite (mergeStep_merge _ _ _ _ _ _ _ Hs Hlk Heq).
        destruct (mergeServiceConfigs clock s t (preserveMetadata options) (S n))
          as [m n'] eqn:Hm.
        split; outcome_simpl HT Heq Hs; outcome_easy Hframe Hframe'.
        intros name' s' [= -> ->]%list_elem_of_singleton.
        unfold resolved. rewrite HT, Heq, Hs. simpl.
        exists (S n). rewrite Hm. by apply JSObjectFacts.get_assigned.
      * destruct (mergeStep_prompt clock _ _ res _ _ _ n Hs Hlk Heq)
          as (c & Hc & ->).
        destruct (detectServiceConflict_other clock name s t n Heq)
          as (c' & Hc' & Hname & Hsource & Htarget).
        assert (c' = c) as -> by congruence.
        split; outcome_simpl HT Heq Hs; outcome_easy Hframe Hframe'.
        -- exists [c]. split_and!; [done | | ].
           ++ simpl. by rewrite Hname, Hsource, Htarget, HT.
           ++ apply Forall_singleton. exists n.
              by rewrite Hname, Hsource, Htarget.
        -- intros name' s' [= -> ->]%list_elem_of_singleton.
           unfold resolved. by rewrite HT, Heq, Hs.
  - rewrite (mergeStep_absent clock _ _ _ _ _ _ Hlk).
    split; outcome_simpl HT HT HT; outcome_easy Hframe Hframe'.
    intros name' s' [= -> ->]%list_elem_of_singleton.
    unfold resolved. rewrite HT. by rewrite JSObjectFacts.get_set_eq.
Qed.

(** The loop on entries of distinct names, each of which the record under
    construction holds as the target does. *)
Lemma mergeLoop_outcome options targetServices entries :
  ∀ st n,
    NoDup (JSObject.keys entries) →
    (∀ name, name ∈ JSObject.keys entries →
       JSObject.get name (mcpServers (fst st))
       = JSObject.get name targetServices) →
    loopOutcome clock options targetServices entries st
      (fst (mergeLoop clock options entries st n)).
Proof.
  induction entries as [|[name s] rest IH]; intros st n Hnd Hag.
  - apply loopOutcome_nil.
  - unfold JSObject.keys in Hnd. simpl in Hnd. apply NoDup_cons in Hnd as [Hfresh Hnd].
    rewrite mergeLoop_cons.
    pose proof (mergeStep_outcome options targetServices st name s n) as Hstep.
    destruct (mergeStep clock options st (name, s) n) as [st1 n1].
    simpl in Hstep.
    eapply loopOutcome_cons; [done | apply Hstep | apply IH; [done|]].
    + apply Hag. apply list_elem_of_here.
    + intros name' Hname'.
      rewrite (out_frame _ _ _ _ _ _ (Hstep (Hag name (list_elem_of_here _ _)))).
      * apply Hag. by apply list_elem_of_further.
      * intros [->|[]%elem_of_nil]%elem_of_cons. done.
Qed.
End LoopOutcome.

(** ** mergeConfigs on well-formed records *)

Section MergeOutcome.
Variable clock : nat → Z.
Variable Number : string → jsnum.

Lemma get_of_elem (o : list (string * MCPServiceConfig)) k v :
  NoDup (JSObject.keys o) → (k, v) ∈ o → JSObject.get k o = Some v.
Proof.
  intros Hnd Hin. apply list_elem_of_split in Hin as (pre & post & ->).
  apply get_middle. by apply NoDup_keys_middle in Hnd as [? _].
Qed.

(** The whole merge: what the loop has done from the state [mergeStart]
    leaves, in which the services are those of the target. *)
Lemma mergeConfigs_outcome source target options n :
  wfConfig source → wfConfig target →
  ∃ st0 st,
    fst (mergeStart clock Number source target options n) = st0
    ∧ fst (mergeConfigs clock Number source target options n)
      = mergeFinish options st
    ∧ mcpServers (fst st0) = mcpServers target
    ∧ snd st0
      = withStats (setTotal (length (JSObject.keys (mcpServers source)))
                     zeroStats) emptyResult
    ∧ loopOutcome clock options (mcpServers target) (mcpServers source) st0 st.
Proof.
  intros Hsource Htarget.
  pose proof (mergeStart_servers clock Number source target options n) as Hservers.
  pose proof (mergeStart_result clock Number source target options n) as Hresult.
  rewrite mergeConfigs_unfold.
  destruct (mergeStart _ _ _ _ _ _) as [st0 n0]. simpl in *.
  rewrite JSObjectFacts.copy_id in Hservers by done.
  eexists st0, _. split_and!; [done | done | done | done |].
  apply mergeLoop_outcome; [done|]. intros name _. by rewrite Hservers.
Qed.

(** The merged record has the service, unless the lookup found a member
    of [Object.prototype] and either the strategy leaves what differs
    alone or the name is [__proto__]. *)
Lemma resolved_is_Some options s t v :
  resolved clock options s t v →
  (∀ k, t = Some (Inherited k) →
        k ≠ "__proto__" ∧ writesClash (strategy options) = true) →
  is_Some v.
Proof.
  unfold resolved. destruct t as [t|]; [|intros ->; eauto].
  destruct t as [t|k]; simpl.
  - intros Hv _.
    destruct (areServicesEqual s t || bool_decide (strategy options = MERGE)).
    + destruct Hv as [k ->]. eauto.
    + destruct (strategy options); rewrite Hv; eauto.
  - intros Hv Hwrites. destruct (Hwrites k eq_refl) as [Hk Hw].
    unfold JSObject.assigned in Hv.
    destruct (decide (k = "__proto__")) as [?|_]; [done|].
    destruct (strategy options); simpl in Hv, Hw; try done.
    destruct Hv as [k' ->]. eauto.
Qed.

(** A name the lookup finds on [Object.prototype] is no name of the merged
    record when the strategy leaves what differs alone, or when the name
    is [__proto__]. *)
Lemma resolved_Inherited options s k v :
  resolved clock options s (Some (Inherited k)) v →
  k = "__proto__" ∨ writesClash (strategy options) = false →
  v = None.
Proof.
  unfold resolved, JSObject.assigned. simpl. intros Hv [-> | Hw].
  - rewrite decide_True in Hv by done.
    destruct (strategy options); simpl in Hv; try done.
    by destruct Hv as [k' ->].
  - destruct (strategy options); simpl in *; done.
Qed.


(** The field-wise merge of descriptors that agree agrees with both. *)
Lemma mergeServiceConfigs_agree s t pm k :
  agree s t → agree s (fst (mergeServiceConfigs clock s (Own t) pm k)).
Proof.
  intros (Hcommand & Hargs & Henv & Hdisabled).
  unfold mergeServiceConfigs, cbind. simpl.
  assert (Hfields :
    agree s {|
      command := command s;
      args := spreadOver (args t) (args s);
      env := if present (env s) || present (env t)
             then Some (spreadOpt (env s) ∪ spreadOpt (env t))
             else spreadOver (env t) (env s);
      disabled := spreadOver (disabled t) (disabled s);
      cwd := spreadOver (cwd t) (cwd s);
      timeout := spreadOver (timeout t) (timeout s);
      svc_metadata := spreadOver (svc_metadata t) (svc_metadata s) |}).
  { unfold agree. simpl. rewrite <- Hargs, <- Henv, <- Hdisabled.
    rewrite !spreadOver_same. split_and!; try done.
    destruct (env s) as [e|]; [|done]. simpl.
    by rewrite (idemp (∪) e). }
  destruct pm; [destruct (mergeMetadata _ _ _ _)|];
    destruct (present (env s) || present (env t)); apply Hfields.
Qed.

(** The field-wise merge with a member of [Object.prototype] agrees with
    the descriptor of the source. *)
Lemma mergeServiceConfigs_Inherited s name pm k :
  agree s (fst (mergeServiceConfigs clock s (Inherited name) pm k)).
Proof.
  unfold mergeServiceConfigs, cbind. simpl.
  destruct pm; [destruct (mergeMetadata _ _ _ _)|];
    destruct s as [c a [e|] d w t m]; unfold agree; simpl;
    rewrite ?(right_id_L ∅ (∪)); split_and!; try done; by destruct a, d.
Qed.

(** The warnings and the errors [mergeFinish] adds are those of the
    validation of the merged record. *)
Lemma mergeFinish_warnings_eq options st :
  warnings (mergeFinish options st)
  = warnings (snd st)
    ++ (if validateResult options
        then map message (v_warnings (validateConfig (fst st))) else []).
Proof.
  destruct st as [c r]. simpl.
  destruct (validateResult options); [|by rewrite app_nil_r].
  by destruct (isValid _).
Qed.

Lemma validateConfigSync_isValid c :
  isValid (validateConfigSync c) = true ↔ v_errors (validateConfigSync c) = [].
Proof.
  unfold validateConfigSync. destruct (fold_left _ _ _) as [es ws]. simpl.
  rewrite Nat.eqb_eq. by destruct es.
Qed.

Lemma mergeFinish_errors_eq options st :
  errors (mergeFinish options st)
  = errors (snd st)
    ++ (if validateResult options
        then map message (v_errors (validateConfig (fst st))) else []).
Proof.
  destruct st as [c r]. simpl.
  destruct (validateResult options); [|by rewrite app_nil_r].
  destruct (isValid (validateConfig c)) eqn:Hvalid; simpl; [|done].
  apply validateConfigSync_isValid in Hvalid. unfold validateConfig.
  by rewrite Hvalid, app_nil_r.
Qed.

Lemma mergeFinish_success options st :
  success (mergeFinish options st)
  = bool_decide (errors (mergeFinish options st) = []).
Proof.
  destruct st as [c r]. unfold mergeFinish.
  set (r' := if validateResult options then _ else _). simpl.
  by destruct (errors r').
Qed.
End MergeOutcome.

Section MergeTheorems.
Variable clock : nat → Z.
Variable Number : string → jsnum.

Lemma elem_of_clashes (targetServices entries : list (string * MCPServiceConfig))
    name s t :
  (name, s) ∈ entries → JSObject.get name targetServices = Some t →
  ¬ agree s t → (name, s) ∈ List.filter (clashes targetServices) entries.
Proof.
  intros Hin Hget Hdiffer. apply elem_of_List_filter. split; [done|].
  unfold clashes. simpl. rewrite (JSObjectFacts.lookup_Own _ _ _ Hget).
  by apply negb_true_iff, areServicesEqual_false.
Qed.

Lemma elem_of_flat_map {A B} (f : A → list B) (l : list A) (x : A) (y : B) :
  x ∈ l → y ∈ f x → y ∈ flat_map f l.
Proof.
  intros Hx Hy. apply list_elem_of_In, in_flat_map. exists x.
  by rewrite <- !list_elem_of_In.
Qed.

(** X1: a merge never removes or renames a service.  The merged record
    is well formed and has every service of the target.  Its service
    names are those of the target and, of the names of the source the
    target lacks, those that [Object.prototype] does not have, and under
    the strategies that write what differs ([OVERWRITE] and [MERGE]) also
    those it has other than [__proto__]: the lookup of a name of
    [Object.prototype] finds the inherited member, the service is handled
    as one that differs, and an assignment to [__proto__] adds no
    property.  A service the source does not name is held as the target
    holds it, and the schema is the target's. *)
Theorem merged_services source target options n :
  wfConfig source → wfConfig target →
  ∃ c,
    config (fst (mergeConfigs clock Number source target options n)) = Some c
    ∧ wfConfig c
    ∧ (∀ name, name ∈ JSObject.keys (mcpServers target) →
               name ∈ JSObject.keys (mcpServers c))
    ∧ (∀ name, name ∈ JSObject.keys (mcpServers c) ↔
               name ∈ JSObject.keys (mcpServers target)
               ∨ (name ∈ JSObject.keys (mcpServers source)
                  ∧ ((name ∉ JSObject.prototypeKeys)
                     ∨ (name ≠ "__proto__"
                        ∧ writesClash (strategy options) = true))))
    ∧ (∀ name, name ∉ JSObject.keys (mcpServers source) →
               JSObject.get name (mcpServers c)
               = JSObject.get name (mcpServers target))
    ∧ schema c = schema target.
Proof.
  intros Hsource Htarget.
  destruct (mergeConfigs_outcome clock Number source target options n
              Hsource Htarget) as (st0 & st & Hst0 & -> & Hservers & _ & Hout).
  exists (fst st). rewrite mergeFinish_config.
  assert (Hframe : ∀ name, name ∉ JSObject.keys (mcpServers source) →
            JSObject.get name (mcpServers (fst st))
            = JSObject.get name (mcpServers target)).
  { intros name Hname. rewrite (out_frame _ _ _ _ _ _ Hout) by done.
    by rewrite Hservers. }
  assert (Hnames : ∀ name, name ∈ JSObject.keys (mcpServers (fst st)) ↔
            name ∈ JSObject.keys (mcpServers target)
            ∨ (name ∈ JSObject.keys (mcpServers source)
               ∧ ((name ∉ JSObject.prototypeKeys)
                  ∨ (name ≠ "__proto__"
                     ∧ writesClash (strategy options) = true)))).
  { intros name.
    destruct (decide (name ∈ JSObject.keys (mcpServers source))) as [Hin|Hout'].
    - apply JSObjectFacts.get_is_Some in Hin as Hs. destruct Hs as [s Hs].
      apply JSObjectFacts.get_elem_of in Hs.
      pose proof (out_entry _ _ _ _ _ _ Hout _ _ Hs) as Hres.
      destruct (JSObject.lookup name (mcpServers target)) as [[t|k]|] eqn:Hlk.
      + split; [intros _; left|intros _].
        * apply JSObjectFacts.lookup_Own_inv in Hlk.
          by eapply JSObjectFacts.get_Some_keys.
        * destruct (resolved_is_Some clock _ _ _ _ Hres) as [v Hv]; [done|].
          by eapply JSObjectFacts.get_Some_keys.
      + apply JSObjectFacts.lookup_Inherited_inv in Hlk as (-> & Hkey & Hproto).
        destruct (decide (name ≠ "__proto__"
                          ∧ writesClash (strategy options) = true))
          as [[Hne Hw]|Hnot].
        * split; [intros _; right; auto|intros _].
          destruct (resolved_is_Some clock _ _ _ _ Hres) as [v Hv];
            [by intros ? [= <-]|].
          by eapply JSObjectFacts.get_Some_keys.
        * split.
          -- intros [v Hv]%JSObjectFacts.get_is_Some. exfalso.
             rewrite (resolved_Inherited clock _ _ _ _ Hres) in Hv; [done|].
             destruct (decide (name = "__proto__")) as [|Hne]; [by left|].
             right. destruct (writesClash (strategy options)); [|done].
             by destruct Hnot.
          -- intros [?|[_ [?|?]]]; done.
      + apply JSObjectFacts.lookup_None in Hlk as [Hkey Hproto].
        split; [intros _; right; auto|intros _].
        destruct (resolved_is_Some clock _ _ _ _ Hres) as [v Hv]; [done|].
        by eapply JSObjectFacts.get_Some_keys.
    - split.
      + intros [v Hv]%JSObjectFacts.get_is_Some. left.
        rewrite Hframe in Hv by done. by eapply JSObjectFacts.get_Some_keys.
      + intros [Hin|[Hin _]]; [|done].
        apply JSObjectFacts.get_is_Some in Hin as [v Hv].
        rewrite <- Hframe in Hv by done. by eapply JSObjectFacts.get_Some_keys. }
  split_and!; [done | | | done | done |].
  - apply (out_nodup _ _ _ _ _ _ Hout). by rewrite Hservers.
  - intros name Hname. apply Hnames. by left.
  - rewrite (out_schema _ _ _ _ _ _ Hout), <- Hst0.
    unfold mergeStart, cbind.
    destruct (preserveMetadata options); [destruct (mergeMetadata _ _ _ _)|];
      simpl; by destruct (adoptsSourceVersion _ _ _).
Qed.


(** X3: a service the two records hold in agreement, under every strategy,
    and a service they both hold, under [MERGE], is written as the
    field-wise merge of the two descriptors; under [MERGE] one that
    differs leaves the warning of a forced merge. *)
Theorem fieldwise_merge source target options n name s t :
  wfConfig source → wfConfig target →
  JSObject.get name (mcpServers source) = Some s →
  JSObject.get name (mcpServers target) = Some t →
  agree s t ∨ strategy options = MERGE →
  let r := fst (mergeConfigs clock Number source target options n) in
  ∃ c k,
    config r = Some c
    ∧ JSObject.get name (mcpServers c)
      = Some (fst (mergeServiceConfigs clock s (Own t)
                     (preserveMetadata options) k))
    ∧ (¬ agree s t →
       "强制合并服务 " +:+ quoted name +:+ "，可能存在配置冲突" ∈ warnings r).
Proof.
  intros Hsource Htarget Hs Ht Hcase r.
  destruct (mergeConfigs_outcome clock Number source target options n
              Hsource Htarget) as (st0 & st & Hst0 & Hr & Hservers & Hres & Hout).
  subst r. rewrite Hr. clear Hr.
  apply JSObjectFacts.get_elem_of in Hs as Hin.
  pose proof (out_entry _ _ _ _ _ _ Hout _ _ Hin) as Hresolved.
  unfold resolved in Hresolved.
  rewrite (JSObjectFacts.lookup_Own _ _ _ Ht) in Hresolved. simpl in Hresolved.
  assert (areServicesEqual s t || bool_decide (strategy options = MERGE) = true)
    as Htrue.
  { destruct Hcase as [Hagree|Hmerge].
    - apply areServicesEqual_agree in Hagree. by rewrite Hagree.
    - rewrite (bool_decide_eq_true_2 _ Hmerge). apply orb_true_r. }
  rewrite Htrue in Hresolved. destruct Hresolved as [k Hv].
  exists (fst st), k. rewrite mergeFinish_config. split_and!; [done | done |].
  intros Hdiffer. destruct Hcase as [?|Hmerge]; [done|].
  destruct (mergeFinish_warnings options st) as [new ->].
  apply elem_of_app. left.
  rewrite (out_warnings _ _ _ _ _ _ Hout), Hres, Hmerge. simpl.
  eapply elem_of_flat_map.
  - by eapply elem_of_clashes.
  - apply list_elem_of_here.
Qed.

(** X4: the warnings of a merge of a source that names no service
    [__proto__] are, in the order of the source, one for each service for
    which the lookup of its name in the target returns something it
    differs from, a descriptor of the target or a member of
    [Object.prototype] (the warning of the strategy, none under
    [PROMPT]), followed by the warnings of the validation of the merged
    record when [validateResult] is on. *)
Theorem merge_warnings source target options n :
  wfConfig source → wfConfig target → plainNames source →
  let r := fst (mergeConfigs clock Number source target options n) in
  ∃ c,
    config r = Some c
    ∧ warnings r
      = flat_map (λ e, clashWarnings (strategy options) (fst e))
          (List.filter (clashes (mcpServers target)) (mcpServers source))
        ++ (if validateResult options
            then map message (v_warnings (validateConfig c)) else []).
Proof.
  intros Hsource Htarget _ r.
  destruct (mergeConfigs_outcome clock Number source target options n
              Hsource Htarget) as (st0 & st & Hst0 & Hr & Hservers & Hres & Hout).
  subst r. rewrite Hr. exists (fst st).
  rewrite mergeFinish_config, mergeFinish_warnings_eq.
  by rewrite (out_warnings _ _ _ _ _ _ Hout), Hres.
Qed.
End MergeTheorems.

(** ** analyzeDifferences and detectConflicts on the cases of the loop *)

Lemma includes_get (o : list (string * MCPServiceConfig)) k :
  JSObject.includes k (JSObject.keys o) = present (JSObject.get k o).
Proof.
  unfold JSObject.includes. destruct (JSObject.get k o) as [v|] eqn:Hget; simpl.
  - apply bool_decide_eq_true_2. by eapply JSObjectFacts.get_Some_keys.
  - apply bool_decide_eq_false_2. by apply JSObjectFacts.get_None.
Qed.

Lemma filter_map_fst {A B} (f : A → bool) (l : list (A * B)) :
  List.filter f (map fst l) = map fst (List.filter (λ e, f (fst e)) l).
Proof.
  induction l as [|e l IH]; [done|]. simpl.
  destruct (f (fst e)); simpl; by rewrite IH.
Qed.

(** The cases of the lookup and the cases of the own keys: an entry
    agrees when the own property agrees; it clashes when the own property
    differs, or when there is none and the name is inherited; it is new
    when there is none and the name is not inherited. *)
Lemma agrees_own (servers : list (string * MCPServiceConfig)) e :
  agrees servers e
  = match JSObject.get (fst e) servers with
    | Some t => areServicesEqual (snd e) t
    | None => false
    end.
Proof.
  unfold agrees, JSObject.lookup. destruct (JSObject.get _ _); [done|].
  by case_bool_decide.
Qed.

Lemma clashes_own (servers : list (string * MCPServiceConfig)) e :
  clashes servers e = differs servers e || (onlyOwn servers e && inherited (fst e)).
Proof.
  unfold clashes, differs, onlyOwn, inherited, JSObject.lookup.
  destruct (JSObject.get _ _); simpl; [by rewrite orb_false_r|].
  by case_bool_decide.
Qed.

Lemma isNew_own (servers : list (string * MCPServiceConfig)) e :
  isNew servers e = onlyOwn servers e && negb (inherited (fst e)).
Proof.
  unfold isNew, onlyOwn, inherited, JSObject.lookup.
  destruct (JSObject.get _ _); simpl; [done|].
  by case_bool_decide.
Qed.

Lemma classifyCommon_filters (servers1 servers2 es : list (string * MCPServiceConfig)) :
  ∀ different0 identical0,
    (∀ e, e ∈ es → JSObject.get (fst e) servers1 = Some (snd e)) →
    classifyCommon
      (map fst (List.filter
                  (λ e, JSObject.includes (fst e) (JSObject.keys servers2)) es))
      servers1 servers2 different0 identical0
    = Some (different0 ++ map fst (List.filter (differs servers2) es),
            identical0 ++ map fst (List.filter (agrees servers2) es)).
Proof.
  induction es as [|[name s] es IH]; intros different0 identical0 Hget.
  - simpl. by rewrite !app_nil_r.
  - assert (Hrest : ∀ e, e ∈ es → JSObject.get (fst e) servers1 = Some (snd e)).
    { intros e He. apply Hget. by apply list_elem_of_further. }
    pose proof (Hget (name, s) (list_elem_of_here _ _)) as Hs. simpl in Hs.
    simpl. rewrite includes_get, agrees_own. unfold differs. simpl.
    destruct (JSObject.get name servers2) as [t|] eqn:Ht; simpl.
    + rewrite Hs, Ht. destruct (areServicesEqual s t); simpl.
      * rewrite (IH _ _ Hrest). by rewrite <- app_assoc.
      * rewrite (IH _ _ Hrest). by rewrite <- app_assoc.
    + by apply IH.
Qed.

Lemma analyzeDifferences_filters (config1 config2 : MCPConfig) :
  wfConfig config1 →
  analyzeDifferences config1 config2
  = Some {|
      onlyInFirst :=
        map fst (List.filter (onlyOwn (mcpServers config2)) (mcpServers config1));
      onlyInSecond :=
        List.filter
          (λ name, negb (JSObject.includes name
                           (JSObject.keys (mcpServers config1))))
          (JSObject.keys (mcpServers config2));
      different :=
        map fst (List.filter (differs (mcpServers config2)) (mcpServers config1));
      identical :=
        map fst (List.filter (agrees (mcpServers config2)) (mcpServers config1))
    |}.
Proof.
  intros Hwf. unfold analyzeDifferences.
  assert (Hcommon :
    List.filter
      (λ name, JSObject.includes name (JSObject.keys (mcpServers config2)))
      (JSObject.keys (mcpServers config1))
    = map fst (List.filter
                 (λ e, JSObject.includes (fst e)
                         (JSObject.keys (mcpServers config2)))
                 (mcpServers config1))).
  { apply (filter_map_fst
             (λ name, JSObject.includes name (JSObject.keys (mcpServers config2)))). }
  assert (Honly :
    List.filter
      (λ name, negb (JSObject.includes name (JSObject.keys (mcpServers config2))))
      (JSObject.keys (mcpServers config1))
    = map fst (List.filter (onlyOwn (mcpServers config2)) (mcpServers config1))).
  { unfold JSObject.keys at 2.
    rewrite (filter_map_fst
               (λ name, negb (JSObject.includes name
                                (JSObject.keys (mcpServers config2))))).
    f_equal. apply List.filter_ext. intros e. by rewrite includes_get. }
  rewrite Hcommon, Honly, classifyCommon_filters; [done|].
  intros [name s] He. by apply get_of_elem.
Qed.

Section DetectFacts.
Variable clock : nat → Z.
Variable Number : string → jsnum.

Lemma detected_fields c :
  detected clock c →
  type c = "different-config" ∧ path c = EmptyString
  ∧ values c = (sourceConfig c, targetConfig c)
  ∧ sameAs (sourceConfig c) (targetConfig c) = false
  ∧ description c
    = "服务 " +:+ quoted (serviceName c) +:+ " 在以下字段存在冲突: "
      +:+ String.concat ", "
            (conflictingFields (sourceConfig c) (targetConfig c)).
Proof.
  intros [k Hk]. unfold detectServiceConflict, cbind, cret, Date_now in Hk.
  destruct (length (conflictingFields _ _) =? 0) eqn:Hlen; [done|].
  injection Hk as Hc. rewrite <- Hc. simpl. split_and!; try done.
  by rewrite <- conflictingFields_sameAs.
Qed.

Lemma detected_forgetId c c' :
  detected clock c → detected clock c' → conflictParties c = conflictParties c' →
  forgetId c = forgetId c'.
Proof.
  intros Hc Hc' [= Hname Hsource Htarget].
  destruct (detected_fields c Hc) as (Ht & Hp & Hv & _ & Hd).
  destruct (detected_fields c' Hc') as (Ht' & Hp' & Hv' & _ & Hd').
  unfold forgetId.
  by rewrite Ht, Ht', Hp, Hp', Hv, Hv', Hd, Hd', Hname, Hsource, Htarget.
Qed.

Lemma map_forgetId (cs cs' : list ConfigConflict) :
  Forall (detected clock) cs → Forall (detected clock) cs' →
  map conflictParties cs = map conflictParties cs' →
  map forgetId cs = map forgetId cs'.
Proof.
  revert cs'. induction cs as [|c cs IH]; intros [|c' cs'] Hcs Hcs' Hmap;
    try done.
  apply Forall_cons in Hcs as [Hc Hcs]. apply Forall_cons in Hcs' as [Hc' Hcs'].
  simpl in Hmap.
  assert (Hhead : conflictParties c = conflictParties c') by congruence.
  assert (Htail : map conflictParties cs = map conflictParties cs')
    by congruence.
  simpl. f_equal.
  - by apply detected_forgetId.
  - by apply IH.
Qed.

(** The loop of [detectConflicts]: a conflict for each entry for which the
    lookup returns something that differs, in order, at successive
    readings of the clock. *)
Lemma detectLoop_outcome targetServices entries :
  ∀ conflicts0 n,
    ∃ new,
      detectLoop clock entries targetServices conflicts0 n
        = (conflicts0 ++ new, n + length new)
      ∧ map conflictParties new
        = map (entryParties targetServices)
            (List.filter (clashes targetServices) entries)
      ∧ Forall (detected clock) new
      ∧ Forall (λ c, ∃ k, n ≤ k < n + length new
                  ∧ id c = "conflict_" +:+ serviceName c +:+ "_"
                           +:+ pretty (clock k)) new.
Proof.
  induction entries as [|[name s] entries IH]; intros conflicts0 n.
  - exists []. simpl. rewrite app_nil_r, Nat.add_0_r. done.
  - simpl. unfold clashes at 1. simpl.
    destruct (JSObject.lookup name targetServices) as [t|] eqn:Ht; [|apply IH].
    unfold cbind.
    destruct (detectServiceConflict_cases clock name s t n)
      as [[Hsame ->]|(Hdiffer & c & Hc & Hname & Hs & Htarget)].
    + rewrite Hsame. simpl. apply IH.
    + rewrite Hc, Hdiffer. simpl.
      destruct (IH (conflicts0 ++ [c]) (S n)) as (new & -> & Hparties & Hd & Hid).
      exists (c :: new). split_and!.
      * rewrite <- app_assoc. simpl. f_equal. lia.
      * simpl. rewrite Hparties. f_equal. unfold conflictParties, entryParties.
        simpl. by rewrite Hname, Hs, Htarget, Ht.
      * apply Forall_cons. split; [|done]. exists n.
        by rewrite Hname, Hs, Htarget.
      * apply Forall_cons. split.
        -- exists n. split; [simpl; lia|].
           unfold detectServiceConflict, cbind, cret, Date_now in Hc.
           destruct (length (conflictingFields s t) =? 0); [done|].
           injection Hc as <-. done.
        -- eapply Forall_impl; [exact Hid|]. simpl.
           intros c' (k & Hk & Hidc). exists k. split; [lia | done].
Qed.

(** A conflict the loop reports is about an entry of the source, with what
    the lookup of its name returned in the target. *)
Lemma parties_entry targetServices entries (cs : list ConfigConflict) c :
  map conflictParties cs
  = map (entryParties targetServices)
      (List.filter (clashes targetServices) entries) →
  c ∈ cs →
  (serviceName c, sourceConfig c) ∈ entries
  ∧ JSObject.lookup (serviceName c) targetServices = Some (targetConfig c).
Proof.
  intros Hmap Hc.
  assert (Hin : conflictParties c ∈ map conflictParties cs).
  { apply list_elem_of_fmap. by exists c. }
  rewrite Hmap in Hin. apply list_elem_of_fmap in Hin as ([name s] & Heq & He).
  apply elem_of_List_filter in He as [He _].
  unfold conflictParties, entryParties in Heq. simpl in Heq.
  injection Heq as Hname Hsource Htarget.
  by rewrite Hname, Hsource, Htarget.
Qed.

(** X5: [detectConflicts] returns, in the order of the source, one conflict
    for each service of the source whose name the lookup finds in the
    target with something that differs, and nothing else: a descriptor of
    the target with another [command], [args], [env] or [disabled], or,
    for a name the target lacks and [Object.prototype] has, the inherited
    member.  A conflict names the service and holds the descriptor of the
    source and what the lookup returned; its type is
    ["different-config"], its path is empty, its identifier holds the
    name and the time, and the clock is read once for each conflict. *)
Theorem detectConflicts_report source target n :
  let '(cs, n') := detectConflicts clock source target n in
  map conflictParties cs
  = map (entryParties (mcpServers target))
      (List.filter (clashes (mcpServers target)) (mcpServers source))
  ∧ n' = n + length cs
  ∧ Forall (λ c,
      type c = "different-config" ∧ path c = EmptyString
      ∧ values c = (sourceConfig c, targetConfig c)
      ∧ (serviceName c, sourceConfig c) ∈ mcpServers source
      ∧ match targetConfig c with
        | Own t =>
            JSObject.get (serviceName c) (mcpServers target) = Some t
            ∧ ¬ agree (sourceConfig c) t
        | Inherited k =>
            k = serviceName c
            ∧ (k ∉ JSObject.keys (mcpServers target))
            ∧ k ∈ JSObject.prototypeKeys
        end
      ∧ ∃ k, n ≤ k < n'
             ∧ id c = "conflict_" +:+ serviceName c +:+ "_" +:+ pretty (clock k))
      cs.
Proof.
  unfold detectConflicts, JSObject.entries.
  destruct (detectLoop_outcome (mcpServers target) (mcpServers source) [] n)
    as (new & -> & Hparties & Hdetected & Hid).
  simpl. split_and!; [done | done |].
  apply Forall_forall. intros c Hc.
  rewrite Forall_forall in Hdetected. rewrite Forall_forall in Hid.
  destruct (detected_fields c (Hdetected c Hc)) as (? & ? & ? & Hsame & _).
  destruct (parties_entry _ _ _ _ Hparties Hc) as [Hentry Hlookup].
  split_and!; try done; [|by apply Hid].
  destruct (targetConfig c) as [t|k].
  - split; [by apply JSObjectFacts.lookup_Own_inv|].
    by apply sameAs_Own_false.
  - apply JSObjectFacts.lookup_Inherited_inv in Hlookup as (-> & ? & ?).
    done.
Qed.

(** X6: the services [detectConflicts] reports are, in the order of the
    source, those [analyzeDifferences] lists as different and those it
    lists as only in the source whose name [Object.prototype] has:
    [analyzeDifferences] compares own keys, the lookup of
    [detectConflicts] also finds inherited members.  When no service
    that only the source names has such a name, the two reports are the
    same. *)
Theorem detectConflicts_different source target n :
  wfConfig source →
  ∃ d, analyzeDifferences source target = Some d
    ∧ map serviceName (fst (detectConflicts clock source target n))
      = List.filter
          (λ name, bool_decide (name ∈ different d)
                   || (bool_decide (name ∈ onlyInFirst d) && inherited name))
          (JSObject.keys (mcpServers source))
    ∧ (Forall (λ name, name ∉ JSObject.prototypeKeys) (onlyInFirst d) →
       map serviceName (fst (detectConflicts clock source target n))
       = different d).
Proof.
  intros Hwf. rewrite analyzeDifferences_filters by done.
  eexists. split; [done|]. simpl.
  unfold detectConflicts, JSObject.entries.
  destruct (detectLoop_outcome (mcpServers target) (mcpServers source) [] n)
    as (new & -> & Hparties & _).
  simpl.
  assert (Hmap : map (λ p : string * MCPServiceConfig
                            * option (JSObject.member MCPServiceConfig),
                        fst (fst p)) (map conflictParties new)
                 = map serviceName new).
  { rewrite map_map. done. }
  rewrite <- Hmap, Hparties, map_map. simpl.
  assert (Hin : ∀ (f : string * MCPServiceConfig → bool) e,
            e ∈ mcpServers source →
            bool_decide (fst e ∈ map fst (List.filter f (mcpServers source)))
            = f e).
  { intros f [name s] He. simpl. destruct (f (name, s)) eqn:Hf.
    - apply bool_decide_eq_true_2, list_elem_of_fmap. exists (name, s).
      split; [done|]. by apply elem_of_List_filter.
    - apply bool_decide_eq_false_2.
      intros ([name' s'] & Hname & [He' Hf']%elem_of_List_filter)%list_elem_of_fmap.
      simpl in Hname. subst name'.
      assert (s' = s) as ->; [|congruence].
      pose proof (get_of_elem _ _ _ Hwf He) as H1.
      pose proof (get_of_elem _ _ _ Hwf He') as H2. congruence. }
  split.
  - unfold JSObject.keys. rewrite filter_map_fst. f_equal.
    apply filter_ext_in_iff. intros e He%list_elem_of_In.
    rewrite clashes_own, !Hin by done. done.
  - intros Hnone. f_equal. apply filter_ext_in_iff.
    intros e He%list_elem_of_In. rewrite clashes_own.
    destruct (onlyOwn (mcpServers target) e) eqn:Honly; simpl;
      [|by rewrite orb_false_r].
    assert (Hproto : fst e ∉ JSObject.prototypeKeys).
    { rewrite Forall_forall in Hnone. apply Hnone, list_elem_of_fmap.
      exists e. split; [done|]. by apply elem_of_List_filter. }
    unfold inherited. rewrite (bool_decide_eq_false_2 _ Hproto).
    by rewrite orb_false_r.
Qed.

(** X7: under [PROMPT] the conflicts a merge returns are those
    [detectConflicts] reports on the same two records, in the same order
    and equal in every field but the identifier, which holds the time. *)
Theorem prompt_conflicts_detected source target options n n' :
  strategy options = PROMPT →
  wfConfig source → wfConfig target →
  map forgetId
    (conflicts (fst (mergeConfigs clock Number source target options n)))
  = map forgetId (fst (detectConflicts clock source target n')).
Proof.
  intros Hstrategy Hsource Htarget.
  destruct (mergeConfigs_outcome clock Number source target options n
              Hsource Htarget) as (st0 & st & Hst0 & -> & Hservers & Hres & Hout).
  rewrite mergeFinish_conflicts.
  destruct (out_conflicts _ _ _ _ _ _ Hout) as (new & -> & Hparties & Hdetected).
  rewrite Hres. simpl. rewrite Hstrategy in Hparties. simpl in Hparties.
  unfold detectConflicts, JSObject.entries.
  destruct (detectLoop_outcome (mcpServers target) (mcpServers source) [] n')
    as (new' & -> & Hparties' & Hdetected' & _).
  simpl. apply map_forgetId; [done | done | congruence].
Qed.

(** The entries that clash are those that differ and those that are only
    in the source under an inherited name; the new ones are the others
    that are only in the source. *)
Lemma filter_clashes_length (servers es : list (string * MCPServiceConfig)) :
  length (List.filter (clashes servers) es)
  = length (List.filter (differs servers) es)
    + length (List.filter (λ e, inherited (fst e))
                (List.filter (onlyOwn servers) es))
  ∧ length (List.filter (isNew servers) es)
      + length (List.filter (λ e, inherited (fst e))
                  (List.filter (onlyOwn servers) es))
    = length (List.filter (onlyOwn servers) es).
Proof.
  induction es as [|e es [IH1 IH2]]; [done|]. simpl.
  rewrite clashes_own, isNew_own. unfold differs, onlyOwn in *.
  destruct (JSObject.get (fst e) servers) as [t|]; simpl.
  - destruct (areServicesEqual (snd e) t); simpl; lia.
  - destruct (inherited (fst e)); simpl; lia.
Qed.

(** X8: the counters of a merge, for a source that names no service
    [__proto__], are sizes of the lists [analyzeDifferences] returns for
    the source and the target.  Of the services only the source names,
    those whose name [Object.prototype] has are handled as services that
    differ, and the others are added; the services the two records hold
    in agreement are updated; the services that differ are updated under
    [OVERWRITE] and [MERGE], skipped under [SKIP] and counted as
    conflicts under [PROMPT]. *)
Theorem merge_counts_differences source target options n :
  wfConfig source → wfConfig target → plainNames source →
  let r := fst (mergeConfigs clock Number source target options n) in
  ∃ d,
    analyzeDifferences source target = Some d
    ∧ let shadowed := List.filter inherited (onlyInFirst d) in
      addedServices (stats r) + length shadowed = length (onlyInFirst d)
      ∧ match strategy options with
        | OVERWRITE | MERGE =>
            updatedServices (stats r)
            = length (identical d) + length (different d) + length shadowed
            ∧ skippedServices (stats r) = 0
            ∧ conflictServices (stats r) = 0
        | SKIP =>
            updatedServices (stats r) = length (identical d)
            ∧ skippedServices (stats r)
              = length (different d) + length shadowed
            ∧ conflictServices (stats r) = 0
        | PROMPT =>
            updatedServices (stats r) = length (identical d)
            ∧ skippedServices (stats r) = 0
            ∧ conflictServices (stats r)
              = length (different d) + length shadowed
        end.
Proof.
  intros Hsource Htarget _ r.
  destruct (mergeConfigs_outcome clock Number source target options n
              Hsource Htarget) as (st0 & st & Hst0 & Hr & Hservers & Hres & Hout).
  subst r. rewrite Hr, mergeFinish_stats.
  rewrite analyzeDifferences_filters by done.
  eexists. split; [done|]. simpl.
  rewrite (filter_map_fst inherited), !length_map.
  rewrite (out_added _ _ _ _ _ _ Hout), (out_updated _ _ _ _ _ _ Hout),
    (out_skipped _ _ _ _ _ _ Hout), (out_conflict _ _ _ _ _ _ Hout), Hres.
  destruct (filter_clashes_length (mcpServers target) (mcpServers source))
    as [Hclash Hnew].
  simpl. rewrite Hclash. split; [lia|].
  destruct (strategy options); simpl; lia.
Qed.
End DetectFacts.

(** ** Merging the same source again *)

Section MergeAgain.
Variable clock : nat → Z.
Variable Number : string → jsnum.

(** Without metadata the field-wise merge reads no clock. *)
Lemma mergeServiceConfigs_plain s t k :
  mergeServiceConfigs clock s t false k
  = (fst (mergeServiceConfigs clock s t false 0), k).
Proof.
  unfold mergeServiceConfigs, cret.
  by destruct (present (env s) || present (JSObject.field env t)).
Qed.

Lemma mergeServiceConfigs_idem s t k k' :
  fst (mergeServiceConfigs clock s
         (Own (fst (mergeServiceConfigs clock s t false k))) false k')
  = fst (mergeServiceConfigs clock s t false k).
Proof.
  unfold mergeServiceConfigs, cret.
  assert (Hspread : ∀ A (x y : option A),
            spreadOver (spreadOver x y) y = spreadOver x y).
  { intros A x [y|]; done. }
  destruct s as [sc sa se sd sw st sm], t as [[tc ta te td tw tt tm]|name];
    simpl.
  - destruct se as [se|], te as [te|]; simpl; rewrite ?Hspread; try done.
    + f_equal. f_equal. by rewrite (assoc_L (∪)), (idemp (∪) se).
    + f_equal. f_equal. rewrite (right_id_L ∅ (∪)). by rewrite (idemp (∪) se).
    + f_equal. f_equal. by rewrite !(left_id_L ∅ (∪)).
  - destruct se as [se|]; simpl; rewrite ?Hspread; try done.
    f_equal. f_equal. rewrite (right_id_L ∅ (∪)). by rewrite (idemp (∪) se).
Qed.

Lemma withServers_same c : withServers (mcpServers c) c = c.
Proof. by destruct c. Qed.

Lemma mergeLoop_fixed options entries :
  preserveMetadata options = false →
  ∀ cfg res n,
    NoDup (JSObject.keys (mcpServers cfg)) →
    (∀ name s, (name, s) ∈ entries → fixedAt clock options (mcpServers cfg) name s) →
    fst (fst (mergeLoop clock options entries (cfg, res) n)) = cfg.
Proof.
  intros Hpm. induction entries as [|[name s] rest IH]; intros cfg res n Hnd Hall;
    [done|].
  rewrite mergeLoop_cons.
  assert (Hrest : ∀ name' s', (name', s') ∈ rest →
            fixedAt clock options (mcpServers cfg) name' s').
  { intros name' s' Hin. apply Hall. by apply list_elem_of_further. }
  destruct (Hall name s (list_elem_of_here _ _))
    as [(v & Hv & Hsettled)|(Hnone & Hproto & Hcase)].
  - assert (Hset : withServers (JSObject.set name v (mcpServers cfg)) cfg = cfg).
    { rewrite JSObjectFacts.set_same by done. apply withServers_same. }
    assert (Hassign : withServers (JSObject.assign name v (mcpServers cfg)) cfg
                      = cfg).
    { rewrite JSObjectFacts.assign_present; [done|].
      by eapply JSObjectFacts.get_Some_keys. }
    pose proof (JSObjectFacts.lookup_Own _ _ _ Hv) as Hlk.
    unfold settled in Hsettled.
    destruct (areServicesEqual s v) eqn:Heq.
    + apply areServicesEqual_agree in Heq.
      rewrite (mergeStep_agree clock _ _ _ _ _ _ _ Hv Heq), Hpm.
      rewrite mergeServiceConfigs_plain, Hsettled, Hset. by apply IH.
    + destruct Hsettled as [Hs|[Hs|[Hs Hm]]].
      * rewrite (mergeStep_skip clock _ _ _ _ _ _ _ Hs Hlk Heq). by apply IH.
      * destruct (mergeStep_prompt clock _ _ res _ _ _ n Hs Hlk Heq)
          as (c & _ & ->).
        by apply IH.
      * rewrite (mergeStep_merge clock _ _ _ _ _ _ _ Hs Hlk Heq), Hpm.
        rewrite mergeServiceConfigs_plain, Hm, Hassign. by apply IH.
  - assert (Hlk : JSObject.lookup name (mcpServers cfg)
                  = Some (Inherited name)).
    { apply JSObjectFacts.lookup_Inherited; [|done].
      by apply JSObjectFacts.get_None. }
    assert (Hassign : ∀ v, name = "__proto__" →
              withServers (JSObject.assign name v (mcpServers cfg)) cfg = cfg).
    { intros v ->. rewrite JSObjectFacts.assign_proto; [apply withServers_same|].
      by apply JSObjectFacts.get_None. }
    destruct (strategy options) eqn:Hs.
    + rewrite (mergeStep_overwrite clock options cfg res name s
                 (Inherited name) n Hs Hlk eq_refl).
      destruct Hcase as [Hname|[?|?]]; try done.
      rewrite Hassign by done. by apply IH.
    + rewrite (mergeStep_skip clock options cfg res name s
                 (Inherited name) n Hs Hlk eq_refl).
      by apply IH.
    + rewrite (mergeStep_merge clock options cfg res name s
                 (Inherited name) n Hs Hlk eq_refl).
      destruct Hcase as [Hname|[?|?]]; try done.
      destruct (mergeServiceConfigs _ _ _ _ _) as [m n'].
      rewrite Hassign by done. by apply IH.
    + destruct (mergeStep_prompt clock options cfg res name s
                  (Inherited name) n Hs Hlk eq_refl) as (c & _ & ->).
      by apply IH.
Qed.

Lemma resolved_settled options servers name s v :
  preserveMetadata options = false →
  resolved clock options s (JSObject.lookup name servers) v →
  (∃ v', v = Some v' ∧ settled clock options s v')
  ∨ (v = None ∧ name ∈ JSObject.prototypeKeys
     ∧ (name = "__proto__" ∨ strategy options = SKIP
        ∨ strategy options = PROMPT)).
Proof.
  intros Hpm Hres. unfold resolved in Hres. unfold settled.
  assert (Hself : ∃ v', Some s = Some v'
            ∧ if areServicesEqual s v'
              then fst (mergeServiceConfigs clock s (Own v') false 0) = v'
              else strategy options = SKIP ∨ strategy options = PROMPT
                   ∨ strategy options = MERGE
                     ∧ fst (mergeServiceConfigs clock s (Own v') false 0) = v').
  { exists s. split; [done|].
    rewrite (proj2 (areServicesEqual_agree s s) (agree_refl s)).
    by rewrite mergeServiceConfigs_same. }
  destruct (JSObject.lookup name servers) as [[t|k]|] eqn:Hlk;
    [| |left; by rewrite Hres].
  - left. simpl in Hres.
    destruct (areServicesEqual s t) eqn:Heq; cbn [orb] in Hres.
    + rewrite Hpm in Hres. destruct Hres as [k ->]. eexists. split; [done|].
      apply areServicesEqual_agree in Heq.
      rewrite (proj2 (areServicesEqual_agree _ _)
                 (mergeServiceConfigs_agree clock s t false k Heq)).
      exact (mergeServiceConfigs_idem s (Own t) k 0).
    + case_bool_decide as Hmerge.
      * rewrite Hpm in Hres. destruct Hres as [k ->]. eexists. split; [done|].
        destruct (areServicesEqual s
                    (fst (mergeServiceConfigs clock s (Own t) false k)));
          [exact (mergeServiceConfigs_idem s (Own t) k 0)|].
        right. right. split; [done | exact (mergeServiceConfigs_idem s (Own t) k 0)].
      * destruct (strategy options) eqn:Hs; rewrite Hres; simpl; try done.
        -- exists t. rewrite Heq. eauto.
        -- exists t. rewrite Heq. eauto.
  - apply JSObjectFacts.lookup_Inherited_inv in Hlk as (-> & Hkey & Hproto).
    simpl in Hres. unfold JSObject.assigned in Hres.
    destruct (decide (name = "__proto__")) as [Hname|Hname].
    + right. split_and!; [|done|by left].
      destruct (strategy options); simpl in Hres; try done.
      by destruct Hres as [k ->].
    + destruct (strategy options) eqn:Hs; simpl in Hres.
      * left. by rewrite Hres.
      * right. split_and!; [done | done | auto].
      * left. rewrite Hpm in Hres. destruct Hres as [k ->].
        eexists. split; [done|].
        rewrite (proj2 (areServicesEqual_agree _ _)
                   (mergeServiceConfigs_Inherited clock s name false k)).
        exact (mergeServiceConfigs_idem s (Inherited name) k 0).
      * right. split_and!; [done | done | auto].
Qed.

Lemma mergeStart_plain source target options n :
  preserveMetadata options = false →
  mergeStart clock Number source target options n
  = ((let mergedConfig :=
        withServers (JSObject.copy (mcpServers target)) target in
      if adoptsSourceVersion Number (version source) (version target)
      then withVersion (version source) mergedConfig else mergedConfig,
      withStats (setTotal (length (JSObject.keys (mcpServers source))) zeroStats)
        emptyResult), n).
Proof. intros Hpm. unfold mergeStart, cbind, cret. by rewrite Hpm. Qed.

(** X9: with [preserveMetadata] off a merge is idempotent in its target,
    under every strategy: merging the same source into the record a merge
    returned returns that record again. *)
Theorem merge_again source target options n n' :
  preserveMetadata options = false →
  wfConfig source → wfConfig target →
  ∃ c,
    config (fst (mergeConfigs clock Number source target options n)) = Some c
    ∧ config (fst (mergeConfigs clock Number source c options n')) = Some c.
Proof.
  intros Hpm Hsource Htarget.
  destruct (mergeConfigs_outcome clock Number source target options n
              Hsource Htarget) as (st0 & st & Hst0 & -> & Hservers & Hres & Hout).
  exists (fst st). rewrite mergeFinish_config. split; [done|].
  assert (Hnd : NoDup (JSObject.keys (mcpServers (fst st)))).
  { apply (out_nodup _ _ _ _ _ _ Hout). by rewrite Hservers. }
  assert (Hversion : adoptsSourceVersion Number (version source)
                       (version (fst st)) = false).
  { rewrite (out_version _ _ _ _ _ _ Hout), <- Hst0.
    rewrite mergeStart_plain by done. simpl.
    destruct (adoptsSourceVersion Number (version source) (version target))
      eqn:Hadopt; simpl; [apply adoptsSourceVersion_same | done]. }
  rewrite mergeConfigs_unfold, mergeStart_plain by done. simpl.
  rewrite Hversion, JSObjectFacts.copy_id, withServers_same by done.
  rewrite mergeFinish_config. destruct st as [c res]. simpl in *.
  f_equal. apply mergeLoop_fixed; [done | done |].
  intros name s Hin.
  destruct (resolved_settled options _ _ s _ Hpm
              (out_entry _ _ _ _ _ _ Hout _ _ Hin))
    as [(v & Hv & Hsettled)|(Hv & Hproto & Hcase)].
  - left. eauto.
  - by right.
Qed.
End MergeAgain.

(** ** Validation of a record and the success of a merge *)

Lemma truthyString_command (s : string) :
  truthyString (Some s) = true ↔ s ≠ EmptyString.
Proof. by destruct s. Qed.

Lemma validateServiceConfig_eq name s errors0 warnings0 :
  validateServiceConfig name s errors0 warnings0
  = (errors0
     ++ (if bool_decide (command s = EmptyString)
         then [{| field := "mcpServers." +:+ name +:+ ".command";
                  message := "每个服务必须指定command字段" |}]
         else []),
     warnings0
     ++ (if negb (truthyMeta (svc_metadata s ≫= (.!! "description")))
         then [{| field := "mcpServers." +:+ name +:+ ".metadata.description";
                  message := "建议为服务添加描述信息" |}]
         else [])).
Proof.
  unfold validateServiceConfig.
  destruct (command s); simpl; destruct (truthyMeta _); simpl;
    by rewrite ?app_nil_r.
Qed.

Lemma validate_fold (entries : list (string * MCPServiceConfig)) :
  ∀ errors0 warnings0,
    fold_left
      (λ acc entry,
         validateServiceConfig (fst entry) (snd entry) (fst acc) (snd acc))
      entries (errors0, warnings0)
    = (errors0
       ++ map (λ e, {| field := "mcpServers." +:+ fst e +:+ ".command";
                       message := "每个服务必须指定command字段" |})
            (List.filter (λ e, bool_decide (command (snd e) = EmptyString))
               entries),
       warnings0
       ++ map (λ e, {| field := "mcpServers." +:+ fst e
                                +:+ ".metadata.description";
                       message := "建议为服务添加描述信息" |})
            (List.filter
               (λ e, negb (truthyMeta
                             (svc_metadata (snd e) ≫= (.!! "description"))))
               entries)).
Proof.
  induction entries as [|[name s] entries IH]; intros errors0 warnings0.
  - simpl. by rewrite !app_nil_r.
  - cbn [fold_left fst snd]. rewrite validateServiceConfig_eq, IH.
    cbn [List.filter fst snd].
    destruct (bool_decide (command s = EmptyString));
      destruct (negb (truthyMeta _)); simpl;
      by rewrite <- ?app_assoc, ?app_nil_r.
Qed.

Lemma validateConfigSync_fields (config : MCPConfig) :
  v_errors (validateConfigSync config)
  = map (λ e, {| field := "mcpServers." +:+ fst e +:+ ".command";
                 message := "每个服务必须指定command字段" |})
      (List.filter (λ e, bool_decide (command (snd e) = EmptyString))
         (mcpServers config))
  ∧ isValid (validateConfigSync config)
    = (length (v_errors (validateConfigSync config)) =? 0).
Proof.
  unfold validateConfigSync, JSObject.entries. rewrite validate_fold.
  by cbn [v_errors isValid app].
Qed.

Lemma validateConfigSync_valid (config : MCPConfig) :
  isValid (validateConfigSync config) = true ↔
  ∀ name s, (name, s) ∈ mcpServers config → command s ≠ EmptyString.
Proof.
  destruct (validateConfigSync_fields config) as [Herrors ->].
  rewrite Herrors, Nat.eqb_eq, length_map, length_zero_iff_nil. split.
  - intros Hnil name s Hin Hempty.
    assert (Hin' : (name, s) ∈ List.filter
              (λ e, bool_decide (command (snd e) = EmptyString))
              (mcpServers config)).
    { apply elem_of_List_filter. split; [done|]. by apply bool_decide_eq_true_2. }
    rewrite Hnil in Hin'. by apply elem_of_nil in Hin'.
  - intros Hall.
    destruct (List.filter _ (mcpServers config)) as [|[name s] rest] eqn:Hf;
      [done|].
    assert (Hin : (name, s) ∈ List.filter
              (λ e, bool_decide (command (snd e) = EmptyString))
              (mcpServers config)).
    { rewrite Hf. apply list_elem_of_here. }
    apply elem_of_List_filter in Hin as [Hin Hempty].
    apply bool_decide_eq_true_1 in Hempty. by destruct (Hall name s Hin).
Qed.

(** X10: on a record of the declared types, [validateConfigSync] reports
    one error for each service with an empty [command], in order and
    nothing else, so that the record is valid exactly when every service
    has a command; it warns once for each service without a description in
    its metadata, and once more when the version is not empty and is not
    two or three runs of digits separated by dots. *)
Theorem validateConfigSync_report (config : MCPConfig) :
  let v := validateConfigSync config in
  v_errors v
  = map (λ e, {| field := "mcpServers." +:+ fst e +:+ ".command";
                 message := "每个服务必须指定command字段" |})
      (List.filter (λ e, bool_decide (command (snd e) = EmptyString))
         (mcpServers config))
  ∧ (isValid v = true ↔
     ∀ name s, (name, s) ∈ mcpServers config → command s ≠ EmptyString)
  ∧ v_warnings v
    = map (λ e, {| field := "mcpServers." +:+ fst e +:+ ".metadata.description";
                   message := "建议为服务添加描述信息" |})
        (List.filter
           (λ e, negb (truthyMeta (svc_metadata (snd e) ≫= (.!! "description"))))
           (mcpServers config))
      ++ match version config with
         | Some ver =>
             if bool_decide (ver ≠ EmptyString) && negb (versionFormat ver)
             then [{| field := "version";
                      message := "版本号格式建议使用语义化版本（如1.0.0）" |}]
             else []
         | None => []
         end.
Proof.
  intros v. subst v. split_and!.
  - apply validateConfigSync_fields.
  - apply validateConfigSync_valid.
  - unfold validateConfigSync, JSObject.entries. rewrite validate_fold.
    cbn [v_warnings app].
    destruct (version config) as [ver|]; [|by rewrite app_nil_r].
    assert (Htruthy : truthyString (Some ver) = bool_decide (ver ≠ EmptyString)).
    { destruct ver; done. }
    rewrite Htruthy.
    destruct (bool_decide (ver ≠ EmptyString) && negb (versionFormat ver));
      [done | by rewrite app_nil_r].
Qed.

Section MergeSuccess.
Variable clock : nat → Z.
Variable Number : string → jsnum.





Lemma hasCommands_get servers name s :
  hasCommands servers → JSObject.get name servers = Some s →
  command s ≠ EmptyString.
Proof. intros Hall Hget. eapply Hall. by apply JSObjectFacts.get_elem_of. Qed.




End MergeSuccess.

(** ** The helpers of the merger *)

(** X13: the equality of environments returns [true] exactly when both are
    absent, or both are present and hold the same variables with the same
    values; an absent environment and an empty one are different. *)
Theorem areObjectsEqual_spec (obj1 obj2 : option (gmap string string)) :
  (areObjectsEqual obj1 obj2 = true ↔
     (obj1 = None ∧ obj2 = None)
     ∨ (∃ m1 m2, obj1 = Some m1 ∧ obj2 = Some m2 ∧ ∀ key, m1 !! key = m2 !! key))
  ∧ (∀ m, areObjectsEqual None (Some m) = false
          ∧ areObjectsEqual (Some m) None = false).
Proof.
  split; [|done]. rewrite areObjectsEqual_eq. split.
  - intros <-. destruct obj1 as [m|]; [right | by left]. by exists m, m.
  - intros [[-> ->]|(m1 & m2 & -> & -> & Hall)]; [done|].
    f_equal. by apply map_eq.
Qed.

Section Helpers.
Variable clock : nat → Z.
Variable Number : string → jsnum.

Lemma lookup_spread {A} (s t : option (gmap string A)) key :
  (spreadOpt s ∪ spreadOpt t) !! key
  = match s ≫= (.!! key) with
    | Some v => Some v
    | None => t ≫= (.!! key)
    end.
Proof.
  rewrite lookup_union. unfold spreadOpt.
  destruct s as [s|], t as [t|]; simpl; rewrite ?lookup_empty.
  - by destruct (s !! key), (t !! key).
  - by destruct (s !! key).
  - by destruct (t !! key).
  - done.
Qed.

(** X14: [mergeMetadata] returns nothing exactly when both metadata objects
    are absent, and then reads no clock; otherwise it reads the clock
    once, [lastModified] is that time, and every other key has the value
    of the source when the source has the key and that of the target
    otherwise. *)
Theorem mergeMetadata_fields (sourceMeta targetMeta : option (gmap string metaval))
    (n : nat) :
  let '(m, n') := mergeMetadata clock sourceMeta targetMeta n in
  (m = None ↔ sourceMeta = None ∧ targetMeta = None)
  ∧ (m = None → n' = n)
  ∧ ∀ o, m = Some o →
      n' = S n
      ∧ o !! "lastModified" = Some (MNum (clock n))
      ∧ ∀ key, key ≠ "lastModified" →
          o !! key = match sourceMeta ≫= (.!! key) with
                     | Some v => Some v
                     | None => targetMeta ≫= (.!! key)
                     end.
Proof.
  assert (Hsome : ∀ o,
    <["lastModified" := MNum (clock n)]> (spreadOpt sourceMeta ∪ spreadOpt targetMeta)
      = o →
    o !! "lastModified" = Some (MNum (clock n))
    ∧ ∀ key, key ≠ "lastModified" →
        o !! key = match sourceMeta ≫= (.!! key) with
                   | Some v => Some v
                   | None => targetMeta ≫= (.!! key)
                   end).
  { intros o <-. split; [apply lookup_insert_eq|].
    intros key Hkey. rewrite lookup_insert_ne by done. apply lookup_spread. }
  unfold mergeMetadata, cbind, cret, Date_now.
  destruct sourceMeta as [s|], targetMeta as [t|]; simpl;
    (split_and!; [split; [done | by intros [? ?]] | done |]);
    intros o [= Ho]; (split; [done|]); by apply Hsome.
Qed.

(** X15: the field-wise merge of two descriptors takes [command] from the
    source and each of [args], [disabled], [cwd] and [timeout] from the
    source when the source has it, from the target otherwise; it has an
    environment exactly when one of the two has one, with every variable
    of both and the value of the source for a variable of both; its
    metadata are those [mergeMetadata] returns when [preserveMetadata] is
    on, and otherwise those of the source, or of the target when the
    source has none. *)
Theorem mergeServiceConfigs_fields (s t : MCPServiceConfig) (pm : bool) (k : nat) :
  let m := fst (mergeServiceConfigs clock s (Own t) pm k) in
  command m = command s
  ∧ args m = match args s with Some a => Some a | None => args t end
  ∧ disabled m = match disabled s with Some d => Some d | None => disabled t end
  ∧ cwd m = match cwd s with Some w => Some w | None => cwd t end
  ∧ timeout m = match timeout s with Some x => Some x | None => timeout t end
  ∧ (env m = None ↔ env s = None ∧ env t = None)
  ∧ (∀ e key, env m = Some e →
       e !! key = match env s ≫= (.!! key) with
                  | Some v => Some v
                  | None => env t ≫= (.!! key)
                  end)
  ∧ svc_metadata m
    = (if pm then fst (mergeMetadata clock (svc_metadata s) (svc_metadata t) k)
       else match svc_metadata s with
            | Some x => Some x
            | None => svc_metadata t
            end).
Proof.
  unfold mergeServiceConfigs, cbind, cret. cbn [JSObject.field].
  assert (Henv : ∀ e key,
    Some (spreadOpt (env s) ∪ spreadOpt (env t)) = Some e →
    e !! key = match env s ≫= (.!! key) with
               | Some v => Some v
               | None => env t ≫= (.!! key)
               end).
  { intros e key [= <-]. apply lookup_spread. }
  destruct pm; [destruct (mergeMetadata clock _ _ k) as [mm k']|];
    destruct (env s) as [se|] eqn:Hse, (env t) as [te|] eqn:Hte; simpl;
    rewrite ?Hse, ?Hte; unfold spreadOver;
    split_and!; try done; try (split; [done | by intros [? ?]]);
    try (intros e key He; by apply Henv); try by destruct (_ s).
  all: intros e key [= <-]; simpl; by rewrite ?lookup_empty.
Qed.
End Helpers.

(** ** Versions *)

Lemma js_lt_asym (x y : jsnum) : js_lt x y = true → js_lt y x = false.
Proof.
  destruct x as [| | |p], y as [| | |q]; simpl; try done.
  rewrite negb_true_iff, negb_false_iff. intros Hle.
  apply Qle_bool_iff. destruct (Qlt_le_dec p q) as [Hlt|Hge].
  - by apply Qlt_le_weak.
  - apply Qle_bool_iff in Hge. congruence.
Qed.

Lemma compareLoop_swap (a b : list jsnum) (remaining : nat) :
  ∀ i, compareLoop b a i remaining = (- compareLoop a b i remaining)%Z.
Proof.
  induction remaining as [|r IH]; intros i; simpl; [done|].
  unfold js_gt.
  destruct (js_lt (orZero (b !! i)) (orZero (a !! i))) eqn:Hba,
           (js_lt (orZero (a !! i)) (orZero (b !! i))) eqn:Hab;
    [|done|done|apply IH].
  apply js_lt_asym in Hba. congruence.
Qed.

Lemma compareLoop_range (a b : list jsnum) (remaining : nat) :
  ∀ i, let res := compareLoop a b i remaining in
       (res = 1 ∨ res = 0 ∨ res = -1)%Z.
Proof.
  induction remaining as [|r IH]; intros i; simpl; [by right; left|].
  destruct (js_gt _ _); [by left|].
  destruct (js_lt _ _); [by right; right | apply IH].
Qed.

Section Versions.
Variable clock : nat → Z.
Variable Number : string → jsnum.

(** X16: on all strings, whatever [Number] makes of their segments,
    [compareVersions] returns 1, 0 or -1, compares a version as equal to
    itself, and is antisymmetric: exchanging the two versions negates the
    result. *)
Theorem compareVersions_antisym (version1 version2 : string) :
  compareVersions Number version2 version1
  = (- compareVersions Number version1 version2)%Z
  ∧ compareVersions Number version1 version1 = 0%Z
  ∧ (compareVersions Number version1 version2 = 1
     ∨ compareVersions Number version1 version2 = 0
     ∨ compareVersions Number version1 version2 = -1)%Z.
Proof.
  unfold compareVersions. split_and!.
  - rewrite Nat.max_comm. apply compareLoop_swap.
  - apply compareLoop_refl.
  - apply compareLoop_range.
Qed.

Lemma compareVersions_swap v1 v2 :
  compareVersions Number v2 v1 = (- compareVersions Number v1 v2)%Z.
Proof. unfold compareVersions. rewrite Nat.max_comm. apply compareLoop_swap. Qed.

Lemma mergeStart_version source target options n :
  version (fst (fst (mergeStart clock Number source target options n)))
  = if adoptsSourceVersion Number (version source) (version target)
    then version source else version target.
Proof.
  unfold mergeStart, cbind.
  destruct (preserveMetadata options); [destruct (mergeMetadata _ _ _ _)|];
    simpl; by destruct (adoptsSourceVersion _ _ _).
Qed.

(** X17: the version of the merged record is that of the target when the
    source has none or an empty one, that of the source when only the
    source has one that is not empty, and otherwise the source's when
    [compareVersions] puts it above the target's and the target's when not:
    a version that [compareVersions] puts below neither of the two. *)
Theorem merged_version source target options n :
  let r := fst (mergeConfigs clock Number source target options n) in
  ∃ c,
    config r = Some c
    ∧ (version source = None ∨ version source = Some EmptyString →
       version c = version target)
    ∧ (∀ vs, version source = Some vs → vs ≠ EmptyString →
             version target = None ∨ version target = Some EmptyString →
             version c = Some vs)
    ∧ (∀ vs vt, version source = Some vs → version target = Some vt →
                vs ≠ EmptyString → vt ≠ EmptyString →
                ∃ v, version c = Some v
                     ∧ v = (if (0 <? compareVersions Number vs vt)%Z
                            then vs else vt)
                     ∧ (0 ≤ compareVersions Number v vs)%Z
                     ∧ (0 ≤ compareVersions Number v vt)%Z).
Proof.
  intros r.
  destruct (mergeConfigs_frame clock Number source target options n)
    as (st & Hr & Hframe).
  subst r. rewrite Hr. exists (fst st). rewrite mergeFinish_config.
  rewrite (frame_version _ _ _ _ Hframe), mergeStart_version.
  unfold adoptsSourceVersion. split_and!; [done | | |].
  - by intros [->| ->].
  - intros vs -> Hvs [->| ->]; by destruct vs.
  - intros vs vt -> -> Hvs Hvt.
    destruct vs as [|c1 vs]; [done|]. destruct vt as [|c2 vt]; [done|]. simpl.
    destruct (0 <? compareVersions Number _ _)%Z eqn:Hcmp.
    + eexists. split_and!; [done | done | |].
      * by rewrite compareVersions_refl.
      * apply Z.ltb_lt in Hcmp. lia.
    + eexists. split_and!; [done | done | |].
      * rewrite compareVersions_swap. apply Z.ltb_ge in Hcmp. lia.
      * by rewrite compareVersions_refl.
Qed.
End Versions.

(** *** The format of a version *)

Lemma split_nonempty sep s : split sep s ≠ [].
Proof.
  destruct s as [|c s]; simpl; [done|].
  case_decide; [done|]. by destruct (split sep s).
Qed.

Lemma split_app sep (a b : string) :
  split sep (a +:+ String sep b) = split sep a ++ split sep b.
Proof.
  induction a as [|c a IH]; simpl.
  - by rewrite decide_True.
  - case_decide; [by rewrite IH|]. rewrite IH.
    pose proof (split_nonempty sep a). by destruct (split sep a).
Qed.

Lemma split_dot (a b : string) :
  split "." (a +:+ "." +:+ b) = split "." a ++ split "." b.
Proof. exact (split_app "." a b). Qed.

Lemma concat_split sep (s : string) :
  String.concat (String sep EmptyString) (split sep s) = s.
Proof.
  induction s as [|c s IH]; simpl; [done|].
  pose proof (split_nonempty sep s) as Hne. case_decide as Hc.
  - destruct (split sep s) as [|seg segs]; [done|]. simpl in *.
    by rewrite IH, Hc.
  - destruct (split sep s) as [|seg [|seg' segs]]; [done | |]; simpl in *;
      by rewrite <- IH.
Qed.

Lemma allDigits_split (s : string) :
  allDigits s = true → split "." s = [s].
Proof.
  induction s as [|c s IH]; simpl; [done|].
  intros [Hc Hs]%andb_true_iff. rewrite (IH Hs).
  case_decide as Hdot; [|done]. by rewrite Hdot in Hc.
Qed.

Lemma isDigits_split (s : string) :
  isDigits s = true → split "." s = [s].
Proof. destruct s; [done|]. apply allDigits_split. Qed.

(** X18: the format [validateConfigSync] expects of a version,
    [/^\d+\.\d+(\.\d+)?$/], is that of two or three runs of one or more
    decimal digits with a dot between them. *)
Theorem versionFormat_spec (v : string) :
  versionFormat v = true ↔
  ∃ a b, isDigits a = true ∧ isDigits b = true
         ∧ (v = a +:+ "." +:+ b
            ∨ ∃ c, isDigits c = true ∧ v = a +:+ "." +:+ b +:+ "." +:+ c).
Proof.
  unfold versionFormat. split.
  - pose proof (concat_split "." v) as Hv.
    destruct (split "." v) as [|a [|b [|c [|d rest]]]]; try done.
    + intros [Ha Hb]%andb_true_iff. exists a, b. split_and!; try done.
      left. by rewrite <- Hv.
    + intros [[Ha Hb]%andb_true_iff Hc]%andb_true_iff.
      exists a, b. split_and!; try done. right. exists c. by rewrite <- Hv.
  - intros (a & b & Ha & Hb & [->|(c & Hc & ->)]).
    + rewrite split_dot, (isDigits_split a), (isDigits_split b) by done.
      simpl. by rewrite Ha, Hb.
    + rewrite !split_dot, (isDigits_split a), (isDigits_split b),
        (isDigits_split c) by done.
      simpl. by rewrite Ha, Hb, Hc.
Qed.

(** ** analyzeDifferences with its arguments exchanged *)

Lemma areServicesEqual_sym (service1 service2 : MCPServiceConfig) :
  areServicesEqual service1 service2 = areServicesEqual service2 service1.
Proof.
  destruct (areServicesEqual service2 service1) eqn:Heq.
  - apply areServicesEqual_agree. apply areServicesEqual_agree in Heq.
    destruct Heq as (? & ? & ? & ?). by split_and!.
  - apply areServicesEqual_false. apply areServicesEqual_false in Heq.
    intros (? & ? & ? & ?). apply Heq. by split_and!.
Qed.

Lemma analyzeDifferences_members (config1 config2 : MCPConfig) :
  ∃ d,
    analyzeDifferences config1 config2 = Some d
    ∧ onlyInFirst d
      = List.filter
          (λ name, negb (JSObject.includes name
                           (JSObject.keys (mcpServers config2))))
          (JSObject.keys (mcpServers config1))
    ∧ onlyInSecond d
      = List.filter
          (λ name, negb (JSObject.includes name
                           (JSObject.keys (mcpServers config1))))
          (JSObject.keys (mcpServers config2))
    ∧ (∀ name, name ∈ identical d ↔
         ∃ s1 s2, JSObject.get name (mcpServers config1) = Some s1
                  ∧ JSObject.get name (mcpServers config2) = Some s2
                  ∧ areServicesEqual s1 s2 = true)
    ∧ (∀ name, name ∈ different d ↔
         ∃ s1 s2, JSObject.get name (mcpServers config1) = Some s1
                  ∧ JSObject.get name (mcpServers config2) = Some s2
                  ∧ areServicesEqual s1 s2 = false).
Proof.
  unfold analyzeDifferences.
  set (common := List.filter _ (JSObject.keys (mcpServers config1))).
  assert (Hcommon : ∀ name, name ∈ common →
            is_Some (JSObject.get name (mcpServers config1))
            ∧ is_Some (JSObject.get name (mcpServers config2))).
  { intros name [H1 H2]%elem_of_List_filter. apply includes_true in H2.
    split; by apply JSObjectFacts.get_is_Some. }
  destruct (classifyCommon_spec common (mcpServers config1) (mcpServers config2)
              [] [] Hcommon) as (different1 & identical1 & -> & Hi & Hd).
  eexists. split; [done|]. simpl. split_and!; [done | done | |].
  - intros name. rewrite Hi. split.
    + intros [[]%elem_of_nil|[_ Hex]]. done.
    + intros (s1 & s2 & H1 & H2 & Heq). right. split; [|eauto].
      apply elem_of_List_filter. split.
      * by eapply JSObjectFacts.get_Some_keys.
      * apply includes_true. by eapply JSObjectFacts.get_Some_keys.
  - intros name. rewrite Hd. split.
    + intros [[]%elem_of_nil|[_ Hex]]. done.
    + intros (s1 & s2 & H1 & H2 & Heq). right. split; [|eauto].
      apply elem_of_List_filter. split.
      * by eapply JSObjectFacts.get_Some_keys.
      * apply includes_true. by eapply JSObjectFacts.get_Some_keys.
Qed.

(** X19: exchanging the two records exchanges [onlyInFirst] and
    [onlyInSecond] and leaves in [identical] and in [different] the same
    names. *)
Theorem analyzeDifferences_swap (config1 config2 : MCPConfig) :
  ∃ d d',
    analyzeDifferences config1 config2 = Some d
    ∧ analyzeDifferences config2 config1 = Some d'
    ∧ onlyInFirst d' = onlyInSecond d
    ∧ onlyInSecond d' = onlyInFirst d
    ∧ (∀ name, name ∈ identical d' ↔ name ∈ identical d)
    ∧ (∀ name, name ∈ different d' ↔ name ∈ different d).
Proof.
  destruct (analyzeDifferences_members config1 config2)
    as (d & Hd & H1 & H2 & Hi & Hdiff).
  destruct (analyzeDifferences_members config2 config1)
    as (d' & Hd' & H1' & H2' & Hi' & Hdiff').
  exists d, d'. split_and!; [done | done | congruence | congruence | |].
  - intros name. rewrite Hi, Hi'. split.
    + intros (s1 & s2 & ? & ? & Heq). exists s2, s1.
      by rewrite areServicesEqual_sym.
    + intros (s1 & s2 & ? & ? & Heq). exists s2, s1.
      by rewrite areServicesEqual_sym.
  - intros name. rewrite Hdiff, Hdiff'. split.
    + intros (s1 & s2 & ? & ? & Heq). exists s2, s1.
      by rewrite areServicesEqual_sym.
    + intros (s1 & s2 & ? & ? & Heq). exists s2, s1.
      by rewrite areServicesEqual_sym.
Qed.

(** ** mergeMultipleConfigs *)

Section Multi.
Variable clock : nat → Z.
Variable Number : string → jsnum.

Lemma mergeConfigs_config source target options n :
  ∃ c, config (fst (mergeConfigs clock Number source target options n)) = Some c.
Proof.
  rewrite mergeConfigs_unfold. destruct (mergeStart _ _ _ _ _ _).
  eexists. apply mergeFinish_config.
Qed.

Lemma mergeConfigs_success_errors source target options n :
  let r := fst (mergeConfigs clock Number source target options n) in
  success r = bool_decide (errors r = []).
Proof.
  simpl. rewrite mergeConfigs_unfold. destruct (mergeStart _ _ _ _ _ _).
  apply mergeFinish_success.
Qed.

(** The counters of one merge. *)
Lemma mergeConfigs_counts source target options n :
  let r := fst (mergeConfigs clock Number source target options n) in
  totalServices (stats r) = length (JSObject.keys (mcpServers source))
  ∧ totalServices (stats r)
    = addedServices (stats r) + updatedServices (stats r)
      + skippedServices (stats r) + conflictServices (stats r)
  ∧ length (conflicts r) = conflictServices (stats r)
  ∧ (conflicts r = [] ∨ strategy options = PROMPT).
Proof.
  intros r.
  destruct (mergeConfigs_frame clock Number source target options n)
    as (st & Hr & Hframe).
  subst r. rewrite Hr, mergeFinish_stats, mergeFinish_conflicts.
  pose proof (frame_total _ _ _ _ Hframe) as Htotal.
  pose proof (frame_count _ _ _ _ Hframe) as Hcount.
  destruct (frame_conflicts _ _ _ _ Hframe) as (new & Hnew & _ & Hlen & Hprompt).
  rewrite mergeStart_result in Htotal, Hcount, Hnew, Hlen. simpl in *.
  rewrite Hnew, Hlen. split_and!; try done; try lia.
  destruct Hprompt as [?| ->]; [by right | by left].
Qed.

Lemma multiStep_eq options result finalResult next n :
  multiStep clock Number options (result, finalResult) next n
  = let (r, n') := mergeConfigs clock Number next result options n in
    ((default result (config r), accumulate finalResult r), n').
Proof.
  unfold multiStep, cbind, cret.
  pose proof (mergeConfigs_success_errors next result options n) as Hsuccess.
  destruct (mergeConfigs clock Number next result options n) as [r n'].
  simpl in Hsuccess.
  replace (match config r with Some c => c | None => result end)
    with (default result (config r)) by (by destruct (config r)).
  f_equal. f_equal.
  unfold accumulate. destruct (success r) eqn:Hs; simpl.
  - symmetry in Hsuccess. apply bool_decide_eq_true in Hsuccess.
    by rewrite Hsuccess, app_nil_r, andb_true_r.
  - by rewrite andb_false_r.
Qed.

Lemma multiLoop_app options rest1 rest2 st n :
  multiLoop clock Number options (rest1 ++ rest2) st n
  = let (st', n') := multiLoop clock Number options rest1 st n in
    multiLoop clock Number options rest2 st' n'.
Proof.
  revert st n. induction rest1 as [|next rest1 IH]; intros st n; [done|].
  simpl. unfold cbind. destruct (multiStep _ _ _ _ _ _) as [st1 n1]. apply IH.
Qed.

Lemma addStats_zero s : addStats zeroStats s = s.
Proof. by destruct s. Qed.

Lemma mergeMultipleConfigs_cons first second rest options n :
  mergeMultipleConfigs clock Number (first :: second :: rest) options n
  = let (st, n') :=
      multiLoop clock Number options (second :: rest)
        (first, {| success := true; config := Some first; conflicts := [];
                   errors := []; warnings := []; stats := zeroStats |}) n in
    (inr {| success := success (snd st); config := Some (fst st);
            conflicts := conflicts (snd st); errors := errors (snd st);
            warnings := warnings (snd st); stats := stats (snd st) |}, n').
Proof.
  unfold mergeMultipleConfigs, cbind, cret.
  by destruct (multiLoop _ _ _ _ _ _) as [[result final] n'].
Qed.

(** X20: [mergeMultipleConfigs] on two records returns what [mergeConfigs]
    returns for the second as the source and the first as the target. *)
Theorem mergeMultipleConfigs_two first second options n :
  mergeMultipleConfigs clock Number [first; second] options n
  = let (r, n') := mergeConfigs clock Number second first options n in
    (inr r, n').
Proof.
  unfold mergeMultipleConfigs. cbn [multiLoop]. unfold cbind, cret.
  rewrite multiStep_eq.
  destruct (mergeConfigs_config second first options n) as [c Hc].
  destruct (mergeConfigs clock Number second first options n) as [r n'].
  simpl in Hc. f_equal. f_equal. unfold accumulate. simpl.
  rewrite Hc, addStats_zero. simpl. destruct r. simpl in *. by rewrite Hc.
Qed.

(** X21: [mergeMultipleConfigs] folds [mergeConfigs] from the left.  With
    one more record after two or more, the result is that of merging the
    new record, as the source, into the record merged so far: its record
    is the record of that merge, a success needs that merge to succeed,
    and its conflicts, errors, warnings and counters are added to those
    so far. *)
Theorem mergeMultipleConfigs_snoc first second rest last options n :
  ∃ r1 n1 c1,
    mergeMultipleConfigs clock Number (first :: second :: rest) options n
      = (inr r1, n1)
    ∧ config r1 = Some c1
    ∧ mergeMultipleConfigs clock Number (first :: second :: rest ++ [last])
        options n
      = let (r2, n2) := mergeConfigs clock Number last c1 options n1 in
        (inr {| success := success r1 && success r2;
                config := config r2;
                conflicts := conflicts r1 ++ conflicts r2;
                errors := errors r1 ++ errors r2;
                warnings := warnings r1 ++ warnings r2;
                stats := addStats (stats r1) (stats r2) |}, n2).
Proof.
  rewrite !mergeMultipleConfigs_cons.
  change (second :: rest ++ [last]) with ((second :: rest) ++ [last]).
  rewrite multiLoop_app.
  destruct (multiLoop clock Number options (second :: rest) _ n)
    as [[result final] n1].
  eexists _, n1, result. split_and!; [done | done |].
  cbn [multiLoop]. unfold cbind, cret. rewrite multiStep_eq.
  destruct (mergeConfigs_config last result options n1) as [c Hc].
  destruct (mergeConfigs clock Number last result options n1) as [r2 n2].
  simpl in Hc. unfold accumulate. simpl. by rewrite Hc.
Qed.

Lemma multiLoop_counts options rest :
  ∀ result final n,
    totalServices (stats final)
    = addedServices (stats final) + updatedServices (stats final)
      + skippedServices (stats final) + conflictServices (stats final) →
    length (conflicts final) = conflictServices (stats final) →
    conflicts final = [] ∨ strategy options = PROMPT →
    let final' :=
      snd (fst (multiLoop clock Number options rest (result, final) n)) in
    totalServices (stats final')
    = totalServices (stats final)
      + sum_list (map (λ c, length (JSObject.keys (mcpServers c))) rest)
    ∧ totalServices (stats final')
      = addedServices (stats final') + updatedServices (stats final')
        + skippedServices (stats final') + conflictServices (stats final')
    ∧ length (conflicts final') = conflictServices (stats final')
    ∧ (conflicts final' = [] ∨ strategy options = PROMPT).
Proof.
  induction rest as [|next rest IH]; intros result final n Hsum Hlen Hprompt.
  - simpl. split_and!; [lia | done | done | done].
  - cbn [multiLoop]. unfold cbind. rewrite multiStep_eq.
    destruct (mergeConfigs_counts next result options n)
      as (Htotal & Hsum' & Hlen' & Hprompt').
    destruct (mergeConfigs clock Number next result options n) as [r n'].
    simpl in Htotal, Hsum', Hlen', Hprompt'.
    destruct (IH (default result (config r)) (accumulate final r) n')
      as (H1 & H2 & H3 & H4).
    + simpl. lia.
    + simpl. rewrite length_app. lia.
    + simpl. destruct Hprompt as [->|?]; [|by right].
      destruct Hprompt' as [->|?]; [by left | by right].
    + split_and!; [|done|done|done].
      rewrite H1. simpl. lia.
Qed.

(** X22: [mergeMultipleConfigs] throws exactly when it is given no record.
    Given one record it returns that record itself as a success and counts
    its services in [totalServices], the four other counters being zero;
    given two records or more, [totalServices] counts the services of all
    the records but the first and is the sum of the four other counters,
    and the conflicts are as many as [conflictServices] and none unless
    the strategy is [PROMPT]. *)
Theorem mergeMultipleConfigs_stats options n :
  (∀ configs,
     (∃ message, fst (mergeMultipleConfigs clock Number configs options n)
                 = inl message) ↔ configs = [])
  ∧ (∀ only,
       mergeMultipleConfigs clock Number [only] options n
       = (inr {| success := true; config := Some only; conflicts := [];
                 errors := []; warnings := [];
                 stats := {| totalServices :=
                               length (JSObject.keys (mcpServers only));
                             addedServices := 0; updatedServices := 0;
                             skippedServices := 0; conflictServices := 0 |} |},
          n))
  ∧ (∀ first second rest,
       ∃ r, fst (mergeMultipleConfigs clock Number (first :: second :: rest)
                   options n) = inr r
         ∧ totalServices (stats r)
           = sum_list (map (λ c, length (JSObject.keys (mcpServers c)))
                         (second :: rest))
         ∧ totalServices (stats r)
           = addedServices (stats r) + updatedServices (stats r)
             + skippedServices (stats r) + conflictServices (stats r)
         ∧ length (conflicts r) = conflictServices (stats r)
         ∧ (conflicts r = [] ∨ strategy options = PROMPT)).
Proof.
  split_and!.
  - intros configs. split; [|intros ->; by eexists].
    intros [message Hm]. destruct configs as [|first [|second rest]]; [done..|].
    unfold mergeMultipleConfigs, cbind, cret in Hm.
    by destruct (multiLoop _ _ _ _ _ _) as [[result final] n'].
  - done.
  - intros first second rest. unfold mergeMultipleConfigs, cbind, cret.
    pose proof (multiLoop_counts options (second :: rest) first
                  {| success := true; config := Some first; conflicts := [];
                     errors := []; warnings := []; stats := zeroStats |} n)
      as Hcounts.
    destruct (multiLoop _ _ _ _ _ _) as [[result final] n'].
    eexists. split; [done|]. simpl in *.
    destruct Hcounts as (H1 & H2 & H3 & H4); [done | done | by left |].
    split_and!; [rewrite H1; simpl; lia | done | done | done].
Qed.
End Multi.

(** ** An empty target, and the strategies that keep the target *)

Section MoreMerge.
Variable clock : nat → Z.
Variable Number : string → jsnum.

Lemma mergeLoop_all_new options entries :
  ∀ cfg res n,
    NoDup (JSObject.keys (mcpServers cfg ++ entries)) →
    Forall (λ name, name ∉ JSObject.prototypeKeys) (JSObject.keys entries) →
    fst (fst (mergeLoop clock options entries (cfg, res) n))
    = withServers (mcpServers cfg ++ entries) cfg.
Proof.
  induction entries as [|[name s] rest IH]; intros cfg res n Hnd Hplain.
  - simpl. by rewrite app_nil_r, withServers_same.
  - rewrite mergeLoop_cons.
    apply NoDup_keys_middle in Hnd as Hfresh. destruct Hfresh as [Hfresh _].
    unfold JSObject.keys in Hplain. simpl in Hplain.
    apply Forall_cons in Hplain as [Hname Hplain].
    rewrite mergeStep_absent by by apply JSObjectFacts.lookup_absent.
    rewrite JSObjectFacts.set_fresh by done.
    rewrite IH; simpl; [by rewrite <- app_assoc | by rewrite <- app_assoc | done].
Qed.

(** X23: merging a source none of whose service names [Object.prototype]
    has into a target without services copies the services of the source,
    in their order: every service is added, none is updated, skipped or
    in conflict, under every strategy. *)
Theorem merge_into_empty source target options n :
  mcpServers target = [] → wfConfig source →
  Forall (λ name, name ∉ JSObject.prototypeKeys)
    (JSObject.keys (mcpServers source)) →
  let r := fst (mergeConfigs clock Number source target options n) in
  ∃ c,
    config r = Some c
    ∧ mcpServers c = mcpServers source
    ∧ addedServices (stats r) = length (JSObject.keys (mcpServers source))
    ∧ updatedServices (stats r) = 0
    ∧ skippedServices (stats r) = 0
    ∧ conflictServices (stats r) = 0
    ∧ conflicts r = [].
Proof.
  intros Hempty Hsource Hplain r.
  destruct (mergeConfigs_counts clock Number source target options n)
    as (Htotal & Hsum & Hlen & _).
  fold r in Htotal, Hsum, Hlen.
  assert (Hc : ∃ c, config r = Some c ∧ mcpServers c = mcpServers source
                    ∧ addedServices (stats r)
                      = length (JSObject.keys (mcpServers source))).
  { subst r. rewrite mergeConfigs_unfold.
    pose proof (mergeStart_servers clock Number source target options n)
      as Hservers.
    pose proof (mergeStart_result clock Number source target options n)
      as Hresult.
    destruct (mergeStart _ _ _ _ _ _) as [[cfg0 res0] n0].
    simpl in Hservers, Hresult. rewrite Hempty in Hservers.
    change (JSObject.copy []) with (@nil (string * MCPServiceConfig)) in Hservers.
    pose proof (mergeLoop_all_new options (mcpServers source) cfg0 res0 n0)
      as Hloop.
    assert (Hag : ∀ name, name ∈ JSObject.keys (mcpServers source) →
              JSObject.get name (mcpServers (fst (cfg0, res0)))
              = JSObject.get name []).
    { intros name _. simpl. by rewrite Hservers. }
    pose proof (mergeLoop_outcome clock options [] (mcpServers source)
                  (cfg0, res0) n0 Hsource Hag) as Hout.
    destruct (mergeLoop clock options (mcpServers source) (cfg0, res0) n0)
      as [st n1].
    simpl in Hloop. rewrite Hservers in Hloop. simpl in Hloop.
    exists (fst st). rewrite mergeFinish_config, mergeFinish_stats.
    split_and!; [done | by rewrite Hloop | ].
    rewrite (out_added _ _ _ _ _ _ Hout).
    simpl. rewrite Hresult. simpl. unfold JSObject.keys. rewrite length_map.
    f_equal. clear -Hplain. unfold JSObject.keys in Hplain.
    induction (mcpServers source) as [|e l IH]; [done|].
    simpl in Hplain. apply Forall_cons in Hplain as [He Hl].
    simpl. unfold isNew at 1. unfold JSObject.lookup. simpl.
    rewrite (bool_decide_eq_false_2 _ He). simpl. by rewrite IH. }
  destruct Hc as (c & Hc & Hservers & Hadded).
  exists c. split_and!; try done; try lia.
  destruct (conflicts r); [done | simpl in Hlen; lia].
Qed.

(** X24: under [SKIP] and [PROMPT] the merged record holds every service of
    the target with the [command], [args], [env] and [disabled] the target
    has for it. *)
Theorem target_fields_kept source target options n name t :
  strategy options = SKIP ∨ strategy options = PROMPT →
  wfConfig source → wfConfig target →
  JSObject.get name (mcpServers target) = Some t →
  ∃ c v,
    config (fst (mergeConfigs clock Number source target options n)) = Some c
    ∧ JSObject.get name (mcpServers c) = Some v
    ∧ agree v t.
Proof.
  intros Hstrategy Hsource Htarget Ht.
  destruct (mergeConfigs_outcome clock Number source target options n
              Hsource Htarget) as (st0 & st & Hst0 & -> & Hservers & Hres & Hout).
  exists (fst st). rewrite mergeFinish_config.
  destruct (JSObject.get name (mcpServers source)) as [s|] eqn:Hs.
  - apply JSObjectFacts.get_elem_of in Hs.
    pose proof (out_entry _ _ _ _ _ _ Hout _ _ Hs) as Hresolved.
    unfold resolved in Hresolved.
    rewrite (JSObjectFacts.lookup_Own _ _ _ Ht) in Hresolved.
    simpl in Hresolved.
    assert (Hmerge : bool_decide (strategy options = MERGE) = false).
    { apply bool_decide_eq_false_2. by destruct Hstrategy as [-> | ->]. }
    rewrite Hmerge, orb_false_r in Hresolved.
    destruct (areServicesEqual s t) eqn:Heq.
    + destruct Hresolved as [k Hv]. eexists. split_and!; [done | done |].
      apply areServicesEqual_agree in Heq.
      pose proof (mergeServiceConfigs_agree clock s t (preserveMetadata options)
                    k Heq) as (? & ? & ? & ?).
      destruct Heq as (? & ? & ? & ?). split_and!; congruence.
    + exists t. split_and!; [done | | apply agree_refl].
      by destruct Hstrategy as [Hst | Hst]; rewrite Hst in Hresolved.
  - apply JSObjectFacts.get_None in Hs. exists t.
    rewrite (out_frame _ _ _ _ _ _ Hout) by done.
    rewrite Hservers. split_and!; [done | done | apply agree_refl].
Qed.
End MoreMerge.

(** ** The state of ConfigurationManager *)

(** X25: the current path and record are read back as they were set,
    except that an empty path is read back as none; [validateConfig]
    without a record validates the current record and reports that no
    configuration was found when there is none; [clearCache] with a path
    that is not empty forgets that path only, and with no path or with the
    empty path it forgets every path; it keeps the current path and
    record. *)
Theorem manager_state (st : Manager.State) :
  (∀ p, Manager.getConfigPath (Manager.setCurrentConfigPath p st)
        = if decide (p = EmptyString) then None else Some p)
  ∧ (∀ c, Manager.getConfig (Manager.setCurrentConfig c st) = Some c
          ∧ Manager.validateConfig None (Manager.setCurrentConfig c st)
            = validateConfigSync c)
  ∧ (Manager.getConfig st = None →
     isValid (Manager.validateConfig None st) = false
     ∧ map message (v_errors (Manager.validateConfig None st))
       = ["没有找到配置文件"])
  ∧ (∀ p q, p ≠ EmptyString →
       Manager.configCache (Manager.clearCache (Some p) st) !! q
       = if decide (p = q) then None else Manager.configCache st !! q)
  ∧ (∀ q, Manager.configCache (Manager.clearCache None st) !! q = None
          ∧ Manager.configCache (Manager.clearCache (Some EmptyString) st) !! q
            = None)
  ∧ (∀ p, Manager.getConfig (Manager.clearCache p st) = Manager.getConfig st
          ∧ Manager.getConfigPath (Manager.clearCache p st)
            = Manager.getConfigPath st).
Proof.
  split_and!.
  - intros p. unfold Manager.getConfigPath. simpl. by destruct p.
  - done.
  - intros Hnone. unfold Manager.validateConfig. by rewrite Hnone.
  - intros p q Hp. unfold Manager.clearCache.
    destruct p as [|a p]; [done|]. simpl. case_decide as Hpq.
    + subst q. apply lookup_delete_eq.
    + by apply lookup_delete_ne.
  - intros q. split; apply lookup_empty.
  - intros [[|a p]|]; done.
Qed.

(** ** compareVersions as an order *)

(** Segment [j] of a version as the loop reads it. *)
Lemma orZero_notNaN (x : option jsnum) : orZero x ≠ JNaN.
Proof.
  destruct x as [[| | |q]|]; simpl; try done. by destruct (Qeq_bool q 0).
Qed.

Lemma js_le_trans (x y z : jsnum) :
  x ≠ JNaN → y ≠ JNaN → z ≠ JNaN →
  js_lt y x = false → js_lt z y = false → js_lt z x = false.
Proof.
  destruct x as [| | |p], y as [| | |q], z as [| | |r]; simpl; try done.
  intros _ _ _. rewrite !negb_false_iff, !Qle_bool_iff.
  intros Hpq Hqr. by eapply Qle_trans.
Qed.

Lemma compareLoop_le (a b : list jsnum) (remaining : nat) :
  ∀ i,
    (compareLoop a b i remaining ≤ 0)%Z ↔
    ∀ k, i ≤ k < i + remaining →
         (∀ j, i ≤ j < k →
               js_lt (orZero (a !! j)) (orZero (b !! j)) = false
               ∧ js_lt (orZero (b !! j)) (orZero (a !! j)) = false) →
         js_lt (orZero (b !! k)) (orZero (a !! k)) = false.
Proof.
  induction remaining as [|r IH]; intros i; simpl.
  - split; [|done]. intros _ k Hk. lia.
  - unfold js_gt.
    destruct (js_lt (orZero (b !! i)) (orZero (a !! i))) eqn:Hba.
    + split; [done|]. intros Hall.
      assert (true = false) by (rewrite <- Hba; apply Hall; [lia|]; intros j Hj; lia).
      done.
    + destruct (js_lt (orZero (a !! i)) (orZero (b !! i))) eqn:Hab.
      * split; [|done]. intros _ k Hk Heqv.
        destruct (decide (k = i)) as [->|Hne]; [done|].
        destruct (Heqv i) as [Hcontra _]; [lia|]. congruence.
      * rewrite IH. split.
        -- intros Hall k Hk Heqv.
           destruct (decide (k = i)) as [->|Hne]; [done|].
           apply Hall; [lia|]. intros j Hj. apply Heqv. lia.
        -- intros Hall k Hk Heqv. apply Hall; [lia|]. intros j Hj.
           destruct (decide (j = i)) as [->|Hne]; [done|]. apply Heqv. lia.
Qed.

Section VersionOrder.
Variable Number : string → jsnum.

Lemma compareVersions_le (v1 v2 : string) :
  let a := map Number (split "." v1) in
  let b := map Number (split "." v2) in
  (compareVersions Number v1 v2 ≤ 0)%Z ↔
  ∀ k, (∀ j, j < k →
             js_lt (orZero (a !! j)) (orZero (b !! j)) = false
             ∧ js_lt (orZero (b !! j)) (orZero (a !! j)) = false) →
       js_lt (orZero (b !! k)) (orZero (a !! k)) = false.
Proof.
  intros a b. unfold compareVersions. fold a b. rewrite compareLoop_le. split.
  - intros Hall k Heqv.
    destruct (decide (k < Nat.max (length a) (length b))) as [Hk|Hk].
    + apply Hall; [lia|]. intros j Hj. apply Heqv. lia.
    + rewrite (lookup_ge_None_2 a k), (lookup_ge_None_2 b k) by lia. done.
  - intros Hall k Hk Heqv. apply Hall. intros j Hj. apply Heqv. lia.
Qed.

(** X26: [compareVersions] orders all strings consistently: when it puts a
    first version not above a second and the second not above a third, it
    puts the first not above the third. *)
Theorem compareVersions_trans (version1 version2 version3 : string) :
  (compareVersions Number version1 version2 ≤ 0)%Z →
  (compareVersions Number version2 version3 ≤ 0)%Z →
  (compareVersions Number version1 version3 ≤ 0)%Z.
Proof.
  rewrite !compareVersions_le.
  set (a := map Number (split "." version1)).
  set (b := map Number (split "." version2)).
  set (c := map Number (split "." version3)).
  intros Hab Hbc k Hac.
  assert (Heqv : ∀ j, j < k →
            (js_lt (orZero (a !! j)) (orZero (b !! j)) = false
             ∧ js_lt (orZero (b !! j)) (orZero (a !! j)) = false)
            ∧ (js_lt (orZero (b !! j)) (orZero (c !! j)) = false
               ∧ js_lt (orZero (c !! j)) (orZero (b !! j)) = false)).
  { intros j. induction j as [j IHj] using lt_wf_ind. intros Hj.
    assert (Hba : js_lt (orZero (b !! j)) (orZero (a !! j)) = false).
    { apply Hab. intros j' Hj'. apply IHj; lia. }
    assert (Hcb : js_lt (orZero (c !! j)) (orZero (b !! j)) = false).
    { apply Hbc. intros j' Hj'. apply IHj; lia. }
    destruct (Hac j Hj) as [Hac1 Hca1].
    split_and!; [|done| |done].
    - apply (js_le_trans _ (orZero (c !! j)) _);
        [apply orZero_notNaN..|done|done].
    - apply (js_le_trans _ (orZero (a !! j)) _);
        [apply orZero_notNaN..|done|done]. }
  apply (js_le_trans _ (orZero (b !! k)) _); [apply orZero_notNaN..| |].
  - apply Hab. intros j Hj. by apply Heqv.
  - apply Hbc. intros j Hj. by apply Heqv.
Qed.
End VersionOrder.

(** ** Where the descriptors of the merged record come from *)

Lemma elem_of_set (o : list (string * nat)) k v k' v' :
  (k', v') ∈ JSObject.set k v o → (k', v') ∈ o ∨ (k', v') = (k, v).
Proof.
  induction o as [|[k0 v0] o IH]; simpl.
  - intros ->%list_elem_of_singleton. by right.
  - case_decide.
    + intros [->|Hin]%elem_of_cons; [by right|]. left. by apply list_elem_of_further.
    + intros [->|Hin]%elem_of_cons; [left; apply list_elem_of_here|].
      destruct (IH Hin) as [?|?]; [left; by apply list_elem_of_further | by right].
Qed.

Lemma elem_of_assign (o : list (string * nat)) k v k' v' :
  (k', v') ∈ JSObject.assign k v o → (k', v') ∈ o ∨ (k', v') = (k, v).
Proof.
  destruct (JSObjectFacts.keys_assign o k v) as [-> | ->];
    [by left | apply elem_of_set].
Qed.

Lemma elem_of_spread (extra : list (string * nat)) :
  ∀ base k v, (k, v) ∈ JSObject.spread base extra →
              (k, v) ∈ base ∨ (k, v) ∈ extra.
Proof.
  unfold JSObject.spread. induction extra as [|[k0 v0] extra IH];
    intros base k v; simpl; [by left|].
  intros [[Hin|Heq]%elem_of_set|Hin]%IH.
  - by left.
  - right. rewrite Heq. apply list_elem_of_here.
  - right. by apply list_elem_of_further.
Qed.

Section Origin.
Variable clock : nat → Z.
Variable Number : string → jsnum.

(** One iteration on the store: the services object of the record under
    construction keeps its locations, but for the one of the service
    handled, which may become an object created by the iteration. *)
Lemma mergeStep_origin sl options mergedConfig result st name l sv h n entries
    result' h' n' :
  simState sl h mergedConfig result st → loadService h l = Some sv →
  h !! sl = Some (CServers entries) →
  Heap.mergeStep clock options mergedConfig result (name, l) h n
    = Some (result', h', n') →
  ∃ entries',
    h' !! sl = Some (CServers entries')
    ∧ length h ≤ length h'
    ∧ ∀ name' l', (name', l') ∈ entries' →
                  (name', l') ∈ entries ∨ length h ≤ l'.
Proof.
  intros [(cfg & Hcfg & Hsl) Hconfig Hnone Hresult] Hsv Hentries.
  destruct st as [cv rv]. simpl in Hconfig.
  destruct (HeapFacts.loadConfig_inv _ _ _ Hconfig)
    as (cfg' & entries0 & Hcfg' & Hentries0 & Hload & _).
  rewrite Hcfg in Hcfg'. injection Hcfg' as <-. rewrite Hsl in Hentries0.
  rewrite Hentries in Hentries0. injection Hentries0 as <-.
  unfold Heap.mergeStep.
  rewrite (HeapFacts.run_bind _ _ _ _ _ _ _ (HeapFacts.run_readConfig _ _ _ n Hcfg)),
    Hsl.
  rewrite (HeapFacts.run_bind _ _ _ _ _ _ _
             (HeapFacts.run_readServers _ _ _ n Hentries)).
  destruct (HeapFacts.mergeService_sim clock name l
              (JSObject.lookup name entries) sv
              (JSObject.lookup name (mcpServers cv)) options h n Hsv
              (HeapFacts.loadEntries_lookup _ _ _ _ Hload))
    as (r & ext & Hrun & Hr & Hfresh).
  rewrite (HeapFacts.run_bind _ _ _ _ _ _ _ Hrun).
  assert (Hcfg1 : (h ++ ext) !! mergedConfig = Some (CConfig cfg)).
  { rewrite lookup_app_l; [done | by eapply lookup_lt_Some]. }
  assert (Hentries1 : (h ++ ext) !! sl = Some (CServers entries)).
  { rewrite lookup_app_l; [done | by eapply lookup_lt_Some]. }
  assert (Hsame : ∃ entries',
    (h ++ ext) !! sl = Some (CServers entries')
    ∧ length h ≤ length (h ++ ext)
    ∧ ∀ name' l', (name', l') ∈ entries' →
                  (name', l') ∈ entries ∨ length h ≤ l').
  { exists entries. split_and!; [done | rewrite length_app; lia | by left]. }
  assert (Hassigned : ∃ entries',
    match r_config r with
    | Some c' => <[sl := CServers (JSObject.assign name c' entries)]> (h ++ ext)
    | None => h ++ ext
    end !! sl = Some (CServers entries')
    ∧ length h ≤ length (match r_config r with
                         | Some c' =>
                             <[sl := CServers (JSObject.assign name c' entries)]>
                               (h ++ ext)
                         | None => h ++ ext
                         end)
    ∧ ∀ name' l', (name', l') ∈ entries' →
                  (name', l') ∈ entries ∨ length h ≤ l').
  { destruct (r_config r) as [c|] eqn:Hc; [|done].
    exists (JSObject.assign name c entries). split_and!.
    - apply list_lookup_insert_eq. by eapply lookup_lt_Some.
    - rewrite length_insert, length_app. lia.
    - intros name' l' [Hin|[= -> ->]]%elem_of_assign; [by left|].
      right. by rewrite (Hfresh c eq_refl). }
  pose proof (HeapFacts.assignService_run sl (h ++ ext) mergedConfig cfg entries
                name (r_config r)
                (snd (mergeService clock name sv
                        (JSObject.lookup name (mcpServers cv)) options n))
                Hcfg1 Hsl Hentries1) as Hassign.
  unfold bind at 1.
  destruct (r_conflict r) as [conflict|].
  - unfold ret. by intros [= _ <- _].
  - destruct (r_action r).
    + rewrite (HeapFacts.run_bind _ _ _ _ _ _ _ Hassign).
      unfold ret. by intros [= _ <- _].
    + rewrite (HeapFacts.run_bind _ _ _ _ _ _ _ Hassign).
      unfold ret. by intros [= _ <- _].
    + unfold ret. by intros [= _ <- _].
Qed.

Lemma mergeLoop_origin sl options mergedConfig sentries :
  ∀ servers result st h n entries,
    simState sl h mergedConfig result st →
    loadEntries h sentries = Some servers →
    h !! sl = Some (CServers entries) →
    ∃ result' h' n' entries',
      Heap.mergeLoop clock options mergedConfig sentries result h n
        = Some (result', h', n')
      ∧ h' !! sl = Some (CServers entries')
      ∧ length h ≤ length h'
      ∧ ∀ name' l', (name', l') ∈ entries' →
                    (name', l') ∈ entries ∨ length h ≤ l'.
Proof.
  induction sentries as [|[name l] sentries IH];
    intros servers result st h n entries Hsim; simpl.
  - intros _ Hentries. exists result, h, n, entries.
    split_and!; [done | done | done | by left].
  - destruct (loadService h l) as [sv|] eqn:Hsv; [|done].
    destruct (loadEntries h sentries) as [rest|] eqn:Hrest; [|done].
    intros _ Hentries.
    destruct (HeapFacts.mergeStep_sim clock sl options mergedConfig result st
                name l sv h n Hsim Hsv)
      as (result1 & h1 & Hrun & Hstable & _ & Hsim1).
    destruct (mergeStep_origin sl options mergedConfig result st name l sv h n
                entries _ _ _ Hsim Hsv Hentries Hrun)
      as (entries1 & Hentries1 & Hlen1 & Horigin1).
    rewrite (HeapFacts.run_bind _ _ _ _ _ _ _ Hrun).
    destruct (IH rest result1 _ h1
                (snd (mergeStep clock options st (name, sv) n)) entries1 Hsim1)
      as (result2 & h2 & n2 & entries2 & Hrun2 & Hentries2 & Hlen2 & Horigin2).
    { apply (HeapFacts.loadEntries_preserved h); [|done].
      by eapply HeapFacts.stableExcept_preserves. }
    { done. }
    exists result2, h2, n2, entries2. split_and!; [done | done | lia |].
    intros name' l' Hin.
    destruct (Horigin2 name' l' Hin) as [Hold|Hnew]; [|right; lia].
    by apply Horigin1.
Qed.

(** X27: every descriptor object of the record [mergeConfigs] returns is
    either the object the target holds under that name or an object the
    call created: the result shares descriptor objects with the target
    only, and a descriptor of the source is in it as a copy. *)
Theorem merged_descriptors_origin source target sourcev targetv options h n :
  loadConfig h source = Some sourcev → loadConfig h target = Some targetv →
  ∃ r h' n' cfg entries tcfg tentries,
    Heap.mergeConfigs clock Number source target options h n = Some (r, h', n')
    ∧ h_config r = Some (length h)
    ∧ h' !! length h = Some (CConfig cfg)
    ∧ h' !! o_mcpServers cfg = Some (CServers entries)
    ∧ h !! target = Some (CConfig tcfg)
    ∧ h !! o_mcpServers tcfg = Some (CServers tentries)
    ∧ ∀ name l, (name, l) ∈ entries → (name, l) ∈ tentries ∨ length h ≤ l.
Proof.
  intros HS HT.
  destruct (HeapFacts.mergeConfigs_sim clock Number source target sourcev
              targetv options h n HS HT)
    as (r & h' & Hrun & _ & _ & Hconfig & cfg & Hcfg & Hservers).
  exists r, h', (snd (mergeConfigs clock Number sourcev targetv options n)), cfg.
  revert Hrun. unfold Heap.mergeConfigs.
  destruct (HeapFacts.mergeStart_sim_entries clock Number source target sourcev
              targetv options h n HS HT)
    as (result0 & ext & Hrun0 & Hsim0 & tcfg & tentries & Htcfg & Htentries
        & Hentries0).
  rewrite (HeapFacts.run_bind _ _ _ _ _ _ _ Hrun0).
  pose proof (HeapFacts.loadConfig_stable _ _ _ _ (HeapFacts.stable_app h ext) HS)
    as HS0.
  destruct (HeapFacts.loadConfig_inv _ _ _ HS0)
    as (scfg & sentries & Hscfg & Hsentries & Hsload & _).
  rewrite (HeapFacts.run_bind _ _ _ _ _ _ _ (HeapFacts.run_readConfig _ _ _ _ Hscfg)).
  rewrite (HeapFacts.run_bind _ _ _ _ _ _ _
             (HeapFacts.run_readServers _ _ _ _ Hsentries)).
  simpl. unfold JSObject.entries.
  destruct (mergeLoop_origin (S (length h)) options (length h) sentries
              (mcpServers sourcev) result0 _ (h ++ ext)
              (snd (mergeStart clock Number sourcev targetv options n))
              (JSObject.copy tentries) Hsim0 Hsload Hentries0)
    as (result1 & h1 & n1 & entries1 & Hrun1 & Hentries1 & Hlen1 & Horigin1).
  rewrite (HeapFacts.run_bind _ _ _ _ _ _ _ Hrun1).
  intros Hfinish.
  assert (h1 = h') as ->.
  { revert Hfinish. unfold Heap.mergeFinish. unfold bind at 1.
    destruct (validateResult options).
    - unfold bind at 1, deepConfig.
      destruct (loadConfig h1 (length h)); [|done].
      unfold ret. by intros [= _ <- _].
    - unfold ret. by intros [= _ <- _]. }
  exists entries1, tcfg, tentries. rewrite Hservers.
  split_and!; try done.
  intros name l Hin. rewrite length_app in Hlen1.
  destruct (Horigin1 name l Hin) as [Hcopy|Hnew]; [|right; rewrite length_app in Hnew; lia].
  apply elem_of_spread in Hcopy as [[]%elem_of_nil|?]. by left.
Qed.
End Origin.

(** ** The iteration that handles one service, and what the result counts *)

Section ServiceCases.
Variable clock : nat → Z.
Variable Number : string → jsnum.


(** The counters of the result, by the cases of the entries of the
    source. *)
Lemma mergeConfigs_counters source target options n :
  wfConfig source → wfConfig target →
  let r := fst (mergeConfigs clock Number source target options n) in
  let count f := length (List.filter (f (mcpServers target)) (mcpServers source)) in
  addedServices (stats r) = count isNew
  ∧ updatedServices (stats r)
    = count agrees + (if writesClash (strategy options) then count clashes else 0)
  ∧ skippedServices (stats r)
    = (if bool_decide (strategy options = SKIP) then count clashes else 0)
  ∧ conflictServices (stats r)
    = (if bool_decide (strategy options = PROMPT) then count clashes else 0)
  ∧ length (conflicts r) = conflictServices (stats r).
Proof.
  intros Hsource Htarget r count. subst r count.
  destruct (mergeConfigs_outcome clock Number source target options n
              Hsource Htarget) as (st0 & st & Hst0 & -> & Hservers & Hres & Hout).
  rewrite mergeFinish_stats, mergeFinish_conflicts.
  rewrite (out_added _ _ _ _ _ _ Hout), (out_updated _ _ _ _ _ _ Hout),
    (out_skipped _ _ _ _ _ _ Hout), (out_conflict _ _ _ _ _ _ Hout).
  destruct (out_conflicts _ _ _ _ _ _ Hout) as (new & -> & Hparties & _).
  rewrite Hres. simpl. split_and!; try done.
  apply (f_equal length) in Hparties. rewrite length_map in Hparties.
  rewrite Hparties. case_bool_decide; [by rewrite length_map | done].
Qed.



(** C7: under [PROMPT], a service of both records whose descriptors do
    not agree.  The iteration that handles it appends the conflict the
    detector returns to the conflicts, increments [conflictServices] by
    one and leaves the other counters, [skippedServices] among them, as
    they are.  The result has the conflict; its [conflictServices] and the
    length of its conflicts are the number of the services of the source
    for which the lookup in the target returns something that differs,
    of which the service is one, and its [skippedServices] is zero.
    [mergeConfigs] returns a record, which has the target's descriptor
    for the service; the errors of the result are those of the
    validation of that record, and the merge succeeds exactly when
    [validateResult] is off or the record is valid: a conflict left to
    the user does not make it fail. *)
Theorem prompt_defers_conflict source target options n pre name svc post targetSvc :
  strategy options = PROMPT →
  mcpServers source = pre ++ ((name, svc) :: post) →
  wfConfig source → wfConfig target →
  JSObject.get name (mcpServers target) = Some targetSvc →
  ¬ agree svc targetSvc →
  let '(st1, n1) := loopStateAfter clock Number source target options pre n in
  let '(st2, n2) := mergeStep clock options st1 (name, svc) n1 in
  let r := fst (mergeConfigs clock Number source target options n) in
  let differing :=
    List.filter (clashes (mcpServers target)) (mcpServers source) in
  ∃ conflict c,
    detectServiceConflict clock name svc (Own targetSvc) n1 = (Some conflict, n2)
    ∧ conflicts (snd st2) = conflicts (snd st1) ++ [conflict]
    ∧ stats (snd st2)
      = {| totalServices := totalServices (stats (snd st1));
           addedServices := addedServices (stats (snd st1));
           updatedServices := updatedServices (stats (snd st1));
           skippedServices := skippedServices (stats (snd st1));
           conflictServices := S (conflictServices (stats (snd st1))) |}
    ∧ conflict ∈ conflicts r
    ∧ (name, svc) ∈ differing
    ∧ conflictServices (stats r) = length differing
    ∧ length (conflicts r) = length differing
    ∧ skippedServices (stats r) = 0
    ∧ config r = Some c
    ∧ JSObject.get name (mcpServers c) = Some targetSvc
    ∧ errors r = (if validateResult options
                  then map message (v_errors (validateConfig c)) else [])
    ∧ success r = (if validateResult options
                   then isValid (validateConfig c) else true).
Proof.
  intros Hstrategy Hsource Hwfs Hwft Htarget Hdiffer.
  pose proof (mergeConfigs_at clock Number source target options n pre name
                svc post Hsource Hwfs Hwft) as Hat.
  destruct (mergeConfigs_counters source target options n Hwfs Hwft)
    as (_ & _ & Hskipped & Hconflict & Hlen).
  rewrite Hstrategy in Hskipped, Hconflict. simpl in Hskipped, Hconflict.
  destruct (loopStateAfter clock Number source target options pre n)
    as [[cfg1 res1] n1].
  assert (Hget : JSObject.lookup name (mcpServers cfg1) = Some (Own targetSvc)).
  { destruct (mergeStep _ _ _ _ _) in Hat. simpl in Hat.
    destruct Hat as [Heq _]. apply JSObjectFacts.lookup_Own. by rewrite Heq. }
  apply sameAs_Own_false in Hdiffer as Hsame.
  destruct (mergeStep_prompt clock options cfg1 res1 name svc (Own targetSvc) n1)
    as (conflict & Hdetect & Hstep); [done..|].
  rewrite Hstep in Hat |- *.
  destruct Hat as (Hget1 & _ & Herr1 & st3 & Hr & Hget3 & (new & Hnew & _) & _
                   & Herr3).
  simpl in Hget1, Herr1, Hget3, Hnew, Herr3 |- *.
  assert (Herrors : errors (mergeFinish options st3)
            = if validateResult options
              then map message (v_errors (validateConfig (fst st3))) else []).
  { by rewrite mergeFinish_errors_eq, Herr3, Herr1. }
  exists conflict, (fst st3).
  split_and!; try done.
  - rewrite Hr, mergeFinish_conflicts, Hnew, !elem_of_app, list_elem_of_singleton.
    auto.
  - apply elem_of_List_filter. split.
    + rewrite Hsource. apply elem_of_app. right. apply list_elem_of_here.
    + unfold clashes. simpl.
      by rewrite (JSObjectFacts.lookup_Own _ _ _ Htarget), Hsame.
  - by rewrite Hlen.
  - rewrite Hr. apply mergeFinish_config.
  - by rewrite Hget3, Hget1.
  - by rewrite Hr.
  - rewrite Hr, mergeFinish_success, Herrors.
    destruct (validateResult options); [|done].
    destruct (isValid (validateConfig (fst st3))) eqn:Hvalid.
    + apply validateConfigSync_isValid in Hvalid. unfold validateConfig.
      by rewrite Hvalid.
    + apply bool_decide_eq_false_2. intros Hnil.
      apply map_eq_nil in Hnil.
      apply validateConfigSync_isValid in Hnil. unfold validateConfig in Hvalid.
      congruence.
Qed.
End ServiceCases.

(** ** A service under a name that [Object.prototype] has *)

Section ShadowedService.
Variable clock : nat → Z.
Variable Number : string → jsnum.

(** X28: a service of the source under a name that the target lacks and
    [Object.prototype] has (such as [constructor] or [toString]), in a
    source that names no service [__proto__].  The lookup of the name in
    the record under construction finds the inherited member, and the
    service is handled as one that differs from the target's, not as a
    new one: it is not among the services counted as added; it leaves
    the warning of the strategy; under [SKIP] and [PROMPT] the merged
    record does not have it, [SKIP] counting it as skipped and [PROMPT]
    returning a conflict that names it, with the inherited member as the
    target's side; under [OVERWRITE] the merged record has it with the
    source's descriptor, and under [MERGE] with the field-wise merge of
    the source's descriptor and the inherited member. *)
Theorem shadowed_service source target options n name s :
  wfConfig source → wfConfig target → plainNames source →
  JSObject.get name (mcpServers source) = Some s →
  name ∉ JSObject.keys (mcpServers target) →
  name ∈ JSObject.prototypeKeys →
  let r := fst (mergeConfigs clock Number source target options n) in
  let new := List.filter (isNew (mcpServers target)) (mcpServers source) in
  let differing :=
    List.filter (clashes (mcpServers target)) (mcpServers source) in
  ∃ c,
    config r = Some c
    ∧ (name, s) ∈ differing
    ∧ ((name, s) ∉ new)
    ∧ addedServices (stats r) = length new
    ∧ (∀ w, w ∈ clashWarnings (strategy options) name → w ∈ warnings r)
    ∧ match strategy options with
      | OVERWRITE => JSObject.get name (mcpServers c) = Some s
      | MERGE =>
          ∃ k, JSObject.get name (mcpServers c)
               = Some (fst (mergeServiceConfigs clock s (Inherited name)
                              (preserveMetadata options) k))
      | SKIP =>
          JSObject.get name (mcpServers c) = None
          ∧ skippedServices (stats r) = length differing
      | PROMPT =>
          JSObject.get name (mcpServers c) = None
          ∧ conflictServices (stats r) = length differing
          ∧ ∃ conflict,
              conflict ∈ conflicts r
              ∧ serviceName conflict = name
              ∧ sourceConfig conflict = s
              ∧ targetConfig conflict = Inherited name
      end.
Proof.
  intros Hsource Htarget Hplain Hs Habsent Hproto r new differing.
  subst r new differing.
  assert (Hname : name ≠ "__proto__").
  { intros ->. apply Hplain. by eapply JSObjectFacts.get_Some_keys. }
  pose proof (JSObjectFacts.lookup_Inherited _ _ Habsent Hproto) as Hlookup.
  apply JSObjectFacts.get_elem_of in Hs as Hin.
  assert (Hclash : (name, s)
            ∈ List.filter (clashes (mcpServers target)) (mcpServers source)).
  { apply elem_of_List_filter. split; [done|].
    unfold clashes. simpl. by rewrite Hlookup. }
  destruct (mergeConfigs_outcome clock Number source target options n
              Hsource Htarget) as (st0 & st & Hst0 & -> & Hservers & Hres & Hout).
  exists (fst st).
  rewrite mergeFinish_config, mergeFinish_stats, mergeFinish_conflicts.
  pose proof (out_entry _ _ _ _ _ _ Hout _ _ Hin) as Hresolved.
  unfold resolved in Hresolved. rewrite Hlookup in Hresolved.
  unfold JSObject.assigned in Hresolved. simpl in Hresolved.
  rewrite decide_False in Hresolved by done.
  split_and!; [done | done | | | |].
  - intros [_ Hnew]%elem_of_List_filter. unfold isNew in Hnew. simpl in Hnew.
    by rewrite Hlookup in Hnew.
  - by rewrite (out_added _ _ _ _ _ _ Hout), Hres.
  - intros w Hw. rewrite mergeFinish_warnings_eq. apply elem_of_app. left.
    rewrite (out_warnings _ _ _ _ _ _ Hout), Hres. simpl.
    by eapply elem_of_flat_map.
  - destruct (strategy options) eqn:Hstrategy; simpl in Hresolved.
    + done.
    + split; [done|].
      by rewrite (out_skipped _ _ _ _ _ _ Hout), Hstrategy, Hres.
    + destruct Hresolved as [k Hk]. exists k.
      by rewrite decide_False in Hk by done.
    + split; [done|]. split.
      { by rewrite (out_conflict _ _ _ _ _ _ Hout), Hstrategy, Hres. }
      destruct (out_conflicts _ _ _ _ _ _ Hout) as (cs & -> & Hparties & _).
      rewrite Hstrategy in Hparties. simpl in Hparties.
      assert (Hparty : entryParties (mcpServers target) (name, s)
                ∈ map conflictParties cs).
      { rewrite Hparties. apply list_elem_of_fmap. by exists (name, s). }
      apply list_elem_of_fmap in Hparty as (conflict & Heq & Hc).
      unfold entryParties, conflictParties in Heq. simpl in Heq.
      rewrite Hlookup in Heq. injection Heq as Hn Hsrc Htgt.
      exists conflict. split_and!; try done.
      apply elem_of_app. by right.
Qed.
End ShadowedService.

(** ** The further theorems at concrete records *)

Lemma sample_fs_source :
  JSObject.get "fs" (mcpServers sampleSource) = Some (plainService "node" ["b"]).
Proof. reflexivity. Defined.

Lemma sample_fs_target :
  JSObject.get "fs" (mcpServers sampleTarget) = Some (plainService "node" ["a"]).
Proof. reflexivity. Defined.



Lemma plain_sampleSource : plainNames sampleSource.
Proof. unfold plainNames. compute_done. Defined.

Lemma unshadowed_sampleSource :
  Forall (λ name, name ∉ JSObject.prototypeKeys)
    (JSObject.keys (mcpServers sampleSource)).
Proof. compute_done. Defined.







Lemma prompt_defers_conflict_witness :
  strategy (plainOptions PROMPT) = PROMPT
  ∧ wfConfig sampleSource ∧ wfConfig sampleTarget
  ∧ JSObject.get "fs" (mcpServers sampleTarget) = Some (plainService "node" ["a"])
  ∧ ¬ agree (plainService "node" ["b"]) (plainService "node" ["a"])
  ∧ let r := fst (mergeConfigs sampleClock decimalNumber sampleSource
                    sampleTarget (plainOptions PROMPT) 0) in
    ∃ conflict c,
      conflict ∈ conflicts r
      ∧ conflictServices (stats r)
        = length (List.filter (clashes (mcpServers sampleTarget))
                    (mcpServers sampleSource))
      ∧ skippedServices (stats r) = 0
      ∧ config r = Some c
      ∧ JSObject.get "fs" (mcpServers c) = Some (plainService "node" ["a"])
      ∧ success r = true.
Proof.
  split_and!;
    [done | apply wf_sampleSource | apply wf_sampleTarget | done
    | apply sample_fs_differ | ].
  pose proof (prompt_defers_conflict sampleClock decimalNumber sampleSource
                sampleTarget (plainOptions PROMPT) 0
                [] "fs" (plainService "node" ["b"])
                [("git", plainService "uvx" ["mcp-server-git"])]
                (plainService "node" ["a"])
                eq_refl eq_refl wf_sampleSource wf_sampleTarget eq_refl
                sample_fs_differ) as H.
  destruct (loopStateAfter _ _ _ _ _ _ _) as [st1 n1].
  destruct (mergeStep _ _ _ _ _) as [st2 n2].
  destruct H as (conflict & c & _ & _ & _ & Hin & _ & Hcount & _ & Hskipped
                 & Hconfig & Hget & _ & Hsuccess).
  exists conflict, c. split_and!; assumption.
Defined.

Lemma merged_services_witness :
  wfConfig sampleSource ∧ wfConfig sampleTarget
  ∧ ∃ c,
      config (fst (mergeConfigs sampleClock decimalNumber sampleSource
                     sampleTarget (plainOptions SKIP) 0)) = Some c
      ∧ wfConfig c
      ∧ (∀ name, name ∈ JSObject.keys (mcpServers sampleTarget) →
                 name ∈ JSObject.keys (mcpServers c))
      ∧ (∀ name, name ∈ JSObject.keys (mcpServers c) ↔
                 name ∈ JSObject.keys (mcpServers sampleTarget)
                 ∨ (name ∈ JSObject.keys (mcpServers sampleSource)
                    ∧ ((name ∉ JSObject.prototypeKeys)
                       ∨ (name ≠ "__proto__"
                          ∧ writesClash (strategy (plainOptions SKIP)) = true))))
      ∧ (∀ name, name ∉ JSObject.keys (mcpServers sampleSource) →
                 JSObject.get name (mcpServers c)
                 = JSObject.get name (mcpServers sampleTarget))
      ∧ schema c = schema sampleTarget.
Proof.
  split; [apply wf_sampleSource|]. split; [apply wf_sampleTarget|].
  exact (merged_services sampleClock decimalNumber sampleSource sampleTarget
           (plainOptions SKIP) 0 wf_sampleSource wf_sampleTarget).
Defined.


Lemma fieldwise_merge_witness :
  wfConfig sampleSource ∧ wfConfig sampleTarget
  ∧ (agree (plainService "node" ["b"]) (plainService "node" ["a"])
     ∨ strategy (plainOptions MERGE) = MERGE)
  ∧ let r := fst (mergeConfigs sampleClock decimalNumber sampleSource
                    sampleTarget (plainOptions MERGE) 0) in
    ∃ c k,
      config r = Some c
      ∧ JSObject.get "fs" (mcpServers c)
        = Some (fst (mergeServiceConfigs sampleClock (plainService "node" ["b"])
                       (Own (plainService "node" ["a"]))
                       (preserveMetadata (plainOptions MERGE)) k))
      ∧ (¬ agree (plainService "node" ["b"]) (plainService "node" ["a"]) →
         "强制合并服务 " +:+ quoted "fs" +:+ "，可能存在配置冲突" ∈ warnings r).
Proof.
  split; [apply wf_sampleSource|]. split; [apply wf_sampleTarget|].
  split; [right; reflexivity|].
  exact (fieldwise_merge sampleClock decimalNumber sampleSource sampleTarget
           (plainOptions MERGE) 0 "fs" (plainService "node" ["b"])
           (plainService "node" ["a"]) wf_sampleSource wf_sampleTarget
           sample_fs_source sample_fs_target (or_intror eq_refl)).
Defined.

Lemma merge_warnings_witness :
  wfConfig sampleSource ∧ wfConfig sampleTarget ∧ plainNames sampleSource
  ∧ let r := fst (mergeConfigs sampleClock decimalNumber sampleSource
                    sampleTarget (plainOptions SKIP) 0) in
    ∃ c,
      config r = Some c
      ∧ warnings r
        = flat_map (λ e, clashWarnings (strategy (plainOptions SKIP)) (fst e))
            (List.filter (clashes (mcpServers sampleTarget))
               (mcpServers sampleSource))
          ++ (if validateResult (plainOptions SKIP)
              then map message (v_warnings (validateConfig c)) else []).
Proof.
  split; [apply wf_sampleSource|]. split; [apply wf_sampleTarget|].
  split; [apply plain_sampleSource|].
  exact (merge_warnings sampleClock decimalNumber sampleSource sampleTarget
           (plainOptions SKIP) 0 wf_sampleSource wf_sampleTarget
           plain_sampleSource).
Defined.

Lemma detectConflicts_different_witness :
  wfConfig sampleSource
  ∧ ∃ d, analyzeDifferences sampleSource sampleTarget = Some d
      ∧ map serviceName
          (fst (detectConflicts sampleClock sampleSource sampleTarget 0))
        = List.filter
            (λ name, bool_decide (name ∈ different d)
                     || (bool_decide (name ∈ onlyInFirst d) && inherited name))
            (JSObject.keys (mcpServers sampleSource))
      ∧ (Forall (λ name, name ∉ JSObject.prototypeKeys) (onlyInFirst d) →
         map serviceName
           (fst (detectConflicts sampleClock sampleSource sampleTarget 0))
         = different d).
Proof.
  split; [apply wf_sampleSource|].
  exact (detectConflicts_different sampleClock sampleSource sampleTarget 0
           wf_sampleSource).
Defined.

Lemma prompt_conflicts_detected_witness :
  strategy (plainOptions PROMPT) = PROMPT
  ∧ wfConfig sampleSource ∧ wfConfig sampleTarget
  ∧ map forgetId
      (conflicts (fst (mergeConfigs sampleClock decimalNumber sampleSource
                         sampleTarget (plainOptions PROMPT) 0)))
    = map forgetId (fst (detectConflicts sampleClock sampleSource sampleTarget 7)).
Proof.
  split; [reflexivity|]. split; [apply wf_sampleSource|].
  split; [apply wf_sampleTarget|].
  exact (prompt_conflicts_detected sampleClock decimalNumber sampleSource
           sampleTarget (plainOptions PROMPT) 0 7 eq_refl wf_sampleSource
           wf_sampleTarget).
Defined.

Lemma merge_counts_differences_witness :
  wfConfig sampleSource ∧ wfConfig sampleTarget ∧ plainNames sampleSource
  ∧ let r := fst (mergeConfigs sampleClock decimalNumber sampleSource
                    sampleTarget (plainOptions SKIP) 0) in
    ∃ d,
      analyzeDifferences sampleSource sampleTarget = Some d
      ∧ let shadowed := List.filter inherited (onlyInFirst d) in
        addedServices (stats r) + length shadowed = length (onlyInFirst d)
        ∧ updatedServices (stats r) = length (identical d)
        ∧ skippedServices (stats r) = length (different d) + length shadowed
        ∧ conflictServices (stats r) = 0.
Proof.
  split; [apply wf_sampleSource|]. split; [apply wf_sampleTarget|].
  split; [apply plain_sampleSource|].
  exact (merge_counts_differences sampleClock decimalNumber sampleSource
           sampleTarget (plainOptions SKIP) 0 wf_sampleSource wf_sampleTarget
           plain_sampleSource).
Defined.

Lemma merge_again_witness :
  preserveMetadata (plainOptions MERGE) = false
  ∧ wfConfig sampleSource ∧ wfConfig sampleTarget
  ∧ ∃ c,
      config (fst (mergeConfigs sampleClock decimalNumber sampleSource
                     sampleTarget (plainOptions MERGE) 0)) = Some c
      ∧ config (fst (mergeConfigs sampleClock decimalNumber sampleSource c
                       (plainOptions MERGE) 5)) = Some c.
Proof.
  split; [reflexivity|]. split; [apply wf_sampleSource|].
  split; [apply wf_sampleTarget|].
  exact (merge_again sampleClock decimalNumber sampleSource sampleTarget
           (plainOptions MERGE) 0 5 eq_refl wf_sampleSource wf_sampleTarget).
Defined.


Lemma merge_into_empty_witness :
  mcpServers (withServers [] sampleTarget) = [] ∧ wfConfig sampleSource
  ∧ Forall (λ name, name ∉ JSObject.prototypeKeys)
      (JSObject.keys (mcpServers sampleSource))
  ∧ let r := fst (mergeConfigs sampleClock decimalNumber sampleSource
                    (withServers [] sampleTarget) (plainOptions PROMPT) 0) in
    ∃ c,
      config r = Some c
      ∧ mcpServers c = mcpServers sampleSource
      ∧ addedServices (stats r) = length (JSObject.keys (mcpServers sampleSource))
      ∧ updatedServices (stats r) = 0
      ∧ skippedServices (stats r) = 0
      ∧ conflictServices (stats r) = 0
      ∧ conflicts r = [].
Proof.
  split; [reflexivity|]. split; [apply wf_sampleSource|].
  split; [apply unshadowed_sampleSource|].
  exact (merge_into_empty sampleClock decimalNumber sampleSource
           (withServers [] sampleTarget) (plainOptions PROMPT) 0 eq_refl
           wf_sampleSource unshadowed_sampleSource).
Defined.

Lemma target_fields_kept_witness :
  (strategy (plainOptions PROMPT) = SKIP ∨ strategy (plainOptions PROMPT) = PROMPT)
  ∧ wfConfig sampleSource ∧ wfConfig sampleTarget
  ∧ JSObject.get "fs" (mcpServers sampleTarget) = Some (plainService "node" ["a"])
  ∧ ∃ c v,
      config (fst (mergeConfigs sampleClock decimalNumber sampleSource
                     sampleTarget (plainOptions PROMPT) 0)) = Some c
      ∧ JSObject.get "fs" (mcpServers c) = Some v
      ∧ agree v (plainService "node" ["a"]).
Proof.
  split; [right; reflexivity|]. split; [apply wf_sampleSource|].
  split; [apply wf_sampleTarget|]. split; [reflexivity|].
  exact (target_fields_kept sampleClock decimalNumber sampleSource sampleTarget
           (plainOptions PROMPT) 0 "fs" (plainService "node" ["a"])
           (or_intror eq_refl) wf_sampleSource wf_sampleTarget sample_fs_target).
Defined.

Lemma compareVersions_trans_witness :
  (compareVersions decimalNumber "1.2.0" "1.10.0" ≤ 0)%Z
  ∧ (compareVersions decimalNumber "1.10.0" "2.0" ≤ 0)%Z
  ∧ (compareVersions decimalNumber "1.2.0" "2.0" ≤ 0)%Z.
Proof.
  assert (H1 : (compareVersions decimalNumber "1.2.0" "1.10.0" ≤ 0)%Z).
  { vm_compute. discriminate. }
  assert (H2 : (compareVersions decimalNumber "1.10.0" "2.0" ≤ 0)%Z).
  { vm_compute. discriminate. }
  split; [exact H1|]. split; [exact H2|].
  exact (compareVersions_trans decimalNumber "1.2.0" "1.10.0" "2.0" H1 H2).
Defined.

Lemma merged_descriptors_origin_witness :
  loadConfig sampleHeap 9 = Some sampleSource
  ∧ loadConfig sampleHeap 3 = Some sampleTarget
  ∧ ∃ r h' n' cfg entries tcfg tentries,
      Heap.mergeConfigs sampleClock decimalNumber 9 3 (plainOptions SKIP)
        sampleHeap 0 = Some (r, h', n')
      ∧ h_config r = Some (length sampleHeap)
      ∧ h' !! length sampleHeap = Some (CConfig cfg)
      ∧ h' !! o_mcpServers cfg = Some (CServers entries)
      ∧ sampleHeap !! 3 = Some (CConfig tcfg)
      ∧ sampleHeap !! o_mcpServers tcfg = Some (CServers tentries)
      ∧ ∀ name l, (name, l) ∈ entries →
                  (name, l) ∈ tentries ∨ length sampleHeap ≤ l.
Proof.
  split; [reflexivity|]. split; [reflexivity|].
  exact (merged_descriptors_origin sampleClock decimalNumber 9 3 sampleSource
           sampleTarget (plainOptions SKIP) sampleHeap 0 eq_refl eq_refl).
Defined.

Lemma wf_shadowedSource : wfConfig shadowedSource.
Proof. unfold wfConfig. compute_done. Defined.

Lemma wf_emptyTarget : wfConfig emptyTarget.
Proof. unfold wfConfig. compute_done. Defined.

Lemma plain_shadowedSource : plainNames shadowedSource.
Proof. unfold plainNames. compute_done. Defined.

Lemma shadowed_absent : "constructor" ∉ JSObject.keys (mcpServers emptyTarget).
Proof. compute_done. Defined.

Lemma shadowed_inherited : "constructor" ∈ JSObject.prototypeKeys.
Proof. compute_done. Defined.

Lemma shadowed_service_witness :
  wfConfig shadowedSource ∧ wfConfig emptyTarget ∧ plainNames shadowedSource
  ∧ JSObject.get "constructor" (mcpServers shadowedSource)
    = Some (plainService "node" ["a"])
  ∧ ("constructor" ∉ JSObject.keys (mcpServers emptyTarget))
  ∧ "constructor" ∈ JSObject.prototypeKeys
  ∧ let r := fst (mergeConfigs sampleClock decimalNumber shadowedSource
                    emptyTarget (plainOptions SKIP) 0) in
    let new := List.filter (isNew (mcpServers emptyTarget))
                 (mcpServers shadowedSource) in
    let differing := List.filter (clashes (mcpServers emptyTarget))
                       (mcpServers shadowedSource) in
    ∃ c,
      config r = Some c
      ∧ ("constructor", plainService "node" ["a"]) ∈ differing
      ∧ (("constructor", plainService "node" ["a"]) ∉ new)
      ∧ addedServices (stats r) = length new
      ∧ (∀ w, w ∈ clashWarnings SKIP "constructor" → w ∈ warnings r)
      ∧ JSObject.get "constructor" (mcpServers c) = None
      ∧ skippedServices (stats r) = length differing.
Proof.
  split_and!;
    [apply wf_shadowedSource | apply wf_emptyTarget | apply plain_shadowedSource
    | reflexivity | apply shadowed_absent | apply shadowed_inherited |].
  exact (shadowed_service sampleClock decimalNumber shadowedSource emptyTarget
           (plainOptions SKIP) 0 "constructor" (plainService "node" ["a"])
           wf_shadowedSource wf_emptyTarget plain_shadowedSource eq_refl
           shadowed_absent shadowed_inherited).
Defined.
